(** * Nested discussion thread: tree builder and optimistic mutations

    A shallow embedding of
      - [src/types/Comment.ts]              (the data model),
      - [src/utils/TreeBuilder.ts]          (buildTree, flattenTree,
                                             getMaxDepth, countNodes),
      - [src/services/CommentService.ts]    (the localStorage record store),
      - [src/components/DiscussionThread.tsx] (handleReply, handleDelete and
                                             CommentItem.handleSubmitReply),
    followed by the properties of the specification that were checked
    against it. *)

From Stdlib Require Import ZArith Ascii String List Permutation Sorted Lia.
From stdpp Require Import base option list gmap strings.

Local Open Scope string_scope.
Local Open Scope Z_scope.
Local Open Scope list_scope.
Local Set Warnings "-register-all".

(** ** Data model ([src/types/Comment.ts]) *)

(** [interface Comment].  [parentId : string | null] is an [option];
    the optional field [optimistic?: boolean] is [None] when absent. *)
Record Comment := mkComment {
  id : string;
  parentId : option string;
  content : string;
  author : string;
  createdAt : string;
  optimistic : option bool
}.

#[global] Instance Comment_eq_dec : EqDecision Comment.
Proof. solve_decision. Defined.

(** [interface CommentNode extends Comment], as the value a caller of
    [buildTree] reads by following the [children] references. *)
Inductive CommentNode := mkNode {
  node_comment : Comment;
  children : list CommentNode;
  depth : nat
}.

(** While [buildTree] runs, the node objects live in the JavaScript heap
    and are shared between the [Map], the [roots] array and the
    [children] arrays.  A node object is identified by its key in the
    [Map]; an array of node references is a list of keys. *)
Record NodeObj := mkNodeObj {
  obj_comment : Comment;
  obj_children : list string;
  obj_depth : nat
}.

Definition set_children (n : NodeObj) (l : list string) : NodeObj :=
  mkNodeObj (obj_comment n) l (obj_depth n).
Definition set_depth (n : NodeObj) (d : nat) : NodeObj :=
  mkNodeObj (obj_comment n) (obj_children n) d.
Definition push_child (k : string) (n : NodeObj) : NodeObj :=
  set_children n (obj_children n ++ [k]).

(** ** [Array.prototype.sort] with a comparator *)

(** The comparator returns a number; [None] stands for [NaN], which
    [sort] treats as [+0].  ECMAScript requires the sort to be stable;
    the model is the stable insertion sort, which every stable sort
    agrees with when the comparator is a consistent ordering.  (When it
    is not, the standard leaves the order to the implementation; the
    result is a rearrangement of the array in any case.) *)
Section JsSort.
Context {A : Type} (comparefn : A -> A -> option Z).

Definition cmp_neg (a b : A) : bool :=
  match comparefn a b with
  | Some v => v <? 0
  | None => false
  end.

Fixpoint js_insert (x : A) (l : list A) : list A :=
  match l with
  | [] => [x]
  | y :: l' => if cmp_neg y x then y :: js_insert x l' else x :: y :: l'
  end.

Definition js_sort (l : list A) : list A := foldr js_insert [] l.
End JsSort.

(** ** [new Date(s).getTime()] on the timestamps the program writes *)

(** The program only produces [YYYY-MM-DDTHH:MM:SSZ] (the seeded data)
    and [YYYY-MM-DDTHH:MM:SS.mmmZ] ([toISOString]).  [JsDate.getTime]
    reads these two shapes, as milliseconds since 1970-01-01T00:00:00Z,
    and answers [None] (an invalid date, whose [getTime()] is [NaN]) on
    every other string.  It is used on concrete collections only: the
    tree builder below takes the date reader as a parameter, and the
    general properties hold for every reader. *)
Module JsDate.

Definition digit (c : ascii) : option Z :=
  let n := Z.of_nat (nat_of_ascii c) in
  if (48 <=? n) && (n <=? 57) then Some (n - 48) else None.

Fixpoint number (acc : Z) (l : list ascii) : option Z :=
  match l with
  | [] => Some acc
  | c :: l' => match digit c with
               | Some d => number (10 * acc + d) l'
               | None => None
               end
  end.

Definition is_leap (y : Z) : bool :=
  ((y mod 4 =? 0) && negb (y mod 100 =? 0)) || (y mod 400 =? 0).

Definition days_in_month (y m : Z) : Z :=
  if m =? 2 then (if is_leap y then 29 else 28)
  else if (m =? 4) || (m =? 6) || (m =? 9) || (m =? 11) then 30 else 31.

(** Days between 1970-01-01 and the civil date [y-m-d]. *)
Definition days_from_civil (y m d : Z) : Z :=
  let y' := if m <=? 2 then y - 1 else y in
  let era := y' / 400 in
  let yoe := y' - era * 400 in
  let mp := if m <=? 2 then m + 9 else m - 3 in
  let doy := (153 * mp + 2) / 5 + d - 1 in
  let doe := yoe * 365 + yoe / 4 - yoe / 100 + doy in
  era * 146097 + doe - 719468.

Definition make_time (y mo d h mi s ms : Z) : option Z :=
  if (1 <=? mo) && (mo <=? 12) && (1 <=? d) && (d <=? days_in_month y mo)
     && (h <=? 23) && (mi <=? 59) && (s <=? 59)
  then Some ((((days_from_civil y mo d * 24 + h) * 60 + mi) * 60 + s) * 1000 + ms)
  else None.

Definition parse (l : list ascii) : option Z :=
  match l with
  | [y1; y2; y3; y4; "-"; m1; m2; "-"; d1; d2; "T";
     h1; h2; ":"; i1; i2; ":"; s1; s2; "Z"]%char =>
      y ← number 0 [y1; y2; y3; y4]; mo ← number 0 [m1; m2];
      d ← number 0 [d1; d2]; h ← number 0 [h1; h2];
      mi ← number 0 [i1; i2]; s ← number 0 [s1; s2];
      make_time y mo d h mi s 0
  | [y1; y2; y3; y4; "-"; m1; m2; "-"; d1; d2; "T";
     h1; h2; ":"; i1; i2; ":"; s1; s2; "."; f1; f2; f3; "Z"]%char =>
      y ← number 0 [y1; y2; y3; y4]; mo ← number 0 [m1; m2];
      d ← number 0 [d1; d2]; h ← number 0 [h1; h2];
      mi ← number 0 [i1; i2]; s ← number 0 [s1; s2];
      ms ← number 0 [f1; f2; f3];
      make_time y mo d h mi s ms
  | _ => None
  end.

Definition getTime (s : string) : option Z := parse (list_ascii_of_string s).

End JsDate.

(** ** Tree builder ([src/utils/TreeBuilder.ts]) *)

Section TreeBuilder.
(** [getTime s] is [new Date(s).getTime()]; [None] is [NaN]. *)
Variable getTime : string -> option Z.

(** [new Date(a.createdAt).getTime() - new Date(b.createdAt).getTime()] *)
Definition time_diff (ta tb : option Z) : option Z :=
  match ta, tb with
  | Some x, Some y => Some (x - y)
  | _, _ => None
  end.

Definition by_createdAt (a b : Comment) : option Z :=
  time_diff (getTime (createdAt a)) (getTime (createdAt b)).

(** The same comparator on node references: the fields are read
    through the heap. *)
Definition node_time (h : gmap string NodeObj) (k : string) : option Z :=
  n ← h !! k; getTime (createdAt (obj_comment n)).

Definition node_cmp (h : gmap string NodeObj) (a b : string) : option Z :=
  time_diff (node_time h a) (node_time h b).

(** First [forEach]: [map.set(comment.id, {...comment, children: [], depth: 0})]. *)
Definition index_step (m : gmap string NodeObj) (comment : Comment)
  : gmap string NodeObj :=
  <[id comment := mkNodeObj comment [] 0]> m.

(** Second [forEach]: link [node] under its parent or push it to [roots]. *)
Definition link_step (st : gmap string NodeObj * list string) (comment : Comment)
  : gmap string NodeObj * list string :=
  let '(m, roots) := st in
  match parentId comment with
  | None => (m, roots ++ [id comment])
  | Some pid =>
      match m !! pid with
      | Some parent =>
          let m1 := alter (fun node => set_depth node (obj_depth parent + 1)%nat)
                          (id comment) m in
          (alter (push_child (id comment)) pid m1, roots)
      | None => (m, roots ++ [id comment])
      end
  end.

(** [xs.forEach(f)] for an [f] that updates the heap and may fail to
    return. *)
Fixpoint forEach (f : gmap string NodeObj -> string -> option (gmap string NodeObj))
    (xs : list string) (h : gmap string NodeObj) : option (gmap string NodeObj) :=
  match xs with
  | [] => Some h
  | x :: xs' => h' ← f h x; forEach f xs' h'
  end.

(** [sortChildren]: sort [node.children] in place, then recurse into
    every child.  The recursion follows heap references, so it is
    bounded by [fuel]; [None] means the call stack was exhausted. *)
Fixpoint sortChildren (fuel : nat) (h : gmap string NodeObj) (k : string)
  : option (gmap string NodeObj) :=
  match fuel with
  | O => None
  | S fuel' =>
      node ← h !! k;
      let sorted := js_sort (node_cmp h) (obj_children node) in
      forEach (sortChildren fuel') sorted (<[k := set_children node sorted]> h)
  end.

(** Reading the returned forest out of the heap: the node at [k] with
    its [children] followed recursively.  [None] when a reference
    chain is longer than [fuel] (a cycle in the heap). *)
Fixpoint materialize (fuel : nat) (h : gmap string NodeObj) (k : string)
  : option CommentNode :=
  match fuel with
  | O => None
  | S fuel' =>
      node ← h !! k;
      kids ← mapM (materialize fuel' h) (obj_children node);
      Some (mkNode (obj_comment node) kids (obj_depth node))
  end.

Definition buildTree (comments : list Comment) : option (list CommentNode) :=
  let map0 := foldl index_step ∅ comments in
  let '(map1, roots) := foldl link_step (map0, []) comments in
  let fuel := S (length comments) in
  map2 ← forEach (sortChildren fuel) roots map1;
  mapM (materialize fuel map2) (js_sort (node_cmp map2) roots).

End TreeBuilder.

(** [flattenTree]: [traverse] pushes the node without [children] and
    [depth], then visits the children. *)
Fixpoint flatten_traverse (node : CommentNode) (result : list Comment) : list Comment :=
  match node with
  | mkNode comment kids _ =>
      foldl (fun r child => flatten_traverse child r) (result ++ [comment]) kids
  end.

Definition flattenTree (nodes : list CommentNode) : list Comment :=
  foldl (fun r node => flatten_traverse node r) [] nodes.

(** [getMaxDepth] *)
Fixpoint maxDepth_traverse (node : CommentNode) (maxDepth : nat) : nat :=
  match node with
  | mkNode _ kids d =>
      foldl (fun m child => maxDepth_traverse child m) (Nat.max maxDepth d) kids
  end.

Definition getMaxDepth (nodes : list CommentNode) : nat :=
  match nodes with
  | [] => 0%nat
  | _ => foldl (fun m node => maxDepth_traverse node m) 0%nat nodes
  end.

(** [countNodes] *)
Fixpoint count_traverse (node : CommentNode) (count : nat) : nat :=
  match node with
  | mkNode _ kids _ =>
      foldl (fun c child => count_traverse child c) (S count) kids
  end.

Definition countNodes (nodes : list CommentNode) : nat :=
  foldl (fun c node => count_traverse node c) 0%nat nodes.

(** ** Record store ([src/services/CommentService.ts]) *)

(** The values the program reads from its environment at one call. *)
Record Env := mkEnv {
  date_now : string;      (* the text of [Date.now()] *)
  math_random : string;   (* the text of [Math.random()] *)
  random_base36 : string; (* [Math.random().toString(36)] *)
  iso_now : string        (* [new Date().toISOString()] *)
}.

Module CommentService.

(** [localStorage.getItem(STORAGE_KEY)], JSON-decoded: [None] when the
    key was never written.  The model is the browser side
    ([typeof window !== 'undefined']). *)
Definition Storage := option (list Comment).

(** [getInitialData()] *)
Definition getInitialData : list Comment :=
  [ mkComment "1" None
      "This is the root comment of our discussion thread. It demonstrates how we can build infinitely nested conversations."
      "Alice" "2024-01-10T10:00:00Z" None;
    mkComment "2" (Some "1")
      "Great point! I have a follow-up question about the implementation details..."
      "Bob" "2024-01-10T10:05:00Z" None;
    mkComment "3" (Some "2")
      "Let me answer that. The key is using a recursive component structure."
      "Charlie" "2024-01-10T10:10:00Z" None;
    mkComment "4" (Some "3")
      "Thanks for clarifying! This makes a lot of sense now."
      "Bob" "2024-01-10T10:15:00Z" None;
    mkComment "5" (Some "4")
      "This is getting deep! We're at level 4 now."
      "David" "2024-01-10T10:20:00Z" None;
    mkComment "6" (Some "1")
      "Another top-level reply here, starting a different branch of the conversation."
      "Eve" "2024-01-10T10:25:00Z" None;
    mkComment "7" (Some "6")
      "Nested under Eve's comment, this demonstrates parallel conversation threads."
      "Frank" "2024-01-10T10:30:00Z" None ].

(** [getComments()]: the stored collection, seeding the sample data on
    first use.  Returns the collection and the storage afterwards. *)
Definition getComments (s : Storage) : list Comment * Storage :=
  match s with
  | Some stored => (stored, s)
  | None => (getInitialData, Some getInitialData)
  end.

(** [addComment(comment)] with [comment : Omit<Comment, 'id' | 'createdAt'>]:
    the spread keeps the caller's fields, [id] and [createdAt] are
    assigned here. *)
Definition addComment (env : Env) (comment_parentId : option string)
    (comment_content comment_author : string) (comment_optimistic : option bool)
    (s : Storage) : Comment * Storage :=
  let '(comments, _) := getComments s in
  let newComment :=
    mkComment
      (String.append "comment_"
         (String.append (date_now env)
            (String.append "_" (substring 2 9 (random_base36 env)))))
      comment_parentId comment_content comment_author
      (iso_now env) comment_optimistic in
  (newComment, Some (comments ++ [newComment])).

(** [findAllChildIds]: the recursion is bounded by [fuel]; [None]
    means it did not return. *)
Fixpoint findAllChildIds (fuel : nat) (comments : list Comment) (parent : string)
  : option (list string) :=
  match fuel with
  | O => None
  | S fuel' =>
      let children :=
        List.filter (fun c => bool_decide (parentId c = Some parent)) comments in
      let childIds := List.map id children in
      grandchildIds ← mapM (fun c => findAllChildIds fuel' comments (id c)) children;
      Some (childIds ++ concat grandchildIds)
  end.

(** [deleteComment(id)] *)
Definition deleteComment (target : string) (s : Storage) : option Storage :=
  let '(comments, _) := getComments s in
  childIds ← findAllChildIds (S (length comments)) comments target;
  let idsToDelete := target :: childIds in
  Some (Some (List.filter
                (fun c => negb (bool_decide (id c ∈ idsToDelete))) comments)).

(** [clearAll()] *)
Definition clearAll (s : Storage) : Storage := None.

End CommentService.

(** ** Mutation coordinator ([src/components/DiscussionThread.tsx]) *)

Module DiscussionThread.

(** Requests sent to the record store. *)
Inductive StoreCall :=
| CallAdd (parentId : string) (content author : string)
| CallDelete (target : string).

(** The component state [comments], with the store calls issued and
    the [alert]s shown so far. *)
Record State := mkState {
  comments : list Comment;
  calls : list StoreCall;
  alerts : list string
}.

(** [setComments(prev => f(prev))] *)
Definition setComments (f : list Comment -> list Comment) (st : State) : State :=
  mkState (f (comments st)) (calls st) (alerts st).
Definition issue (c : StoreCall) (st : State) : State :=
  mkState (comments st) (calls st ++ [c]) (alerts st).
Definition alert (msg : string) (st : State) : State :=
  mkState (comments st) (calls st) (alerts st ++ [msg]).

(** What runs after the [await]: it receives the store's outcome and
    the state current at that time. *)
Definition Continuation (R : Type) := option R -> State -> State.

Definition optimisticComment (env : Env) (parent content author : string) : Comment :=
  mkComment
    (String.append "temp_"
       (String.append (date_now env) (String.append "_" (math_random env))))
    (Some parent) content author (iso_now env) (Some true).

(** [handleReply]: the synchronous part returns the state with the
    optimistic comment appended and the request issued; the
    continuation is the [try]/[catch] after the [await] ([Some] is
    the store's comment, [None] a rejection). *)
Definition handleReply (env : Env) (parent content author : string) (st : State)
  : State * Continuation Comment :=
  let optimisticComment := optimisticComment env parent content author in
  let st1 := setComments (fun prev => prev ++ [optimisticComment]) st in
  let st2 := issue (CallAdd parent content author) st1 in
  (st2,
   fun outcome cur =>
     match outcome with
     | Some serverComment =>
         setComments
           (fun prev =>
              List.map (fun c => if bool_decide (id c = id optimisticComment)
                                 then serverComment else c) prev) cur
     | None =>
         alert "Failed to post comment. Please try again."
           (setComments
              (fun prev =>
                 List.filter
                   (fun c => negb (bool_decide (id c = id optimisticComment))) prev)
              cur)
     end).

(** [comments.find(x => x.id === current.parentId)] *)
Definition find_parent (comments : list Comment) (current : Comment) : option Comment :=
  List.find (fun x => bool_decide (Some (id x) = parentId current)) comments.

(** The [while (current)] loop of the filter callback in
    [handleDelete]; [None] means the loop is still running when the
    fuel is used up. *)
Fixpoint reaches (fuel : nat) (comments : list Comment) (target : string)
    (current : Comment) : option bool :=
  match fuel with
  | O => None
  | S fuel' =>
      if bool_decide (id current = target) then Some true
      else match find_parent comments current with
           | Some next => reaches fuel' comments target next
           | None => Some false
           end
  end.

(** [comments.filter(c => ...)] with a callback that may not return. *)
Fixpoint filterM (f : Comment -> option bool) (l : list Comment)
  : option (list Comment) :=
  match l with
  | [] => Some []
  | c :: l' =>
      b ← f c; rest ← filterM f l';
      Some (if (b : bool) then c :: rest else rest)
  end.

Definition deletedComments (comments : list Comment) (target : string)
  : option (list Comment) :=
  filterM (reaches (S (length comments)) comments target) comments.

(** [handleDelete]: [confirmed] is the answer of [confirm(...)],
    [snapshot] the [comments] value captured by the callback.  The
    outer [None] means the closure computation does not return; the
    inner [None] that the user cancelled.  [includes] compares object
    references; records of a collection with unique ids are the same
    object exactly when they are equal. *)
Definition handleDelete (confirmed : bool) (snapshot : list Comment)
    (target : string) (st : State)
  : option (State * option (list Comment * Continuation unit)) :=
  if negb confirmed then Some (st, None)
  else
    deletedComments ← deletedComments snapshot target;
    let st1 :=
      setComments
        (fun prev =>
           List.filter (fun c => negb (bool_decide (c ∈ deletedComments))) prev)
        st in
    let st2 := issue (CallDelete target) st1 in
    Some (st2,
          Some (deletedComments,
                fun (outcome : option unit) (cur : State) =>
                  match outcome with
                  | Some _ => cur
                  | None =>
                      alert "Failed to delete comment. Please try again."
                        (setComments (fun prev => prev ++ deletedComments) cur)
                  end)).

End DiscussionThread.

(** ** Presentation adapter ([CommentItem]) *)

Module CommentItem.

(** White space removed by [String.prototype.trim], among the code
    units below 256: TAB, LF, VT, FF, CR, SP and NBSP. *)
Definition is_white_space (c : ascii) : bool :=
  let n := nat_of_ascii c in
  bool_decide (n = 9 \/ n = 10 \/ n = 11 \/ n = 12 \/ n = 13 \/ n = 32 \/ n = 160)%nat.

Fixpoint trim_start (l : list ascii) : list ascii :=
  match l with
  | c :: l' => if is_white_space c then trim_start l' else l
  | [] => []
  end.

Definition trim (s : string) : string :=
  string_of_list_ascii
    (rev (trim_start (rev (trim_start (list_ascii_of_string s))))).

(** A string is truthy when it is not empty. *)
Definition truthy (s : string) : bool := negb (bool_decide (s = "")).

Record Form := mkForm {
  isReplying : bool;
  replyContent : string;
  replyAuthor : string
}.

(** [handleSubmitReply], for a node with id [node_id] and the parent's
    [onReply] acting on a state of type [T]. *)
Definition handleSubmitReply {T : Type} (onReply : string -> string -> string -> T -> T)
    (node_id : string) (form : Form) (st : T) : Form * T :=
  if truthy (trim (replyContent form)) && truthy (trim (replyAuthor form))
  then (mkForm false "" "",
        onReply node_id (replyContent form) (replyAuthor form) st)
  else (form, st).

End CommentItem.

(** ** The page ([DiscussionThread], the rest of the component) *)

Module Page.

(** The state variables [loading] and [error]. *)
Record Status := mkStatus {
  loading : bool;
  error : option string
}.

(** The state of the first render. *)
Definition initial : DiscussionThread.State * Status :=
  (DiscussionThread.mkState [] [] [], mkStatus true None).

(** The effect that loads the comments, once [getComments()] has
    settled: with the stored collection, or rejected ([None]). *)
Definition loaded (outcome : option (list Comment))
    (page : DiscussionThread.State * Status) : DiscussionThread.State * Status :=
  match outcome with
  | Some data =>
      (DiscussionThread.setComments (fun _ => data) page.1,
       mkStatus false (error page.2))
  | None => (page.1, mkStatus false (Some "Failed to load comments"))
  end.

(** [stats] *)
Record Stats := mkStats {
  total : nat;
  maxDepth : nat
}.

(** What the component returns. *)
Inductive Screen :=
| LoadingScreen
| ErrorScreen (error : string)
| EmptyThread (stats : Stats)
| Thread (stats : Stats) (commentTree : list CommentNode).

(** One render: the memoised [commentTree] and [stats] are computed
    first, whatever is shown; [None] when [buildTree] does not return. *)
Definition render (getTime : string -> option Z)
    (page : DiscussionThread.State * Status) : option Screen :=
  commentTree ← buildTree getTime (DiscussionThread.comments page.1);
  let stats :=
    mkStats (length (DiscussionThread.comments page.1)) (getMaxDepth commentTree) in
  let thread :=
    match commentTree with
    | [] => EmptyThread stats
    | _ => Thread stats commentTree
    end in
  if loading page.2 then Some LoadingScreen
  else match error page.2 with
       | Some e => if CommentItem.truthy e then Some (ErrorScreen e) else Some thread
       | None => Some thread
       end.

End Page.

(** * Vocabulary of the properties *)

(** ** Forests *)

(** The comments of a subtree in pre-order. *)
Fixpoint node_list (n : CommentNode) : list Comment :=
  match n with
  | mkNode c kids _ => c :: flat_map node_list kids
  end.

(** The nodes of a subtree in pre-order. *)
Fixpoint subnodes (n : CommentNode) : list CommentNode :=
  match n with
  | mkNode _ kids _ => n :: flat_map subnodes kids
  end.

(** Every node of the subtree of [n] carries its distance from the
    root as [depth], [n] itself being [lvl] links below a root. *)
Fixpoint depth_is_distance (lvl : nat) (n : CommentNode) : bool :=
  match n with
  | mkNode _ kids d => Nat.eqb d lvl && forallb (depth_is_distance (S lvl)) kids
  end.

(** ** Flat collections *)

Definition parentIs (k : string) (c : Comment) : bool :=
  bool_decide (parentId c = Some k).

(** [c] goes to [roots]: it has no parent, or its parent is not a key
    of the map. *)
Definition absent_parent (m : gmap string NodeObj) (c : Comment) : bool :=
  match parentId c with
  | None => true
  | Some pid => bool_decide (m !! pid = None)
  end.

Definition is_root (C : list Comment) (c : Comment) : bool :=
  match parentId c with
  | None => true
  | Some pid => negb (bool_decide (pid ∈ List.map id C))
  end.

Definition unique_ids (C : list Comment) : bool :=
  bool_decide (NoDup (List.map id C)).

(** The number of parent links followed from [c] until a comment
    without a parent in [C] is reached; [None] when [fuel] links do not
    suffice. *)
Fixpoint hops (fuel : nat) (C : list Comment) (c : Comment) : option nat :=
  match fuel with
  | O => None
  | S fuel' =>
      match DiscussionThread.find_parent C c with
      | None => Some 0%nat
      | Some p => S <$> hops fuel' C p
      end
  end.

(** No comment is its own ancestor: every parent chain of [C] ends. *)
Definition acyclic (C : list Comment) : bool :=
  forallb (fun c => bool_decide (is_Some (hops (length C) C c))) C.

(** The invariants of the data model: unique ids, no cycles. *)
Definition well_formed (C : list Comment) : bool := unique_ids C && acyclic C.

Definition level (C : list Comment) (c : Comment) : nat :=
  default 0%nat (hops (length C) C c).

(** [a] is an ancestor of [c]: it is reached from [c] by one or more
    parent links. *)
Inductive ancestor (C : list Comment) : Comment -> Comment -> Prop :=
| ancestor_parent p c :
    DiscussionThread.find_parent C c = Some p -> ancestor C p c
| ancestor_step a p c :
    ancestor C a p -> DiscussionThread.find_parent C c = Some p -> ancestor C a c.

(** The first [fuel] ancestors of [c], nearest first. *)
Fixpoint ancestors (fuel : nat) (C : list Comment) (c : Comment) : list Comment :=
  match fuel with
  | O => []
  | S fuel' =>
      match DiscussionThread.find_parent C c with
      | None => []
      | Some p => p :: ancestors fuel' C p
      end
  end.

(** Every comment of [l] whose parent is in the collection stands after
    it; [seen] are the ids of the comments before [l]. *)
Fixpoint parents_first_from (all_ids seen : list string) (l : list Comment) : bool :=
  match l with
  | [] => true
  | c :: l' =>
      match parentId c with
      | None => true
      | Some pid => bool_decide (pid ∈ seen) || negb (bool_decide (pid ∈ all_ids))
      end
      && parents_first_from all_ids (seen ++ [id c]) l'
  end.

Definition parents_first (C : list Comment) : bool :=
  parents_first_from (List.map id C) [] C.

(** [a] was created no later than [b], both timestamps being readable. *)
Definition time_le (getTime : string -> option Z) (a b : Comment) : Prop :=
  exists x y,
    getTime (createdAt a) = Some x /\ getTime (createdAt b) = Some y /\ x <= y.

(** Every [createdAt] of [C] is a readable timestamp. *)
Definition parseable (getTime : string -> option Z) (C : list Comment) : bool :=
  forallb (fun c => bool_decide (is_Some (getTime (createdAt c)))) C.

(** The comments whose timestamp reads as [t]. *)
Definition has_time (getTime : string -> option Z) (t : option Z) (c : Comment)
  : bool :=
  bool_decide (getTime (createdAt c) = t).

(** ** The heap of [buildTree] *)

(** The heap and the roots after the two linking passes. *)
Definition linked (C : list Comment) : gmap string NodeObj * list string :=
  foldl link_step (foldl index_step ∅ C, []) C.

(** The [depth] field a node carries when [buildTree] returns. *)
Definition link_depth (C : list Comment) (k : string) : nat :=
  from_option obj_depth 0%nat ((linked C).1 !! k).

(** No element is followed by a strictly smaller one. *)
Definition not_after {A : Type} (cmp : A -> A -> option Z) (a b : A) : Prop :=
  cmp_neg cmp b a = false.

Section SortedHeap.
Variable getTime : string -> option Z.

(** The heap after the linking passes. *)
Variable h0 : gmap string NodeObj.

Definition sort_obj (n : NodeObj) : NodeObj :=
  set_children n (js_sort (node_cmp getTime h0) (obj_children n)).

(** The heap in which every [children] array has been sorted. *)
Definition sorted_heap : gmap string NodeObj := sort_obj <$> h0.

(** A heap met during the sorting pass: some [children] arrays are
    sorted, the others are as the linking passes left them. *)
Definition partly_sorted (h : gmap string NodeObj) : Prop :=
  forall k, h !! k = h0 !! k \/ h !! k = sort_obj <$> h0 !! k.

Definition keeps_sorted (h h' : gmap string NodeObj) : Prop :=
  forall k, h !! k = sort_obj <$> h0 !! k -> h' !! k = sort_obj <$> h0 !! k.

(** One [sortChildren] call, seen from the fully sorted heap. *)
Definition sort_call_ok (fuel : nat) : Prop :=
  forall h k t,
    partly_sorted h ->
    materialize fuel sorted_heap k = Some t ->
    exists h',
      sortChildren getTime fuel h k = Some h' /\
      partly_sorted h' /\ keeps_sorted h h' /\
      forall h'', partly_sorted h'' -> keeps_sorted h' h'' ->
                  materialize fuel h'' k = Some t.

End SortedHeap.

(** ** The forest of a well-formed collection *)

Section Forest.
Variable getTime : string -> option Z.
Variable C : list Comment.

(** The children of [c], in the order [buildTree] gives them. *)
Definition kids (c : Comment) : list Comment :=
  js_sort (by_createdAt getTime) (List.filter (parentIs (id c)) C).

(** The roots, in the order [buildTree] gives them. *)
Definition roots_of : list Comment :=
  js_sort (by_createdAt getTime) (List.filter (is_root C) C).

(** The subtree of [c], cut below [fuel] generations. *)
Fixpoint tree (fuel : nat) (c : Comment) : CommentNode :=
  mkNode c
    (match fuel with
     | O => []
     | S fuel' => List.map (tree fuel') (kids c)
     end)
    (link_depth C (id c)).

(** The comments of [tree fuel c] in pre-order. *)
Definition pre (fuel : nat) (c : Comment) : list Comment :=
  node_list (tree fuel c).

(** The generations below the comments of [N], one after the other. *)
Fixpoint generations (fuel : nat) (N : list Comment) : list Comment :=
  match fuel with
  | O => N
  | S fuel' => N ++ generations fuel' (flat_map kids N)
  end.

Definition at_level (n : nat) (c : Comment) : bool := Nat.eqb (level C c) n.

Definition in_levels (n m : nat) (c : Comment) : bool :=
  Nat.leb n (level C c) && Nat.leb (level C c) m.

End Forest.

(** ** The closure of a delete *)

(** The closure of a delete as the specification words it: the target,
    its direct replies, their replies, and so on. *)
Inductive in_closure (C : list Comment) (target : string) : Comment -> Prop :=
| closure_target c :
    In c C -> id c = target -> in_closure C target c
| closure_reply p c :
    in_closure C target p -> In c C -> parentId c = Some (id p) ->
    in_closure C target c.

(** The members of the closure, as the loop of [handleDelete] finds them. *)
Definition in_subtree (C : list Comment) (target : string) (c : Comment) : bool :=
  match DiscussionThread.reaches (S (length C)) C target c with
  | Some true => true
  | _ => false
  end.

(** A rolled-back delete gives every record the position it had in
    the forest before the delete: the pre-order listings agree. *)
Definition rollback_restores_positions (getTime : string -> option Z)
    (C : list Comment) (target : string) : Prop :=
  forall st1 deleted settle forest forest',
    DiscussionThread.handleDelete true C target (DiscussionThread.mkState C [] [])
    = Some (st1, Some (deleted, settle)) ->
    buildTree getTime C = Some forest ->
    buildTree getTime (DiscussionThread.comments (settle None st1)) = Some forest' ->
    flattenTree forest' = flattenTree forest.

(** ** Sibling order by instant *)

(** The instant of a comment, 0 when its timestamp cannot be read. *)
Definition time_key (getTime : string -> option Z) (c : Comment) : Z :=
  default 0 (getTime (createdAt c)).

(** No two comments of [C] were created at the same instant. *)
Definition distinct_times (getTime : string -> option Z) (C : list Comment) : bool :=
  bool_decide (NoDup (List.map (fun c => getTime (createdAt c)) C)).

(** The comparator [cmp] orders the elements of [l] by [key]. *)
Definition keyed {A : Type} (cmp : A -> A -> option Z) (key : A -> Z) (l : list A)
  : Prop :=
  forall a b, In a l -> In b l -> cmp_neg cmp a b = (key a <? key b).

Definition key_le {A : Type} (key : A -> Z) (a b : A) : Prop := key a <= key b.

(** The node without its [depth] fields. *)
Fixpoint erase_depth (n : CommentNode) : CommentNode :=
  match n with
  | mkNode c kids _ => mkNode c (List.map erase_depth kids) 0
  end.

(** An orderly collection: well-formed, parents first; its forest then
    carries at every node the distance from the root as [depth]. *)
Definition orderly (getTime : string -> option Z) (l : list Comment) : Prop :=
  well_formed l = true /\ parents_first l = true /\
  exists forest,
    buildTree getTime l = Some forest /\
    forallb (depth_is_distance 0) forest = true.

(** The string holds a character that [trim] keeps. *)
Definition has_text (s : string) : bool :=
  existsb (fun c => negb (CommentItem.is_white_space c)) (list_ascii_of_string s).

(** What the store's cascade reaches from the id [target]: the comment
    with that id, the comments that name it as their parent, and their
    replies, and so on. *)
Inductive in_cascade (C : list Comment) (target : string) : Comment -> Prop :=
| cascade_target c :
    In c C -> id c = target -> in_cascade C target c
| cascade_child c :
    In c C -> parentId c = Some target -> in_cascade C target c
| cascade_reply p c :
    in_cascade C target p -> In c C -> parentId c = Some (id p) ->
    in_cascade C target c.

(** [cyc] is made of parent cycles of [C]: each of its comments is in
    [C], has its parent in [cyc] and is the parent of a comment of
    [cyc]. *)
Definition parent_cycle (C cyc : list Comment) : bool :=
  forallb
    (fun x =>
       bool_decide (x ∈ C)
       && match DiscussionThread.find_parent C x with
          | Some p => bool_decide (p ∈ cyc)
          | None => false
          end
       && existsb (fun k => bool_decide (parentId k = Some (id x))) cyc)
    cyc.

(** A comment may stand behind [seen] when its parent is in [seen] or
    not in the collection. *)
Definition placed (all seen : list string) (c : Comment) : Prop :=
  forall pid, parentId c = Some pid -> In pid seen \/ ~ In pid all.

(** The chain of parents of [c] ends: [c] is not on a parent cycle and
    not below one. *)
Definition grounded (C : list Comment) (c : Comment) : bool :=
  bool_decide (is_Some (hops (length C) C c)).

(** The grounded comments of level [n]. *)
Definition grounded_at (C : list Comment) (n : nat) (c : Comment) : bool :=
  grounded C c && Nat.eqb (level C c) n.

Definition grounded_in (C : list Comment) (n m : nat) (c : Comment) : bool :=
  grounded C c && Nat.leb n (level C c) && Nat.leb (level C c) m.

(** [a] is sorted strictly before [b]: both timestamps are readable and
    the one of [a] is the earlier. *)
Definition sorts_before (getTime : string -> option Z) (a b : Comment) : bool :=
  cmp_neg (by_createdAt getTime) a b.

(** ** Sample collections *)

Module Samples.

(** A reply and an orphan next to the seeded thread. *)
Definition orphaned : list Comment :=
  CommentService.getInitialData ++
  [ mkComment "8" (Some "2") "A late reply." "Grace" "2024-01-10T10:07:00Z" None;
    mkComment "9" (Some "404") "My parent is gone." "Heidi"
      "2024-01-10T09:00:00Z" None ].

(** Three generations listed youngest first. *)
Definition youngest_first : list Comment :=
  [ mkComment "c" (Some "b") "grandchild" "Carol" "2024-03-01T12:02:00Z" None;
    mkComment "b" (Some "a") "child" "Bob" "2024-03-01T12:01:00Z" None;
    mkComment "a" None "root" "Alice" "2024-03-01T12:00:00Z" None ].

(** Two replies posted in the same millisecond. *)
Definition same_instant : list Comment :=
  [ mkComment "p" None "root" "Alice" "2024-03-01T12:00:00.000Z" None;
    mkComment "x" (Some "p") "first reply" "Bob"
      "2024-03-01T12:00:01.500Z" None;
    mkComment "y" (Some "p") "second reply" "Carol"
      "2024-03-01T12:00:01.500Z" None;
    mkComment "z" (Some "p") "early-stamped reply" "Dan"
      "2024-03-01T12:00:01.000Z" None ].

(** The environment of a reply and of the store call that answers it. *)
Definition reply_env : Env :=
  mkEnv "1709294400000" "0.7351" "0.qgp3xk1w8f" "2024-03-01T12:00:00.000Z".
Definition store_env : Env :=
  mkEnv "1709294400512" "0.2210" "0.4fzyo82mvyr" "2024-03-01T12:00:00.512Z".

(** A comment confirmed by the store while another reply is pending. *)
Definition confirmed_meanwhile : Comment :=
  mkComment "comment_1709294400100_k3j2h1g0f" (Some "1") "Me too." "Ivan"
    "2024-03-01T12:00:00.100Z" None.


(** A thread next to two comments that name each other as parent. *)
Definition looped : list Comment :=
  [ mkComment "a" None "root" "Alice" "2024-03-01T12:00:00Z" None;
    mkComment "x" (Some "y") "chicken" "Bob" "2024-03-01T12:01:00Z" None;
    mkComment "y" (Some "x") "egg" "Carol" "2024-03-01T12:02:00Z" None;
    mkComment "z" (Some "y") "below the loop" "Dan" "2024-03-01T12:03:00Z" None ].


(** The two comments of [looped] that form the cycle. *)
Definition loop : list Comment :=
  [ mkComment "x" (Some "y") "chicken" "Bob" "2024-03-01T12:01:00Z" None;
    mkComment "y" (Some "x") "egg" "Carol" "2024-03-01T12:02:00Z" None ].

End Samples.

(** * Properties *)

(** ** Facts about lists *)

Section ListFacts.
Context {A B : Type}.

Lemma filter_all (P : A -> bool) (l : list A) :
  (forall x, In x l -> P x = true) -> List.filter P l = l.
Proof.
  induction l as [|a l IH]; simpl; intros H; [reflexivity|].
  rewrite (H a (or_introl eq_refl)). f_equal. apply IH. intros; apply H; now right.
Qed.

Lemma filter_none (P : A -> bool) (l : list A) :
  (forall x, In x l -> P x = false) -> List.filter P l = [].
Proof.
  induction l as [|a l IH]; simpl; intros H; [reflexivity|].
  rewrite (H a (or_introl eq_refl)). apply IH. intros; apply H; now right.
Qed.

(** Two disjoint filters of one list make up the filter of their union. *)
Lemma filter_union_perm (P Q : A -> bool) (l : list A) :
  (forall x, In x l -> P x = true -> Q x = false) ->
  Permutation (List.filter P l ++ List.filter Q l)
              (List.filter (fun x => P x || Q x) l).
Proof.
  induction l as [|a l IH]; simpl; intros H; [constructor|].
  assert (IH' := IH (fun x Hx => H x (or_intror Hx))).
  destruct (P a) eqn:Pa; simpl.
  - rewrite (H a (or_introl eq_refl) Pa). now constructor.
  - destruct (Q a); simpl; [|exact IH'].
    etransitivity; [symmetry; apply Permutation_middle|]. now constructor.
Qed.

Lemma flat_map_perm_pointwise (f g : A -> list B) (l : list A) :
  (forall x, In x l -> Permutation (f x) (g x)) ->
  Permutation (flat_map f l) (flat_map g l).
Proof.
  induction l as [|a l IH]; simpl; intros H; [constructor|].
  apply Permutation_app; [apply H; now left|apply IH; intros; apply H; now right].
Qed.

Lemma flat_map_perm_arg (f : A -> list B) (l l' : list A) :
  Permutation l l' -> Permutation (flat_map f l) (flat_map f l').
Proof.
  induction 1; simpl.
  - constructor.
  - now apply Permutation_app_head.
  - rewrite !app_assoc. apply Permutation_app_tail, Permutation_app_comm.
  - etransitivity; eassumption.
Qed.
End ListFacts.

(** ** Facts about [js_sort] *)

Section JsSortFacts.
Context {A : Type} (cmp : A -> A -> option Z).

Lemma js_insert_perm x l : Permutation (js_insert cmp x l) (x :: l).
Proof.
  induction l as [|y l IH]; simpl; [reflexivity|].
  destruct (cmp_neg cmp y x); [|reflexivity].
  etransitivity; [apply perm_skip, IH|apply perm_swap].
Qed.

Lemma js_sort_perm l : Permutation (js_sort cmp l) l.
Proof.
  induction l as [|x l IH]; simpl; [constructor|].
  etransitivity; [apply js_insert_perm|now constructor].
Qed.

Lemma js_sort_In x l : In x (js_sort cmp l) <-> In x l.
Proof.
  split; apply Permutation_in; [|symmetry]; apply js_sort_perm.
Qed.

Hypothesis cmp_asym : forall a b, cmp_neg cmp a b = true -> cmp_neg cmp b a = false.

Lemma js_insert_sorted x l :
  Sorted (not_after cmp) l -> Sorted (not_after cmp) (js_insert cmp x l).
Proof.
  induction l as [|y l IH]; simpl; intros Hs.
  - repeat constructor.
  - inversion Hs as [|? ? Hs' Hd]; subst.
    destruct (cmp_neg cmp y x) eqn:E.
    + constructor; [now apply IH|].
      destruct l as [|z l]; simpl.
      * constructor. now apply cmp_asym.
      * destruct (cmp_neg cmp z x); constructor.
        -- now inversion Hd.
        -- now apply cmp_asym.
    + constructor; [assumption|]. now constructor.
Qed.

Lemma js_sort_sorted l : Sorted (not_after cmp) (js_sort cmp l).
Proof.
  induction l as [|x l IH]; simpl; [constructor|now apply js_insert_sorted].
Qed.

Lemma js_sort_fixpoint l : Sorted (not_after cmp) l -> js_sort cmp l = l.
Proof.
  induction l as [|x l IH]; simpl; intros Hs; [reflexivity|].
  inversion Hs as [|? ? Hs' Hd]; subst. rewrite (IH Hs').
  destruct l as [|y l]; simpl; [reflexivity|].
  inversion Hd as [|? ? E]; subst. unfold not_after in E. now rewrite E.
Qed.

(** Sorting twice is sorting once. *)
Lemma js_sort_idem l : js_sort cmp (js_sort cmp l) = js_sort cmp l.
Proof. apply js_sort_fixpoint, js_sort_sorted. Qed.

(** Stability: among the elements that share a key the comparator
    does not separate, the order of the input is kept. *)
Lemma js_sort_stable {K : Type} `{EqDecision K} (key : A -> K) (t : K) l :
  (forall a b, cmp_neg cmp a b = true -> key a <> key b) ->
  List.filter (fun x => bool_decide (key x = t)) (js_sort cmp l)
  = List.filter (fun x => bool_decide (key x = t)) l.
Proof.
  intros Hsep.
  assert (Hins : forall x l,
    List.filter (fun x => bool_decide (key x = t)) (js_insert cmp x l)
    = List.filter (fun x => bool_decide (key x = t)) (x :: l)).
  { intros x l0. induction l0 as [|y l0 IH]; [reflexivity|].
    simpl. destruct (cmp_neg cmp y x) eqn:E; [|reflexivity].
    simpl. simpl in IH. rewrite IH.
    destruct (bool_decide (key x = t)) eqn:Ex; [|reflexivity].
    destruct (bool_decide (key y = t)) eqn:Ey; [|reflexivity].
    apply bool_decide_eq_true in Ex, Ey. exfalso.
    apply (Hsep y x E). congruence. }
  induction l as [|x l IH]; [reflexivity|].
  change (js_sort cmp (x :: l)) with (js_insert cmp x (js_sort cmp l)).
  rewrite Hins. simpl. now rewrite IH.
Qed.
End JsSortFacts.

Lemma js_sort_ext {A : Type} (cmp1 cmp2 : A -> A -> option Z) (l : list A) :
  (forall a b, cmp1 a b = cmp2 a b) -> js_sort cmp1 l = js_sort cmp2 l.
Proof.
  intros H. induction l as [|x l IH]; simpl; [reflexivity|]. rewrite IH.
  generalize (js_sort cmp2 l). intros l0.
  induction l0 as [|y l0 IH0]; simpl; [reflexivity|].
  unfold cmp_neg. rewrite H, IH0. reflexivity.
Qed.

(** Sorting references through [f] is sorting the referents. *)
Lemma js_sort_map {A B : Type} (cmpA : A -> A -> option Z) (cmpB : B -> B -> option Z)
    (f : A -> B) (l : list A) :
  (forall a b, In a l -> In b l -> cmpB (f a) (f b) = cmpA a b) ->
  js_sort cmpB (List.map f l) = List.map f (js_sort cmpA l).
Proof.
  induction l as [|x l IH]; simpl; intros H; [reflexivity|].
  rewrite IH by (intros; apply H; now right).
  assert (Hsub : forall y, In y (js_sort cmpA l) -> In y l)
    by (intros y; apply js_sort_In).
  revert Hsub. generalize (js_sort cmpA l). intros l0 Hsub.
  induction l0 as [|y l0 IH0]; simpl; [reflexivity|].
  unfold cmp_neg.
  rewrite H; [|right; apply Hsub; now left|now left].
  destruct (cmpA y x) as [v|]; [destruct (v <? 0)|]; simpl; try reflexivity.
  f_equal. apply IH0. intros; apply Hsub; now right.
Qed.

(** ** The traversals, without their accumulators *)

Lemma CommentNode_nested_ind (P : CommentNode -> Prop) :
  (forall c kids d, Forall P kids -> P (mkNode c kids d)) -> forall n, P n.
Proof.
  intros H. fix IH 1. intros [c kids d]. apply H.
  induction kids as [|k kids IHk]; constructor; [apply IH|exact IHk].
Qed.

Lemma flatten_traverse_spec n : forall result,
  flatten_traverse n result = result ++ node_list n.
Proof.
  induction n as [c kids d IH] using CommentNode_nested_ind. intros result. simpl.
  assert (G : forall acc,
    foldl (fun r child => flatten_traverse child r) acc kids
    = acc ++ flat_map node_list kids).
  { induction IH as [|k kids Hk _ IHkids]; intros acc; simpl.
    - now rewrite app_nil_r.
    - rewrite Hk, IHkids. now rewrite <- app_assoc. }
  rewrite G. now rewrite <- app_assoc.
Qed.

Lemma flattenTree_spec nodes : flattenTree nodes = flat_map node_list nodes.
Proof.
  unfold flattenTree.
  assert (G : forall acc,
    foldl (fun r node => flatten_traverse node r) acc nodes
    = acc ++ flat_map node_list nodes).
  { induction nodes as [|n nodes IH]; intros acc; simpl.
    - now rewrite app_nil_r.
    - rewrite flatten_traverse_spec, IH. now rewrite <- app_assoc. }
  apply G.
Qed.

Lemma count_traverse_spec n : forall count,
  count_traverse n count = (count + length (node_list n))%nat.
Proof.
  induction n as [c kids d IH] using CommentNode_nested_ind. intros count. simpl.
  assert (G : forall acc,
    foldl (fun c child => count_traverse child c) acc kids
    = (acc + length (flat_map node_list kids))%nat).
  { induction IH as [|k kids Hk _ IHkids]; intros acc; simpl.
    - lia.
    - rewrite Hk, IHkids, length_app. lia. }
  rewrite G. lia.
Qed.

(** [countNodes] counts what [flattenTree] lists. *)
Lemma countNodes_flattenTree nodes : countNodes nodes = length (flattenTree nodes).
Proof.
  rewrite flattenTree_spec. unfold countNodes.
  assert (G : forall acc,
    foldl (fun c node => count_traverse node c) acc nodes
    = (acc + length (flat_map node_list nodes))%nat).
  { induction nodes as [|n nodes IH]; intros acc; simpl.
    - lia.
    - rewrite count_traverse_spec, IH, length_app. lia. }
  apply G.
Qed.

Lemma maxDepth_traverse_spec n : forall maxDepth,
  maxDepth_traverse n maxDepth
  = Nat.max maxDepth (list_max (List.map depth (subnodes n))).
Proof.
  induction n as [c kids d IH] using CommentNode_nested_ind. intros maxDepth.
  cbn [maxDepth_traverse subnodes List.map list_max foldr depth].
  assert (G : forall acc,
    foldl (fun m child => maxDepth_traverse child m) acc kids
    = Nat.max acc (list_max (List.map depth (flat_map subnodes kids)))).
  { induction IH as [|k kids Hk _ IHkids]; intros acc; cbn [foldl flat_map].
    - simpl. now rewrite Nat.max_0_r.
    - rewrite Hk, IHkids, map_app, list_max_app. now rewrite Nat.max_assoc. }
  rewrite G. now rewrite Nat.max_assoc.
Qed.

Lemma node_list_subnodes n : node_list n = List.map node_comment (subnodes n).
Proof.
  induction n as [c kids d IH] using CommentNode_nested_ind. simpl. f_equal.
  induction IH as [|k kids Hk _ IHkids]; simpl; [reflexivity|].
  now rewrite Hk, IHkids, map_app.
Qed.

(** ** The two linking passes of [buildTree] *)

(** Case analysis on every lookup of the heap [m] in the goal. *)
Ltac destruct_lookups m :=
  repeat match goal with
         | |- context [m !! ?x] => destruct (m !! x)
         end.

Lemma index_fold_other C : forall m k,
  ~ In k (List.map id C) -> foldl index_step m C !! k = m !! k.
Proof.
  induction C as [|a C IH]; intros m k Hk; simpl; [reflexivity|].
  simpl in Hk. rewrite IH by tauto. unfold index_step.
  apply lookup_insert_ne. tauto.
Qed.

Lemma index_fold_lookup C : forall m c,
  List.NoDup (List.map id C) -> In c C ->
  foldl index_step m C !! id c = Some (mkNodeObj c [] 0).
Proof.
  induction C as [|a C IH]; intros m c Hnd Hin; simpl; [destruct Hin|].
  simpl in Hnd. inversion Hnd as [|? ? Hna Hnd']; subst.
  destruct Hin as [->|Hin].
  - rewrite index_fold_other by assumption. apply lookup_insert_eq.
  - now apply IH.
Qed.

Lemma link_step_spec m roots c m' roots' :
  link_step (m, roots) c = (m', roots') ->
  (forall k, obj_comment <$> m' !! k = obj_comment <$> m !! k) /\
  (forall k, obj_children <$> m' !! k
             = (fun n => obj_children n ++ (if parentIs k c then [id c] else []))
                 <$> m !! k) /\
  roots' = roots ++ (if absent_parent m c then [id c] else []).
Proof.
  unfold link_step, absent_parent, parentIs.
  destruct (parentId c) as [pid|] eqn:Ep.
  - destruct (m !! pid) as [parent|] eqn:El; intros [= <- <-].
    + rewrite bool_decide_eq_false_2 by congruence. rewrite app_nil_r.
      split; [|split; [|reflexivity]]; intros k.
      * rewrite !lookup_alter. repeat case_decide; subst;
          destruct_lookups m;
          reflexivity.
      * case_bool_decide as Ek.
        -- injection Ek as <-. rewrite lookup_alter_eq, lookup_alter.
           case_decide as E1; [rewrite <- E1|];
             destruct_lookups m;
             reflexivity.
        -- rewrite lookup_alter_ne by congruence. rewrite lookup_alter.
           case_decide; subst;
             destruct_lookups m;
             simpl; rewrite ?app_nil_r; reflexivity.
    + rewrite bool_decide_eq_true_2 by reflexivity.
      split; [|split; [|reflexivity]]; intros k; [reflexivity|].
      case_bool_decide as Ek.
      * injection Ek as <-. now rewrite El.
      * destruct (m !! k) as [n|]; simpl; [|reflexivity]. now rewrite app_nil_r.
  - intros [= <- <-]. split; [|split; [|reflexivity]]; intros k; [reflexivity|].
    rewrite bool_decide_eq_false_2 by congruence.
    destruct (m !! k) as [n|]; simpl; [|reflexivity]. now rewrite app_nil_r.
Qed.

Lemma absent_parent_ext m m' c :
  (forall k, obj_comment <$> m' !! k = obj_comment <$> m !! k) ->
  absent_parent m' c = absent_parent m c.
Proof.
  intros H. unfold absent_parent. destruct (parentId c) as [pid|]; [|reflexivity].
  specialize (H pid). apply bool_decide_ext.
  destruct (m' !! pid), (m !! pid); simpl in H; split; congruence.
Qed.

Lemma link_fold_spec todo : forall m roots m' roots',
  foldl link_step (m, roots) todo = (m', roots') ->
  (forall k, obj_comment <$> m' !! k = obj_comment <$> m !! k) /\
  (forall k, obj_children <$> m' !! k
             = (fun n => obj_children n ++ List.map id (List.filter (parentIs k) todo))
                 <$> m !! k) /\
  roots' = roots ++ List.map id (List.filter (absent_parent m) todo).
Proof.
  induction todo as [|c todo IH]; intros m roots m' roots'.
  - simpl. intros [= <- <-]. split; [|split]; [reflexivity| |now rewrite app_nil_r].
    intros k. destruct (m !! k); simpl; [|reflexivity]. now rewrite app_nil_r.
  - intros E.
    change (foldl link_step (link_step (m, roots) c) todo = (m', roots')) in E.
    destruct (link_step (m, roots) c) as [m1 roots1] eqn:E1. simpl.
    apply link_step_spec in E1 as (Hc1 & Hk1 & ->).
    apply IH in E as (Hc & Hk & ->).
    split; [|split].
    + intros k. now rewrite Hc, Hc1.
    + intros k. specialize (Hk k). specialize (Hk1 k).
      destruct (m' !! k) as [n'|], (m1 !! k) as [n1|], (m !! k) as [n|];
        simpl in *; try congruence.
      injection Hk as ->. injection Hk1 as ->. f_equal.
      rewrite <- app_assoc. f_equal.
      destruct (parentIs k c); reflexivity.
    + rewrite <- app_assoc. f_equal.
      rewrite (filter_ext (absent_parent m1) (absent_parent m))
        by (intros; now apply absent_parent_ext).
      destruct (absent_parent m c); reflexivity.
Qed.

Lemma is_root_absent C c :
  List.NoDup (List.map id C) ->
  absent_parent (foldl index_step ∅ C) c = is_root C c.
Proof.
  intros Hnd. unfold absent_parent, is_root.
  destruct (parentId c) as [pid|]; [|reflexivity].
  destruct (decide (pid ∈ List.map id C)) as [Hin|Hout].
  - rewrite (bool_decide_eq_true_2 _ Hin). simpl.
    apply bool_decide_eq_false_2.
    apply list_elem_of_In, in_map_iff in Hin as (p & <- & Hp).
    now rewrite (index_fold_lookup C ∅ p Hnd Hp).
  - rewrite (bool_decide_eq_false_2 _ Hout). simpl.
    apply bool_decide_eq_true_2.
    rewrite index_fold_other; [apply lookup_empty|].
    now rewrite <- list_elem_of_In.
Qed.

Lemma linked_spec C :
  List.NoDup (List.map id C) ->
  (forall c, In c C ->
     (linked C).1 !! id c
     = Some (mkNodeObj c (List.map id (List.filter (parentIs (id c)) C))
                       (link_depth C (id c)))) /\
  (forall k, ~ In k (List.map id C) -> (linked C).1 !! k = None) /\
  (linked C).2 = List.map id (List.filter (is_root C) C).
Proof.
  intros Hnd. unfold link_depth.
  destruct (linked C) as [m roots] eqn:E. unfold linked in E.
  apply link_fold_spec in E as (Hc & Hk & ->). simpl.
  split; [|split].
  - intros c Hin. specialize (Hc (id c)). specialize (Hk (id c)).
    rewrite (index_fold_lookup C ∅ c Hnd Hin) in Hc, Hk.
    destruct (m !! id c) as [[c' ch d]|]; simpl in *; [|discriminate].
    congruence.
  - intros k Hout. specialize (Hc k).
    rewrite (index_fold_other C ∅ k Hout), lookup_empty in Hc.
    destruct (m !! k); [discriminate|reflexivity].
  - f_equal. apply filter_ext. intros c. now apply is_root_absent.
Qed.

(** ** The sorting pass of [buildTree] *)

Lemma time_diff_asym (ta tb : option Z) v w :
  time_diff ta tb = Some v -> v < 0 -> time_diff tb ta = Some w -> w < 0 -> False.
Proof.
  destruct ta, tb; simpl; try discriminate. intros [= <-] ? [= <-] ?. lia.
Qed.

Section SortPass.
Variable getTime : string -> option Z.

Lemma sortChildren_S fuel h k :
  sortChildren getTime (S fuel) h k
  = (node ← h !! k;
     let sorted := js_sort (node_cmp getTime h) (obj_children node) in
     forEach (sortChildren getTime fuel) sorted (<[k := set_children node sorted]> h)).
Proof. reflexivity. Qed.

Lemma materialize_S fuel h k :
  materialize (S fuel) h k
  = (node ← h !! k;
     kids ← mapM (materialize fuel h) (obj_children node);
     Some (mkNode (obj_comment node) kids (obj_depth node))).
Proof. reflexivity. Qed.

Lemma node_cmp_asym h a b :
  cmp_neg (node_cmp getTime h) a b = true ->
  cmp_neg (node_cmp getTime h) b a = false.
Proof.
  unfold cmp_neg, node_cmp.
  destruct (time_diff (node_time getTime h a) (node_time getTime h b)) as [v|] eqn:E1;
    [|discriminate].
  destruct (time_diff (node_time getTime h b) (node_time getTime h a)) as [w|] eqn:E2;
    [|reflexivity].
  intros Hv. apply Z.ltb_lt in Hv. apply Z.ltb_ge.
  destruct (Z.lt_ge_cases w 0) as [Hw|Hw]; [|lia].
  exfalso. eapply time_diff_asym; eassumption.
Qed.

(** The heap after the linking passes. *)
Variable h0 : gmap string NodeObj.

Lemma sort_obj_idem n :
  sort_obj getTime h0 (sort_obj getTime h0 n) = sort_obj getTime h0 n.
Proof.
  unfold sort_obj, set_children. simpl. f_equal.
  apply js_sort_idem. apply node_cmp_asym.
Qed.

Lemma partly_sorted_time h k :
  partly_sorted getTime h0 h -> node_time getTime h k = node_time getTime h0 k.
Proof.
  intros H. unfold node_time. destruct (H k) as [->| ->]; [reflexivity|].
  destruct (h0 !! k); reflexivity.
Qed.

Lemma partly_sorted_sort h l :
  partly_sorted getTime h0 h ->
  js_sort (node_cmp getTime h) l = js_sort (node_cmp getTime h0) l.
Proof.
  intros H. apply js_sort_ext. intros a b. unfold node_cmp.
  now rewrite (partly_sorted_time h a H), (partly_sorted_time h b H).
Qed.

Lemma partly_sorted_h0 : partly_sorted getTime h0 h0.
Proof. intros k. now left. Qed.

Lemma sorted_heap_lookup k :
  sorted_heap getTime h0 !! k = sort_obj getTime h0 <$> h0 !! k.
Proof. apply lookup_fmap. Qed.

Lemma partly_sorted_sorted_heap : partly_sorted getTime h0 (sorted_heap getTime h0).
Proof. intros k. right. apply sorted_heap_lookup. Qed.

Lemma keeps_sorted_trans h1 h2 h3 :
  keeps_sorted getTime h0 h1 h2 -> keeps_sorted getTime h0 h2 h3 ->
  keeps_sorted getTime h0 h1 h3.
Proof. intros H12 H23 k Hk. auto. Qed.

Lemma forEach_sort_ok fuel (IH : sort_call_ok getTime h0 fuel) :
  forall l h ts,
    partly_sorted getTime h0 h ->
    mapM (materialize fuel (sorted_heap getTime h0)) l = Some ts ->
    exists h',
      forEach (sortChildren getTime fuel) l h = Some h' /\
      partly_sorted getTime h0 h' /\ keeps_sorted getTime h0 h h' /\
      forall h'', partly_sorted getTime h0 h'' -> keeps_sorted getTime h0 h' h'' ->
                  mapM (materialize fuel h'') l = Some ts.
Proof.
  intros l h ts Hp Hm. apply mapM_Some in Hm. revert h Hp.
  induction Hm as [|k t l ts Hk Hm IHl]; intros h Hp.
  - exists h. simpl. split; [reflexivity|]. split; [assumption|].
    split; [now intros k|]. intros h'' _ _. reflexivity.
  - destruct (IH h k t Hp Hk) as (h1 & E1 & Hp1 & Hk1 & Hm1).
    destruct (IHl h1 Hp1) as (h2 & E2 & Hp2 & Hk2 & Hm2).
    exists h2. split; [simpl; rewrite E1; exact E2|].
    split; [assumption|]. split; [eapply keeps_sorted_trans; eassumption|].
    intros h'' Hp'' Hk''. apply mapM_Some. constructor.
    + apply Hm1; [assumption|]. eapply keeps_sorted_trans; eassumption.
    + apply mapM_Some. now apply Hm2.
Qed.

Lemma sort_call_ok_all fuel : sort_call_ok getTime h0 fuel.
Proof.
  induction fuel as [|fuel IH]; intros h k t Hp Hm; [discriminate|].
  rewrite materialize_S, sorted_heap_lookup in Hm.
  destruct (h0 !! k) as [n0|] eqn:E0; simpl in Hm; [|discriminate].
  destruct (mapM (materialize fuel (sorted_heap getTime h0))
              (js_sort (node_cmp getTime h0) (obj_children n0))) as [ts|] eqn:Ets;
    simpl in Hm; [|discriminate].
  injection Hm as <-.
  set (sorted := js_sort (node_cmp getTime h0) (obj_children n0)) in *.
  assert (Hstep : exists node, h !! k = Some node /\
            set_children node (js_sort (node_cmp getTime h) (obj_children node))
            = sort_obj getTime h0 n0 /\
            js_sort (node_cmp getTime h) (obj_children node) = sorted).
  { destruct (Hp k) as [E|E]; rewrite E0 in E; simpl in E.
    - exists n0. rewrite partly_sorted_sort by assumption. auto.
    - exists (sort_obj getTime h0 n0). rewrite partly_sorted_sort by assumption.
      split; [assumption|]. split; [apply sort_obj_idem|].
      unfold sort_obj at 1. simpl. apply js_sort_idem, node_cmp_asym. }
  destruct Hstep as (node & Enode & Eobj & Esorted).
  set (h1 := <[k := sort_obj getTime h0 n0]> h).
  assert (Hp1 : partly_sorted getTime h0 h1).
  { intros j. unfold h1. destruct (decide (k = j)) as [<-|Hne].
    - right. now rewrite lookup_insert_eq, E0.
    - rewrite lookup_insert_ne by assumption. apply Hp. }
  assert (Hk1 : keeps_sorted getTime h0 h h1).
  { intros j Hj. unfold h1. destruct (decide (k = j)) as [<-|Hne].
    - now rewrite lookup_insert_eq, E0.
    - now rewrite lookup_insert_ne. }
  destruct (forEach_sort_ok fuel IH sorted h1 ts Hp1 Ets)
    as (h' & E' & Hp' & Hk' & Hm').
  exists h'. split; [|split; [assumption|split]].
  - rewrite sortChildren_S, Enode. simpl. rewrite Eobj, Esorted. exact E'.
  - eapply keeps_sorted_trans; eassumption.
  - intros h'' Hp'' Hk''. rewrite materialize_S.
    assert (Ek : h'' !! k = Some (sort_obj getTime h0 n0)).
    { rewrite (Hk'' k); [now rewrite E0|]. rewrite (Hk' k); [reflexivity|].
      unfold h1. now rewrite lookup_insert_eq, E0. }
    rewrite Ek. simpl. fold sorted. rewrite (Hm' h'' Hp'' Hk''). reflexivity.
Qed.

(** The sorting pass over [roots] succeeds when the forest can be read
    out of the fully sorted heap, and the heap it leaves yields that
    same forest. *)
Lemma sort_pass_spec fuel roots ts :
  mapM (materialize fuel (sorted_heap getTime h0)) roots = Some ts ->
  exists h',
    forEach (sortChildren getTime fuel) roots h0 = Some h' /\
    partly_sorted getTime h0 h' /\
    forall k, In k roots ->
      materialize fuel h' k = materialize fuel (sorted_heap getTime h0) k.
Proof.
  intros Hm.
  destruct (forEach_sort_ok fuel (sort_call_ok_all fuel) roots h0 ts
              partly_sorted_h0 Hm) as (h' & E' & Hp' & _ & Hm').
  exists h'. split; [assumption|]. split; [assumption|].
  specialize (Hm' h' Hp' (fun k Hk => Hk)).
  apply mapM_Some in Hm, Hm'. clear E'.
  revert Hm'. induction Hm as [|k t l ts0 Hk Hm IHl]; intros Hm' j Hj; [destruct Hj|].
  inversion Hm' as [|? ? ? ? Hk' Hl']; subst.
  destruct Hj as [<-|Hj]; [congruence|]. now apply IHl.
Qed.
End SortPass.

(** ** Well-formed flat collections *)

Lemma find_parent_Some C c p :
  DiscussionThread.find_parent C c = Some p -> In p C /\ parentId c = Some (id p).
Proof.
  unfold DiscussionThread.find_parent. intros H. apply find_some in H as [Hin Hb].
  apply bool_decide_eq_true in Hb. auto.
Qed.

Lemma find_parent_None C c :
  DiscussionThread.find_parent C c = None <-> is_root C c = true.
Proof.
  unfold DiscussionThread.find_parent, is_root. split.
  - intros H. destruct (parentId c) as [pid|] eqn:Ep; [|reflexivity].
    apply negb_true_iff, bool_decide_eq_false_2. intros Hin.
    apply list_elem_of_In, in_map_iff in Hin as (p & <- & Hp).
    apply (find_none _ _ H) in Hp. apply bool_decide_eq_false in Hp. now apply Hp.
  - intros H. destruct (List.find _ C) as [p|] eqn:Ef; [|reflexivity].
    apply find_some in Ef as [Hin Hb]. apply bool_decide_eq_true in Hb.
    rewrite <- Hb in H. apply negb_true_iff, bool_decide_eq_false in H.
    exfalso. apply H, list_elem_of_In, in_map. assumption.
Qed.

Lemma find_parent_unique C c p :
  List.NoDup (List.map id C) -> In p C -> parentId c = Some (id p) ->
  DiscussionThread.find_parent C c = Some p.
Proof.
  unfold DiscussionThread.find_parent. intros Hnd Hin Ep. rewrite Ep. clear Ep.
  induction C as [|a C IH]; [destruct Hin|]. simpl in *.
  inversion Hnd as [|? ? Hna Hnd']; subst.
  case_bool_decide as Ea.
  - injection Ea as Ea. destruct Hin as [->|Hin]; [reflexivity|].
    exfalso. apply Hna. rewrite Ea. now apply in_map.
  - destruct Hin as [->|Hin]; [congruence|]. now apply IH.
Qed.

Lemma hops_bound C : forall fuel c d, hops fuel C c = Some d -> (d < fuel)%nat.
Proof.
  induction fuel as [|fuel IH]; intros c d; simpl; [discriminate|].
  destruct (DiscussionThread.find_parent C c) as [p|]; [|intros [= <-]; lia].
  destruct (hops fuel C p) as [d'|] eqn:E; simpl; [|discriminate].
  intros [= <-]. apply IH in E. lia.
Qed.

Lemma hops_mono C : forall fuel c d,
  hops fuel C c = Some d -> hops (S fuel) C c = Some d.
Proof.
  induction fuel as [|fuel IH]; intros c d; [discriminate|].
  intros H. simpl in H. change (hops (S (S fuel)) C c) with
    (match DiscussionThread.find_parent C c with
     | None => Some 0%nat
     | Some p => S <$> hops (S fuel) C p
     end).
  destruct (DiscussionThread.find_parent C c) as [p|]; [|assumption].
  destruct (hops fuel C p) as [d'|] eqn:E; simpl in H; [|discriminate].
  now rewrite (IH p d' E).
Qed.

Section Levels.
Variable C : list Comment.
Hypothesis ids_unique : List.NoDup (List.map id C).
Hypothesis no_cycle : acyclic C = true.

Lemma level_defined c : In c C -> hops (length C) C c = Some (level C c).
Proof.
  intros Hin. unfold level, acyclic in *.
  rewrite forallb_forall in no_cycle. specialize (no_cycle c Hin).
  apply bool_decide_eq_true in no_cycle as [d ->]. reflexivity.
Qed.

Lemma level_bound c : In c C -> (level C c < length C)%nat.
Proof. intros Hin. eapply hops_bound, level_defined, Hin. Qed.

Lemma level_root c : In c C -> (is_root C c = true <-> level C c = 0%nat).
Proof.
  intros Hin. pose proof (level_defined c Hin) as Hl.
  destruct (length C) as [|n] eqn:En; [destruct C; [destruct Hin|discriminate]|].
  simpl in Hl. rewrite <- find_parent_None.
  destruct (DiscussionThread.find_parent C c) as [p|].
  - destruct (hops n C p); simpl in Hl; [|discriminate].
    injection Hl as <-. split; discriminate.
  - injection Hl as <-. tauto.
Qed.

Lemma level_child c p :
  In c C -> In p C -> parentId c = Some (id p) -> level C c = S (level C p).
Proof.
  intros Hc Hp Ep. pose proof (level_defined c Hc) as Hl.
  destruct (length C) as [|n] eqn:En; [destruct C; [destruct Hc|discriminate]|].
  simpl in Hl. rewrite (find_parent_unique C c p ids_unique Hp Ep) in Hl.
  destruct (hops n C p) as [d|] eqn:Ed; simpl in Hl; [|discriminate].
  injection Hl as <-. f_equal.
  apply hops_mono in Ed. unfold level. rewrite En, Ed. reflexivity.
Qed.

(** A comment one level below level [n] is a child of a comment of
    level [n]. *)
Lemma level_succ c n :
  In c C ->
  (level C c = S n <->
   exists p, In p C /\ level C p = n /\ parentId c = Some (id p)).
Proof.
  intros Hc. split.
  - intros Hl. destruct (DiscussionThread.find_parent C c) as [p|] eqn:Ef.
    + apply find_parent_Some in Ef as [Hp Ep]. exists p.
      rewrite (level_child c p Hc Hp Ep) in Hl. split; [assumption|]. split; congruence.
    + apply find_parent_None, level_root in Ef; [congruence|assumption].
  - intros (p & Hp & <- & Ep). now apply level_child.
Qed.
End Levels.

Lemma well_formed_unfold C :
  well_formed C = true -> List.NoDup (List.map id C) /\ acyclic C = true.
Proof.
  unfold well_formed, unique_ids. intros H. apply andb_true_iff in H as [Hu Ha].
  apply bool_decide_eq_true in Hu. split; [|assumption].
  clear Ha. induction Hu; constructor; [|assumption].
  now rewrite <- list_elem_of_In.
Qed.

Lemma ancestors_In C : forall fuel c x,
  In x (ancestors fuel C c) -> In x C /\ ancestor C x c.
Proof.
  induction fuel as [|fuel IH]; intros c x; simpl; [intros []|].
  destruct (DiscussionThread.find_parent C c) as [p|] eqn:E; [|intros []].
  intros [<-|Hx].
  - split; [now apply find_parent_Some in E|now constructor].
  - apply IH in Hx as [Hx Ha]. split; [assumption|]. now apply (ancestor_step C x p c).
Qed.

Lemma ancestors_length C : forall fuel c,
  hops fuel C c = None -> length (ancestors fuel C c) = fuel.
Proof.
  induction fuel as [|fuel IH]; intros c; simpl; [reflexivity|].
  destruct (DiscussionThread.find_parent C c) as [p|]; [|discriminate].
  destruct (hops fuel C p) eqn:E; [discriminate|]. intros _. simpl. f_equal.
  now apply IH.
Qed.

Lemma ancestors_NoDup C :
  (forall c, In c C -> ~ ancestor C c c) ->
  forall fuel c, List.NoDup (ancestors fuel C c).
Proof.
  intros Hirr. induction fuel as [|fuel IH]; intros c; simpl; [constructor|].
  destruct (DiscussionThread.find_parent C c) as [p|] eqn:E; [|constructor].
  constructor; [|apply IH]. intros Hp. apply ancestors_In in Hp as [Hp Ha].
  exact (Hirr p Hp Ha).
Qed.

Lemma ancestor_level C a c :
  List.NoDup (List.map id C) -> acyclic C = true ->
  ancestor C a c -> In c C -> In a C /\ (level C a < level C c)%nat.
Proof.
  intros Hnd Hac Ha. induction Ha as [p c E|a p c Ha IH E]; intros Hc.
  - apply find_parent_Some in E as [Hp Ep].
    rewrite (level_child C Hnd Hac c p Hc Hp Ep). split; [assumption|lia].
  - apply find_parent_Some in E as [Hp Ep]. destruct (IH Hp) as [Hin Hlt].
    rewrite (level_child C Hnd Hac c p Hc Hp Ep). split; [assumption|lia].
Qed.

(** [acyclic] says that no comment is its own ancestor. *)
Lemma acyclic_spec C :
  List.NoDup (List.map id C) ->
  acyclic C = true <-> forall c, In c C -> ~ ancestor C c c.
Proof.
  intros Hnd. split.
  - intros Hac c Hc Ha. destruct (ancestor_level C c c Hnd Hac Ha Hc). lia.
  - intros Hirr. unfold acyclic. apply forallb_forall. intros c Hc.
    apply bool_decide_eq_true_2.
    destruct (hops (length C) C c) as [d|] eqn:E; [now exists d|]. exfalso.
    assert (Hnd' : List.NoDup (c :: ancestors (length C) C c)).
    { constructor; [|now apply ancestors_NoDup].
      intros Hin. apply ancestors_In in Hin as [_ Ha]. exact (Hirr c Hc Ha). }
    assert (Hincl : incl (c :: ancestors (length C) C c) C).
    { intros x [<-|Hx]; [assumption|]. now apply ancestors_In in Hx. }
    pose proof (NoDup_incl_length Hnd' Hincl) as Hlen.
    simpl in Hlen. rewrite (ancestors_length C _ c E) in Hlen. lia.
Qed.

(** ** What [buildTree] returns on a well-formed collection *)

Lemma mapM_map_Some {A B X : Type} (g : A -> option B) (h : X -> A) (t : X -> B)
    (l : list X) :
  (forall x, In x l -> g (h x) = Some (t x)) ->
  mapM g (List.map h l) = Some (List.map t l).
Proof.
  intros H. apply mapM_Some.
  induction l as [|x l IH]; simpl; constructor.
  - apply H. now left.
  - apply IH. intros; apply H; now right.
Qed.

Section BuildTreeSpec.
Variable getTime : string -> option Z.
Variable C : list Comment.

Lemma kids_In c k : In k (kids getTime C c) <-> In k C /\ parentId k = Some (id c).
Proof.
  unfold kids. rewrite js_sort_In, filter_In. unfold parentIs.
  now rewrite bool_decide_eq_true.
Qed.

Lemma roots_of_In c : In c (roots_of getTime C) <-> In c C /\ is_root C c = true.
Proof. unfold roots_of. now rewrite js_sort_In, filter_In. Qed.

Hypothesis ids_unique : List.NoDup (List.map id C).
Hypothesis no_cycle : acyclic C = true.

Local Abbreviation h1 := ((linked C).1).
Local Abbreviation hs := (sorted_heap getTime (linked C).1).

Lemma h1_time c : In c C -> node_time getTime h1 (id c) = getTime (createdAt c).
Proof.
  intros Hin. unfold node_time.
  destruct (linked_spec C ids_unique) as (Hl & _ & _). now rewrite (Hl c Hin).
Qed.

Lemma h1_sort l :
  (forall c, In c l -> In c C) ->
  js_sort (node_cmp getTime h1) (List.map id l)
  = List.map id (js_sort (by_createdAt getTime) l).
Proof.
  intros Hsub. apply js_sort_map. intros a b Ha Hb.
  unfold node_cmp, by_createdAt. now rewrite !h1_time by auto.
Qed.

Lemma hs_lookup c :
  In c C ->
  hs !! id c
  = Some (mkNodeObj c (List.map id (kids getTime C c)) (link_depth C (id c))).
Proof.
  intros Hin. rewrite sorted_heap_lookup.
  destruct (linked_spec C ids_unique) as (Hl & _ & _).
  rewrite (Hl c Hin). simpl. unfold sort_obj, set_children. simpl.
  rewrite h1_sort; [reflexivity|].
  intros k Hk. now apply filter_In in Hk.
Qed.

Lemma kids_level c k : In c C -> In k (kids getTime C c) -> level C k = S (level C c).
Proof.
  intros Hc Hk. apply kids_In in Hk as [Hk Ep]. now apply level_child.
Qed.

(** With enough fuel for the generations below [c], the subtree read
    from the sorted heap is [tree]. *)
Lemma materialize_tree : forall fuel c,
  In c C -> (length C <= level C c + S fuel)%nat ->
  materialize (S fuel) hs (id c) = Some (tree getTime C fuel c).
Proof.
  induction fuel as [|fuel IH]; intros c Hc Hfuel;
    rewrite materialize_S, (hs_lookup c Hc); simpl.
  - destruct (kids getTime C c) as [|k l] eqn:Ek; [reflexivity|]. exfalso.
    assert (Hk : In k (kids getTime C c)) by (rewrite Ek; now left).
    pose proof (kids_level c k Hc Hk) as Hl.
    apply kids_In in Hk as [Hk _].
    pose proof (level_bound C no_cycle k Hk). lia.
  - rewrite (mapM_map_Some _ id (tree getTime C fuel) (kids getTime C c));
      [reflexivity|].
    intros k Hk. pose proof (kids_level c k Hc Hk) as Hl.
    apply IH; [now apply kids_In in Hk|lia].
Qed.

(** [buildTree] returns, and what it returns is the forest of [tree]s
    over the sorted roots. *)
Theorem buildTree_spec :
  buildTree getTime C
  = Some (List.map (tree getTime C (length C)) (roots_of getTime C)).
Proof.
  destruct (linked_spec C ids_unique) as (_ & _ & Hroots).
  assert (Hmat : forall c, In c C ->
            materialize (S (length C)) hs (id c) = Some (tree getTime C (length C) c)).
  { intros c Hc. apply materialize_tree; [assumption|lia]. }
  assert (Hm : mapM (materialize (S (length C)) hs) (linked C).2
               = Some (List.map (tree getTime C (length C))
                         (List.filter (is_root C) C))).
  { rewrite Hroots. apply mapM_map_Some. intros c Hc. apply Hmat.
    now apply filter_In in Hc. }
  destruct (sort_pass_spec getTime _ _ _ _ Hm) as (h' & E' & Hp' & Hagree).
  assert (Hsort : js_sort (node_cmp getTime h') (linked C).2
                  = List.map id (roots_of getTime C)).
  { rewrite (partly_sorted_sort getTime _ h' _ Hp'), Hroots.
    apply h1_sort. intros c Hc. now apply filter_In in Hc. }
  unfold buildTree. fold (linked C).
  destruct (linked C) as [m1 roots] eqn:El. simpl in *.
  rewrite E'. simpl. rewrite Hsort.
  apply mapM_map_Some. intros c Hc.
  apply roots_of_In in Hc as [Hc Hr].
  rewrite Hagree; [now apply Hmat|].
  rewrite Hroots. apply in_map, filter_In. auto.
Qed.
End BuildTreeSpec.

(** ** The forest holds every comment exactly once *)

Lemma NoDup_map_filter {A B : Type} (f : A -> B) (P : A -> bool) (l : list A) :
  List.NoDup (List.map f l) -> List.NoDup (List.map f (List.filter P l)).
Proof.
  induction l as [|a l IH]; simpl; intros H; [constructor|].
  inversion H as [|? ? Hna Hnd]; subst.
  destruct (P a); simpl; [|now apply IH].
  constructor; [|now apply IH].
  intros Hin. apply Hna. apply in_map_iff in Hin as (x & Hx & Hin).
  apply filter_In in Hin as [Hin _]. rewrite <- Hx. now apply in_map.
Qed.

(** Collecting the children of each parent of [L] is selecting the
    comments whose parent is in [L]. *)
Lemma children_of_list (C L : list Comment) :
  List.NoDup (List.map id L) ->
  Permutation
    (flat_map (fun p => List.filter (parentIs (id p)) C) L)
    (List.filter (fun c => existsb (fun p => parentIs (id p) c) L) C).
Proof.
  induction L as [|p L IH]; simpl; intros Hnd.
  - now rewrite filter_none.
  - inversion Hnd as [|? ? Hna Hnd']; subst.
    etransitivity; [apply Permutation_app_head, IH, Hnd'|].
    apply (filter_union_perm (parentIs (id p))
             (fun c => existsb (fun q => parentIs (id q) c) L)).
    intros c _ Hp. apply not_true_is_false. intros Hex.
    apply existsb_exists in Hex as (q & Hq & Hpq).
    unfold parentIs in *. apply bool_decide_eq_true in Hp, Hpq.
    apply Hna. replace (id p) with (id q) by congruence. now apply in_map.
Qed.

Section ForestContents.
Variable getTime : string -> option Z.
Variable C : list Comment.
Hypothesis ids_unique : List.NoDup (List.map id C).
Hypothesis no_cycle : acyclic C = true.

Local Abbreviation kids_of := (kids getTime C).
Local Abbreviation tree_of := (tree getTime C).

Lemma pre_S fuel c :
  pre getTime C (S fuel) c = c :: flat_map (pre getTime C fuel) (kids_of c).
Proof.
  unfold pre. simpl. f_equal.
  induction (kids_of c) as [|k l IH]; simpl; [reflexivity|]. now rewrite IH.
Qed.

Lemma pre_O c : pre getTime C 0 c = [c].
Proof. reflexivity. Qed.

Lemma pre_one_generation fuel N :
  Permutation (flat_map (pre getTime C (S fuel)) N)
              (N ++ flat_map (pre getTime C fuel) (flat_map kids_of N)).
Proof.
  induction N as [|c N IH]; [constructor|].
  cbn [flat_map]. rewrite pre_S, flat_map_app, <- !app_comm_cons. constructor.
  etransitivity; [apply Permutation_app_head, IH|].
  apply Permutation_app_swap_app.
Qed.

Lemma pre_generations : forall fuel N,
  Permutation (flat_map (pre getTime C fuel) N) (generations getTime C fuel N).
Proof.
  induction fuel as [|fuel IH]; intros N.
  - simpl. induction N as [|c N IHN]; simpl; [constructor|now constructor].
  - etransitivity; [apply pre_one_generation|].
    simpl. apply Permutation_app_head, IH.
Qed.

Lemma next_level n N :
  Permutation N (List.filter (at_level C n) C) ->
  Permutation (flat_map kids_of N) (List.filter (at_level C (S n)) C).
Proof.
  intros HN.
  etransitivity; [apply flat_map_perm_arg, HN|].
  etransitivity.
  { apply (flat_map_perm_pointwise _ (fun p => List.filter (parentIs (id p)) C)).
    intros p _. apply js_sort_perm. }
  etransitivity; [apply children_of_list, NoDup_map_filter, ids_unique|].
  rewrite (filter_ext_in _ (at_level C (S n))); [reflexivity|].
  intros c Hc. apply eq_iff_eq_true. unfold at_level.
  rewrite Nat.eqb_eq, (level_succ C ids_unique no_cycle c n Hc), existsb_exists.
  split.
  - intros (p & Hp & Hpc). apply filter_In in Hp as [Hp Hl].
    apply Nat.eqb_eq in Hl. apply bool_decide_eq_true in Hpc. eauto.
  - intros (p & Hp & Hl & Hpc). exists p. split.
    + apply filter_In. split; [assumption|]. now apply Nat.eqb_eq.
    + now apply bool_decide_eq_true.
Qed.

Lemma generations_levels : forall fuel n N,
  Permutation N (List.filter (at_level C n) C) ->
  Permutation (generations getTime C fuel N) (List.filter (in_levels C n (n + fuel)) C).
Proof.
  induction fuel as [|fuel IH]; intros n N HN; simpl.
  - rewrite HN.
    rewrite (filter_ext (at_level C n) (in_levels C n (n + 0))); [reflexivity|].
    intros c. unfold at_level, in_levels. apply eq_iff_eq_true.
    rewrite Nat.eqb_eq, andb_true_iff, !Nat.leb_le. lia.
  - etransitivity.
    { apply Permutation_app; [exact HN|apply (IH (S n)), next_level, HN]. }
    etransitivity.
    { apply filter_union_perm. intros c _ Hc. unfold at_level, in_levels in *.
      apply Nat.eqb_eq in Hc. apply andb_false_iff. left. apply Nat.leb_gt. lia. }
    rewrite (filter_ext _ (in_levels C n (n + S fuel))); [reflexivity|].
    intros c. unfold at_level, in_levels. apply eq_iff_eq_true.
    rewrite orb_true_iff, Nat.eqb_eq, !andb_true_iff, !Nat.leb_le. lia.
Qed.

Lemma roots_level_0 : Permutation (roots_of getTime C) (List.filter (at_level C 0) C).
Proof.
  unfold roots_of. etransitivity; [apply js_sort_perm|].
  rewrite (filter_ext_in (is_root C) (at_level C 0)); [reflexivity|].
  intros c Hc. apply eq_iff_eq_true. unfold at_level.
  rewrite Nat.eqb_eq. now apply level_root.
Qed.

(** The pre-order listing of the forest is a rearrangement of [C]. *)
Lemma forest_perm :
  Permutation (flattenTree (List.map (tree_of (length C)) (roots_of getTime C))) C.
Proof.
  rewrite flattenTree_spec.
  assert (E : forall l, flat_map node_list (List.map (tree_of (length C)) l)
                        = flat_map (pre getTime C (length C)) l).
  { induction l as [|c l IH]; simpl; [reflexivity|]. now rewrite IH. }
  rewrite E.
  etransitivity; [apply pre_generations|].
  etransitivity; [apply (generations_levels _ 0), roots_level_0|].
  rewrite filter_all; [reflexivity|].
  intros c Hc. unfold in_levels. apply andb_true_iff. rewrite !Nat.leb_le.
  pose proof (level_bound C no_cycle c Hc). lia.
Qed.
End ForestContents.

(** ** The sibling sequences of the forest *)

Section SiblingOrder.
Variable getTime : string -> option Z.

Lemma by_createdAt_neg a b :
  cmp_neg (by_createdAt getTime) a b = true ->
  exists x y, getTime (createdAt a) = Some x /\ getTime (createdAt b) = Some y /\ x < y.
Proof.
  unfold cmp_neg, by_createdAt, time_diff.
  destruct (getTime (createdAt a)) as [x|], (getTime (createdAt b)) as [y|];
    try discriminate.
  intros H. apply Z.ltb_lt in H. exists x, y. repeat split; lia.
Qed.

Lemma by_createdAt_asym a b :
  cmp_neg (by_createdAt getTime) a b = true ->
  cmp_neg (by_createdAt getTime) b a = false.
Proof.
  intros H. apply by_createdAt_neg in H as (x & y & Ea & Eb & Hxy).
  unfold cmp_neg, by_createdAt. rewrite Ea, Eb. simpl. apply Z.ltb_ge. lia.
Qed.

Lemma time_le_trans : Transitive (time_le getTime).
Proof.
  intros a b c (x & y & Ea & Eb & Hxy) (y' & z & Eb' & Ec & Hyz).
  exists x, z. repeat split; try assumption.
  rewrite Eb in Eb'. injection Eb' as <-. lia.
Qed.

Lemma js_sort_time_sorted l :
  parseable getTime l = true ->
  StronglySorted (time_le getTime) (js_sort (by_createdAt getTime) l).
Proof.
  intros Hp. apply Sorted_StronglySorted; [apply time_le_trans|].
  assert (Hall : forall c, In c (js_sort (by_createdAt getTime) l) ->
                           is_Some (getTime (createdAt c))).
  { intros c Hc. apply js_sort_In in Hc. unfold parseable in Hp.
    rewrite forallb_forall in Hp. specialize (Hp c Hc).
    now apply bool_decide_eq_true in Hp. }
  pose proof (js_sort_sorted (by_createdAt getTime) by_createdAt_asym l) as Hs.
  revert Hall. induction Hs as [|a l0 Hs IH Hd]; intros Hall; constructor.
  - apply IH. intros; apply Hall; now right.
  - destruct Hd as [|b l1 Hab]; constructor.
    destruct (Hall a (or_introl eq_refl)) as [x Ea].
    destruct (Hall b (or_intror (or_introl eq_refl))) as [y Eb].
    exists x, y. repeat split; try assumption.
    unfold not_after, cmp_neg, by_createdAt in Hab. rewrite Eb, Ea in Hab.
    simpl in Hab. apply Z.ltb_ge in Hab. lia.
Qed.

Lemma js_sort_time_stable t l :
  List.filter (has_time getTime t) (js_sort (by_createdAt getTime) l)
  = List.filter (has_time getTime t) l.
Proof.
  apply (js_sort_stable (by_createdAt getTime) (fun c => getTime (createdAt c))).
  intros a b H. apply by_createdAt_neg in H as (x & y & -> & -> & Hxy).
  intros [= ->]. lia.
Qed.

Lemma parseable_perm C C' :
  Permutation C C' -> parseable getTime C = true -> parseable getTime C' = true.
Proof.
  unfold parseable. rewrite !forallb_forall. intros HP H c Hc.
  apply H. eapply Permutation_in; [symmetry; exact HP|exact Hc].
Qed.

Lemma parseable_filter P C :
  parseable getTime C = true -> parseable getTime (List.filter P C) = true.
Proof.
  unfold parseable. rewrite !forallb_forall. intros H c Hc.
  apply filter_In in Hc as [Hc _]. now apply H.
Qed.

Variable C : list Comment.
Hypothesis ids_unique : List.NoDup (List.map id C).
Hypothesis no_cycle : acyclic C = true.

Local Abbreviation kids_of := (kids getTime C).
Local Abbreviation tree_of := (tree getTime C).

Lemma tree_comment fuel c : node_comment (tree_of fuel c) = c.
Proof. destruct fuel; reflexivity. Qed.

Lemma tree_comments fuel l : List.map node_comment (List.map (tree_of fuel) l) = l.
Proof.
  induction l as [|c l IH]; simpl; [reflexivity|]. now rewrite tree_comment, IH.
Qed.

(** A comment of the last possible level has no children. *)
Lemma kids_bottom c : In c C -> (length C <= level C c + 1)%nat -> kids_of c = [].
Proof.
  intros Hc Hl. destruct (kids_of c) as [|k l] eqn:Ek; [reflexivity|]. exfalso.
  assert (Hk : In k (kids_of c)) by (rewrite Ek; now left).
  pose proof (kids_level getTime C ids_unique no_cycle c k Hc Hk) as Hlk.
  apply kids_In in Hk as [Hk _].
  pose proof (level_bound C no_cycle k Hk). lia.
Qed.

(** The children of every node of the forest are the sorted children
    of its comment in [C]. *)
Lemma tree_subnodes : forall fuel c n,
  In c C -> (length C <= level C c + S fuel)%nat ->
  In n (subnodes (tree_of fuel c)) ->
  In (node_comment n) C /\
  List.map node_comment (children n) = kids_of (node_comment n).
Proof.
  induction fuel as [|fuel IH]; intros c n Hc Hl Hn.
  - simpl in Hn. destruct Hn as [<-|[]]. simpl.
    split; [assumption|]. symmetry. apply kids_bottom; [assumption|lia].
  - cbn [tree subnodes] in Hn. destruct Hn as [<-|Hn].
    + simpl. split; [assumption|]. apply tree_comments.
    + apply in_flat_map in Hn as (t & Ht & Hn).
      apply in_map_iff in Ht as (k & <- & Hk).
      pose proof (kids_level getTime C ids_unique no_cycle c k Hc Hk) as Hlk.
      apply (IH k n); [now apply kids_In in Hk|lia|assumption].
Qed.

Lemma forest_subnodes n :
  In n (flat_map subnodes (List.map (tree_of (length C)) (roots_of getTime C))) ->
  In (node_comment n) C /\
  List.map node_comment (children n) = kids_of (node_comment n).
Proof.
  intros Hn. apply in_flat_map in Hn as (t & Ht & Hn).
  apply in_map_iff in Ht as (c & <- & Hc). apply roots_of_In in Hc as [Hc _].
  apply (tree_subnodes (length C) c n); [assumption|lia|assumption].
Qed.
End SiblingOrder.

(** ** The [depth] field when parents come first *)

Lemma link_step_depth m roots c m' roots' :
  link_step (m, roots) c = (m', roots') ->
  forall k,
    obj_depth <$> m' !! k
    = match parentId c with
      | Some pid =>
          match m !! pid with
          | Some parent =>
              if decide (id c = k)
              then (fun _ => (obj_depth parent + 1)%nat) <$> m !! k
              else obj_depth <$> m !! k
          | None => obj_depth <$> m !! k
          end
      | None => obj_depth <$> m !! k
      end.
Proof.
  unfold link_step. destruct (parentId c) as [pid|]; [|now intros [= <- <-]].
  destruct (m !! pid) as [parent|]; intros [= <- <-] k; [|reflexivity].
  rewrite !lookup_alter.
  repeat case_decide; subst; try congruence;
    destruct_lookups m;
    reflexivity.
Qed.

Lemma unique_id_eq (C : list Comment) (x c : Comment) :
  List.NoDup (List.map id C) -> In x C -> In c C -> id x = id c -> x = c.
Proof.
  intros Hnd Hx Hc Heq. induction C as [|a l IH]; [destruct Hx|].
  simpl in Hnd. inversion Hnd as [|? ? Hna Hnd']; subst.
  destruct Hx as [->|Hx], Hc as [->|Hc]; try reflexivity.
  - exfalso. apply Hna. rewrite Heq. now apply in_map.
  - exfalso. apply Hna. rewrite <- Heq. now apply in_map.
  - now apply IH.
Qed.

(** Linking a comment that goes to [roots] leaves its [depth] alone. *)
Lemma link_fold_depth_stay (k : string) : forall todo m r m' r',
  foldl link_step (m, r) todo = (m', r') ->
  (forall x, In x todo -> id x = k -> absent_parent m x = true) ->
  obj_depth <$> m' !! k = obj_depth <$> m !! k.
Proof.
  induction todo as [|x todo IH]; intros m r m' r' E Hx.
  - now injection E as <- <-.
  - change (foldl link_step (link_step (m, r) x) todo = (m', r')) in E.
    destruct (link_step (m, r) x) as [m1 r1] eqn:E1.
    pose proof (link_step_depth _ _ _ _ _ E1 k) as Hd.
    apply link_step_spec in E1 as (Hc1 & _ & _).
    rewrite (IH m1 r1 m' r' E).
    + rewrite Hd. destruct (parentId x) as [px|] eqn:Epx; [|reflexivity].
      destruct (m !! px) as [parent|] eqn:Em; [|reflexivity].
      case_decide as Ek; [|reflexivity]. exfalso.
      specialize (Hx x (or_introl eq_refl) Ek). unfold absent_parent in Hx.
      rewrite Epx in Hx. apply bool_decide_eq_true in Hx. congruence.
    + intros y Hy Ey. rewrite (absent_parent_ext m m1 y Hc1).
      apply Hx; [now right|assumption].
Qed.

(** A root of the forest has depth 0. *)
Lemma link_depth_root (C : list Comment) (c : Comment) :
  List.NoDup (List.map id C) -> In c C -> is_root C c = true ->
  link_depth C (id c) = 0%nat.
Proof.
  intros Hnd Hc Hroot. unfold link_depth.
  destruct (linked C) as [m roots] eqn:E. unfold linked in E. simpl.
  assert (H : obj_depth <$> m !! id c = Some 0%nat).
  { rewrite (link_fold_depth_stay (id c) C _ _ _ _ E).
    - now rewrite (index_fold_lookup C ∅ c Hnd Hc).
    - intros x Hx Ex. rewrite (unique_id_eq C x c Hnd Hx Hc Ex).
      now rewrite is_root_absent. }
  destruct (m !! id c); simpl in *; congruence.
Qed.

Lemma tree_eta (getTime : string -> option Z) (C : list Comment) fuel c :
  tree getTime C fuel c
  = mkNode c (children (tree getTime C fuel c)) (link_depth C (id c)).
Proof. destruct fuel; reflexivity. Qed.

Section DepthOrder.
Variable C : list Comment.
Hypothesis ids_unique : List.NoDup (List.map id C).
Hypothesis no_cycle : acyclic C = true.

Lemma link_depth_invariant : forall todo done m roots m' roots',
  C = done ++ todo ->
  parents_first_from (List.map id C) (List.map id done) todo = true ->
  (forall k, obj_comment <$> m !! k = obj_comment <$> foldl index_step ∅ C !! k) ->
  (forall c, In c done -> obj_depth <$> m !! id c = Some (level C c)) ->
  (forall c, In c todo -> obj_depth <$> m !! id c = Some 0%nat) ->
  foldl link_step (m, roots) todo = (m', roots') ->
  forall c, In c C -> obj_depth <$> m' !! id c = Some (level C c).
Proof.
  induction todo as [|c0 todo IH];
    intros done m roots m' roots' HC Hpf Hcom Hdone Htodo E.
  - injection E as <- <-. rewrite app_nil_r in HC. subst done. exact Hdone.
  - change (foldl link_step (link_step (m, roots) c0) todo = (m', roots')) in E.
    destruct (link_step (m, roots) c0) as [m1 roots1] eqn:E1.
    pose proof (link_step_depth _ _ _ _ _ E1) as Hd.
    apply link_step_spec in E1 as (Hc1 & _ & _).
    assert (Hc0 : In c0 C) by (rewrite HC; apply in_or_app; right; now left).
    assert (Hnd : List.NoDup (List.map id done ++ id c0 :: List.map id todo)).
    { rewrite HC, map_app in ids_unique. exact ids_unique. }
    assert (Hother : forall c, In c done \/ In c todo -> id c0 <> id c).
    { intros c Hc Heq. apply NoDup_remove_2 in Hnd. apply Hnd.
      rewrite Heq. apply in_or_app. destruct Hc; [left|right]; now apply in_map. }
    simpl in Hpf. apply andb_true_iff in Hpf as [Hp0 Hpf].
    apply (IH (done ++ [c0]) m1 roots1 m' roots').
    + now rewrite <- app_assoc.
    + now rewrite map_app.
    + intros k. now rewrite Hc1.
    + intros c Hc. apply in_app_or in Hc as [Hc|[->|[]]].
      * rewrite Hd. rewrite <- (Hdone c Hc).
        destruct (parentId c0); [|reflexivity]. destruct (m !! s); [|reflexivity].
        rewrite decide_False; [reflexivity|]. apply Hother. now left.
      * rewrite Hd. pose proof (Htodo c (or_introl eq_refl)) as H0.
        pose proof (is_root_absent C c ids_unique) as Habs.
        rewrite <- (absent_parent_ext _ m c Hcom) in Habs.
        unfold absent_parent in Habs.
        destruct (parentId c) as [pid|] eqn:Ep.
        -- destruct (m !! pid) as [parent|] eqn:Em.
           ++ rewrite decide_True by reflexivity.
              destruct (m !! id c); [|discriminate]. simpl. f_equal.
              rewrite bool_decide_eq_false_2 in Habs by congruence.
              unfold is_root in Habs. rewrite Ep in Habs. symmetry in Habs.
              apply negb_false_iff in Habs.
              rewrite Habs in Hp0. simpl in Hp0. rewrite orb_false_r in Hp0.
              apply bool_decide_eq_true in Hp0.
              apply list_elem_of_In, in_map_iff in Hp0 as (p & Eid & Hp).
              pose proof (Hdone p Hp) as Hlp. rewrite Eid, Em in Hlp.
              injection Hlp as Hlp.
              rewrite (level_child C ids_unique no_cycle c p Hc0); [lia| |congruence].
              rewrite HC. apply in_or_app. now left.
           ++ rewrite H0. f_equal. symmetry.
              apply (level_root C ids_unique no_cycle c Hc0).
              rewrite <- Habs. now apply bool_decide_eq_true_2.
        -- rewrite H0. f_equal. symmetry.
           now apply (level_root C ids_unique no_cycle c Hc0).
    + intros c Hc. rewrite Hd. rewrite <- (Htodo c (or_intror Hc)).
      destruct (parentId c0); [|reflexivity]. destruct (m !! s); [|reflexivity].
      rewrite decide_False; [reflexivity|]. apply Hother. now right.
    + exact E.
Qed.

Hypothesis in_order : parents_first C = true.

(** The [depth] field is the number of hops to the root. *)
Lemma link_depth_level c : In c C -> link_depth C (id c) = level C c.
Proof.
  intros Hc. unfold link_depth.
  destruct (linked C) as [m' roots'] eqn:E. unfold linked in E. simpl.
  assert (H : obj_depth <$> m' !! id c = Some (level C c)).
  { apply (link_depth_invariant C [] (foldl index_step ∅ C) [] m' roots');
      try assumption; try reflexivity.
    - intros c' [].
    - intros c' Hc'. now rewrite (index_fold_lookup C ∅ c' ids_unique Hc'). }
  destruct (m' !! id c); simpl in *; congruence.
Qed.

Lemma tree_depth_is_distance (getTime : string -> option Z) : forall fuel c,
  In c C -> depth_is_distance (level C c) (tree getTime C fuel c) = true.
Proof.
  induction fuel as [|fuel IH]; intros c Hc; simpl;
    rewrite (link_depth_level c Hc), Nat.eqb_refl; [reflexivity|]. simpl.
  apply forallb_forall. intros t Ht. apply in_map_iff in Ht as (k & <- & Hk).
  rewrite <- (kids_level getTime C ids_unique no_cycle c k Hc Hk).
  apply IH. now apply kids_In in Hk.
Qed.
End DepthOrder.

(** ** The temporary comment of a reply *)

Lemma map_replace_fresh (tmp : string) (server : Comment) (l : list Comment) :
  (forall c, In c l -> id c <> tmp) ->
  List.map (fun c => if bool_decide (id c = tmp) then server else c) l = l.
Proof.
  induction l as [|a l IH]; simpl; intros H; [reflexivity|].
  rewrite bool_decide_eq_false_2 by (apply H; now left).
  f_equal. apply IH. intros; apply H; now right.
Qed.

Lemma filter_remove_fresh (tmp : string) (l : list Comment) :
  (forall c, In c l -> id c <> tmp) ->
  List.filter (fun c => negb (bool_decide (id c = tmp))) l = l.
Proof.
  intros H. apply filter_all. intros c Hc.
  apply negb_true_iff, bool_decide_eq_false_2, H, Hc.
Qed.

(** ** The closure of a delete *)

Lemma in_closure_In C target c : in_closure C target c -> In c C.
Proof. now destruct 1. Qed.

Lemma reaches_S fuel C target current :
  DiscussionThread.reaches (S fuel) C target current
  = if bool_decide (id current = target) then Some true
    else match DiscussionThread.find_parent C current with
         | Some next => DiscussionThread.reaches fuel C target next
         | None => Some false
         end.
Proof. reflexivity. Qed.

(** The loop ends when the parent chain does. *)
Lemma reaches_terminates C target : forall fuel c d,
  hops fuel C c = Some d ->
  exists b, DiscussionThread.reaches (S fuel) C target c = Some b.
Proof.
  induction fuel as [|fuel IH]; intros c d H; [discriminate|].
  rewrite reaches_S. simpl in H.
  case_bool_decide; [now exists true|].
  destruct (DiscussionThread.find_parent C c) as [p|]; [|now exists false].
  destruct (hops fuel C p) as [d'|] eqn:E; [|discriminate].
  exact (IH p d' E).
Qed.

Lemma reaches_sound C target : forall fuel c,
  In c C -> DiscussionThread.reaches fuel C target c = Some true ->
  in_closure C target c.
Proof.
  induction fuel as [|fuel IH]; intros c Hc H; [discriminate|].
  rewrite reaches_S in H. case_bool_decide as E; [now apply closure_target|].
  destruct (DiscussionThread.find_parent C c) as [p|] eqn:Ep; [|discriminate].
  apply find_parent_Some in Ep as [Hp Epc].
  apply (closure_reply C target p c); auto.
Qed.

Lemma reaches_complete C target :
  List.NoDup (List.map id C) ->
  forall c, in_closure C target c ->
  forall fuel, DiscussionThread.reaches fuel C target c <> Some false.
Proof.
  intros Hnd c Hc. induction Hc as [c Hin E|p c Hp IH Hin E]; intros [|fuel];
    try discriminate; rewrite reaches_S.
  - now rewrite bool_decide_eq_true_2.
  - case_bool_decide; [discriminate|].
    rewrite (find_parent_unique C c p Hnd (in_closure_In _ _ _ Hp) E). apply IH.
Qed.

(** On a well-formed collection the loop decides the closure. *)
Lemma reaches_closure C target c :
  well_formed C = true -> In c C ->
  exists b, DiscussionThread.reaches (S (length C)) C target c = Some b /\
            (b = true <-> in_closure C target c).
Proof.
  intros Hwf Hc. apply well_formed_unfold in Hwf as [Hnd Hac].
  destruct (reaches_terminates C target _ c _ (level_defined C Hac c Hc)) as [b Hb].
  exists b. split; [assumption|]. split.
  - intros ->. now apply (reaches_sound C target (S (length C))).
  - intros Hcl. destruct b; [reflexivity|].
    now apply (reaches_complete C target Hnd c Hcl) in Hb.
Qed.

Lemma filterM_total (f : Comment -> option bool) (P : Comment -> bool) l :
  (forall c, In c l -> f c = Some (P c)) ->
  DiscussionThread.filterM f l = Some (List.filter P l).
Proof.
  induction l as [|a l IH]; intros H; [reflexivity|]. simpl.
  rewrite (H a (or_introl eq_refl)), IH by (intros; apply H; now right).
  simpl. now destruct (P a).
Qed.

Lemma in_subtree_closure C target c :
  well_formed C = true -> In c C ->
  in_subtree C target c = true <-> in_closure C target c.
Proof.
  intros Hwf Hc. unfold in_subtree.
  destruct (reaches_closure C target c Hwf Hc) as (b & -> & Hb).
  destruct b; [tauto|]. split; [discriminate|]. intros H. apply Hb in H. discriminate.
Qed.

Lemma deletedComments_spec C target :
  well_formed C = true ->
  DiscussionThread.deletedComments C target
  = Some (List.filter (in_subtree C target) C).
Proof.
  intros Hwf. apply filterM_total. intros c Hc. unfold in_subtree.
  destruct (reaches_closure C target c Hwf Hc) as (b & -> & _). now destruct b.
Qed.

Lemma filter_split_perm {A : Type} (P : A -> bool) (l : list A) :
  Permutation (List.filter (fun x => negb (P x)) l ++ List.filter P l) l.
Proof.
  induction l as [|a l IH]; simpl; [constructor|].
  destruct (P a); simpl.
  - etransitivity; [symmetry; apply Permutation_middle|]. now constructor.
  - now constructor.
Qed.

(** Well-formedness does not depend on the order of the collection. *)
Lemma find_parent_perm C C' c :
  List.NoDup (List.map id C) -> Permutation C C' ->
  DiscussionThread.find_parent C' c = DiscussionThread.find_parent C c.
Proof.
  intros Hnd HP.
  assert (Hnd' : List.NoDup (List.map id C'))
    by (eapply Permutation_NoDup; [apply Permutation_map, HP|exact Hnd]).
  destruct (DiscussionThread.find_parent C c) as [p|] eqn:E.
  - apply find_parent_Some in E as [Hp Ep].
    apply find_parent_unique; [assumption| |assumption].
    now apply (Permutation_in _ HP).
  - apply find_parent_None in E. apply find_parent_None.
    unfold is_root in *. destruct (parentId c) as [pid|]; [|reflexivity].
    apply negb_true_iff, bool_decide_eq_false in E.
    apply negb_true_iff, bool_decide_eq_false_2. intros Hin. apply E.
    apply list_elem_of_In. apply list_elem_of_In in Hin.
    eapply Permutation_in; [symmetry; apply Permutation_map, HP|exact Hin].
Qed.

Lemma hops_perm C C' :
  List.NoDup (List.map id C) -> Permutation C C' ->
  forall fuel c, hops fuel C' c = hops fuel C c.
Proof.
  intros Hnd HP. induction fuel as [|fuel IH]; intros c; [reflexivity|].
  simpl. rewrite (find_parent_perm C C' c Hnd HP).
  destruct (DiscussionThread.find_parent C c); [|reflexivity]. now rewrite IH.
Qed.

Lemma well_formed_perm C C' :
  Permutation C C' -> well_formed C = true -> well_formed C' = true.
Proof.
  intros HP Hwf. pose proof (well_formed_unfold C Hwf) as [Hnd Hac].
  unfold well_formed. apply andb_true_iff. split.
  - apply bool_decide_eq_true_2. apply andb_true_iff in Hwf as [Hu _].
    apply bool_decide_eq_true in Hu.
    assert (HPm : Permutation (List.map id C) (List.map id C'))
      by apply Permutation_map, HP.
    now rewrite <- HPm.
  - unfold acyclic in *. rewrite forallb_forall in Hac. apply forallb_forall.
    intros c Hc. rewrite <- (Permutation_length HP), (hops_perm C C' Hnd HP).
    apply Hac. eapply Permutation_in; [symmetry; exact HP|exact Hc].
Qed.

Lemma includes_filter (P : Comment -> bool) (C : list Comment) (c : Comment) :
  In c C -> bool_decide (c ∈ List.filter P C) = P c.
Proof.
  intros Hc. apply eq_iff_eq_true.
  rewrite bool_decide_eq_true, list_elem_of_In, filter_In. tauto.
Qed.

(** ** The store's cascade *)

Lemma ancestor_from_top C p c :
  ancestor C p c <->
  DiscussionThread.find_parent C c = Some p \/
  exists k, DiscussionThread.find_parent C k = Some p /\ ancestor C k c.
Proof.
  split.
  - induction 1 as [p c E|a p c Ha IH E]; [now left|]. right.
    destruct IH as [Ep|(k & Ek & Hk)].
    + exists p. split; [assumption|now constructor].
    + exists k. split; [assumption|]. now apply (ancestor_step C k p c).
  - intros [E|(k & Ek & Hk)]; [now constructor|].
    induction Hk as [k c E|k q c Hk IH E].
    + apply (ancestor_step C p k c); [now constructor|assumption].
    + apply (ancestor_step C p q c); [now apply IH|assumption].
Qed.

Lemma in_closure_ancestor C target c :
  List.NoDup (List.map id C) ->
  in_closure C target c <->
  In c C /\ (id c = target \/ exists t, In t C /\ id t = target /\ ancestor C t c).
Proof.
  intros Hnd. split.
  - induction 1 as [c Hc E|p c Hp IH Hc E]; [tauto|].
    split; [assumption|]. right. destruct IH as [Hin [Et|(t & Ht & Et & Ha)]].
    + exists p. repeat split; try assumption. constructor.
      now apply find_parent_unique.
    + exists t. repeat split; try assumption.
      apply (ancestor_step C t p c); [assumption|now apply find_parent_unique].
  - intros [Hc [E|(t & Ht & Et & Ha)]]; [now apply closure_target|].
    revert Hc. induction Ha as [t c E|t p c Ha IH E]; intros Hc;
      apply find_parent_Some in E as [Hp Ep].
    + apply (closure_reply C target t c); [now apply closure_target|assumption..].
    + apply (closure_reply C target p c); [now apply IH|assumption..].
Qed.

Lemma findAllChildIds_S fuel C parent :
  CommentService.findAllChildIds (S fuel) C parent
  = (let children := List.filter (fun c => bool_decide (parentId c = Some parent)) C in
     grandchildIds ←
       mapM (fun c => CommentService.findAllChildIds fuel C (id c)) children;
     Some (List.map id children ++ concat grandchildIds)).
Proof. reflexivity. Qed.

(** [findAllChildIds] returns the ids of the comments below [p]. *)
Lemma findAllChildIds_spec C :
  List.NoDup (List.map id C) -> acyclic C = true ->
  forall fuel p,
    In p C -> (length C <= level C p + fuel)%nat ->
    exists ids,
      CommentService.findAllChildIds fuel C (id p) = Some ids /\
      forall c, In c C -> (In (id c) ids <-> ancestor C p c).
Proof.
  intros Hnd Hac. induction fuel as [|fuel IH]; intros p Hp Hfuel.
  - pose proof (level_bound C Hac p Hp). lia.
  - rewrite findAllChildIds_S. cbv zeta.
    set (children := List.filter (fun c => bool_decide (parentId c = Some (id p))) C).
    assert (Hch : forall k, In k children <-> In k C /\ parentId k = Some (id p)).
    { intros k. unfold children. rewrite filter_In. now rewrite bool_decide_eq_true. }
    assert (Hsub : exists gs,
              mapM (fun c => CommentService.findAllChildIds fuel C (id c)) children
              = Some gs /\
              forall c, In c C ->
                (In (id c) (concat gs) <->
                 exists k, In k children /\ ancestor C k c)).
    { assert (Hall : forall k, In k children -> In k C /\ parentId k = Some (id p))
        by (intros k; apply Hch).
      clearbody children. clear Hch.
      induction children as [|k l IHl].
      - exists []. split; [reflexivity|]. intros c _. simpl.
        split; [intros []|intros (k & [] & _)].
      - destruct (Hall k (or_introl eq_refl)) as [Hk Epk].
        destruct (IH k Hk) as (ids & E & Hids).
        { rewrite (level_child C Hnd Hac k p Hk Hp Epk). lia. }
        destruct IHl as (gs & Egs & Hgs); [intros; apply Hall; now right|].
        exists (ids :: gs). split.
        + apply mapM_Some. constructor; [assumption|now apply mapM_Some].
        + intros c Hc. simpl. rewrite in_app_iff, (Hids c Hc), (Hgs c Hc). split.
          * intros [Ha|(k' & Hk' & Ha)]; [exists k|exists k']; auto.
          * intros (k' & [<-|Hk'] & Ha); [now left|right; exists k'; auto]. }
    destruct Hsub as (gs & -> & Hgs). simpl. eexists. split; [reflexivity|].
    intros c Hc. rewrite in_app_iff, (Hgs c Hc), ancestor_from_top. split.
    + intros [Hin|(k & Hk & Ha)].
      * left. apply in_map_iff in Hin as (k & Ek & Hk). apply Hch in Hk as [Hk Epk].
        rewrite (unique_id_eq C k c Hnd Hk Hc Ek) in Epk.
        now apply find_parent_unique.
      * right. exists k. split; [|assumption]. apply Hch in Hk as [Hk Epk].
        now apply find_parent_unique.
    + intros [E|(k & Ek & Ha)];
        apply find_parent_Some in E || apply find_parent_Some in Ek.
      * left. apply in_map, Hch. tauto.
      * right. exists k. split; [|assumption].
        apply Hch. destruct (ancestor_level C k c Hnd Hac Ha Hc). tauto.
Qed.

(** ** Sorting by a key *)

Section SortByKey.
Context {A : Type} (cmp : A -> A -> option Z) (key : A -> Z).

Lemma keyed_incl l l' : incl l' l -> keyed cmp key l -> keyed cmp key l'.
Proof. intros Hi H a b Ha Hb. apply H; now apply Hi. Qed.

Lemma js_insert_In x y l : In y (js_insert cmp x l) <-> y = x \/ In y l.
Proof.
  split.
  - intros H. apply (Permutation_in _ (js_insert_perm cmp x l)) in H.
    destruct H as [<-|H]; auto.
  - intros H. apply (Permutation_in _ (Permutation_sym (js_insert_perm cmp x l))).
    destruct H as [->|H]; [now left|now right].
Qed.

Lemma js_insert_key_sorted x s :
  keyed cmp key (x :: s) -> StronglySorted (key_le key) s ->
  StronglySorted (key_le key) (js_insert cmp x s).
Proof.
  intros Hk Hs. induction Hs as [|y s Hs IH Hy]; simpl.
  - repeat constructor.
  - rewrite (Hk y x) by (simpl; auto).
    destruct (key y <? key x) eqn:E.
    + apply Z.ltb_lt in E. constructor.
      * apply IH. eapply keyed_incl; [|exact Hk].
        intros z [<-|Hz]; simpl; auto.
      * apply List.Forall_forall. intros z Hz. apply js_insert_In in Hz as [->|Hz].
        -- unfold key_le. lia.
        -- rewrite List.Forall_forall in Hy. now apply Hy.
    + apply Z.ltb_ge in E. constructor; [now constructor|].
      constructor; [exact E|].
      rewrite List.Forall_forall in Hy |- *. intros z Hz. specialize (Hy z Hz).
      unfold key_le in *. lia.
Qed.

Lemma js_sort_key_sorted l :
  keyed cmp key l -> StronglySorted (key_le key) (js_sort cmp l).
Proof.
  induction l as [|x l IH]; intros Hk; simpl; [constructor|].
  apply js_insert_key_sorted.
  - intros a b Ha Hb. apply Hk.
    + destruct Ha as [<-|Ha]; [now left|right; now apply (js_sort_In cmp)].
    + destruct Hb as [<-|Hb]; [now left|right; now apply (js_sort_In cmp)].
  - apply IH. eapply keyed_incl; [|exact Hk]. intros z Hz; now right.
Qed.

(** Inserting into a sorted list and dropping elements commute. *)
Lemma js_insert_filter (P : A -> bool) x s :
  keyed cmp key (x :: s) -> StronglySorted (key_le key) s ->
  List.filter P (js_insert cmp x s)
  = if P x then js_insert cmp x (List.filter P s) else List.filter P s.
Proof.
  intros Hk Hs. induction Hs as [|y s Hs IH Hy]; simpl.
  - now destruct (P x).
  - assert (Hk' : keyed cmp key (x :: s)).
    { eapply keyed_incl; [|exact Hk]. intros z [<-|Hz]; simpl; auto. }
    specialize (IH Hk').
    destruct (cmp_neg cmp y x) eqn:E; simpl.
    + rewrite IH. destruct (P y), (P x); simpl; try reflexivity. now rewrite E.
    + destruct (P x) eqn:Px; [|reflexivity].
      assert (Hhead : forall t, (forall z, In z t -> In z (y :: s)) ->
                js_insert cmp x t = x :: t).
      { intros [|z t] Hsub; [reflexivity|]. simpl.
        rewrite (Hk z x); [|right; apply Hsub; now left|now left].
        rewrite (Hk y x) in E by (simpl; auto). apply Z.ltb_ge in E.
        assert (key y <= key z).
        { destruct (Hsub z (or_introl eq_refl)) as [<-|Hz]; [lia|].
          rewrite List.Forall_forall in Hy. now apply Hy. }
        replace (key z <? key x) with false; [reflexivity|].
        symmetry. apply Z.ltb_ge. lia. }
      symmetry. apply Hhead. intros z Hz.
      destruct (P y); [destruct Hz as [<-|Hz]; [now left|]|];
        right; now apply filter_In in Hz.
Qed.

(** Sorting and dropping elements commute. *)
Lemma js_sort_filter (P : A -> bool) l :
  keyed cmp key l -> js_sort cmp (List.filter P l) = List.filter P (js_sort cmp l).
Proof.
  induction l as [|x l IH]; intros Hk; [reflexivity|].
  assert (Hk' : keyed cmp key l).
  { eapply keyed_incl; [|exact Hk]. intros z Hz; now right. }
  change (js_sort cmp (x :: l)) with (js_insert cmp x (js_sort cmp l)).
  rewrite js_insert_filter.
  - simpl. destruct (P x); simpl; now rewrite IH.
  - intros a b Ha Hb. apply Hk.
    + destruct Ha as [<-|Ha]; [now left|right; now apply (js_sort_In cmp)].
    + destruct Hb as [<-|Hb]; [now left|right; now apply (js_sort_In cmp)].
  - now apply js_sort_key_sorted.
Qed.

(** A list with pairwise different keys has one sorted arrangement. *)
Lemma sorted_perm_unique l : forall l',
  StronglySorted (key_le key) l -> StronglySorted (key_le key) l' ->
  Permutation l l' -> List.NoDup (List.map key l) -> l = l'.
Proof.
  induction l as [|a t IH]; intros l' Hs Hs' HP Hnd.
  - now apply Permutation_nil in HP.
  - destruct l' as [|b t']; [now apply Permutation_sym, Permutation_nil in HP|].
    inversion Hs as [|? ? Hst Ha]; subst. inversion Hs' as [|? ? Hst' Hb]; subst.
    simpl in Hnd. inversion Hnd as [|? ? Hna Hndt]; subst.
    rewrite List.Forall_forall in Ha, Hb.
    assert (Eab : a = b).
    { assert (Hin : In a (b :: t')) by (apply (Permutation_in _ HP); now left).
      destruct Hin as [->|Hin]; [reflexivity|].
      assert (Hin' : In b (a :: t))
        by (apply (Permutation_in _ (Permutation_sym HP)); now left).
      destruct Hin' as [->|Hin']; [reflexivity|]. exfalso.
      pose proof (Ha b Hin'). pose proof (Hb a Hin). unfold key_le in *.
      apply Hna. replace (key a) with (key b) by lia. now apply in_map. }
    subst b. f_equal. apply IH; try assumption.
    now apply Permutation_cons_inv in HP.
Qed.

Lemma js_sort_perm_unique l l' :
  keyed cmp key l -> Permutation l l' -> List.NoDup (List.map key l) ->
  js_sort cmp l = js_sort cmp l'.
Proof.
  intros Hk HP Hnd. apply sorted_perm_unique.
  - now apply js_sort_key_sorted.
  - apply js_sort_key_sorted. eapply keyed_incl; [|exact Hk].
    intros z Hz. now apply (Permutation_in _ (Permutation_sym HP)).
  - etransitivity; [apply js_sort_perm|].
    etransitivity; [exact HP|]. symmetry. apply js_sort_perm.
  - eapply Permutation_NoDup; [|exact Hnd].
    apply Permutation_map. symmetry. apply js_sort_perm.
Qed.
End SortByKey.

Lemma parseable_keyed getTime l :
  parseable getTime l = true -> keyed (by_createdAt getTime) (time_key getTime) l.
Proof.
  unfold parseable. rewrite forallb_forall. intros H a b Ha Hb.
  pose proof (H a Ha) as Pa. pose proof (H b Hb) as Pb.
  apply bool_decide_eq_true in Pa as [x Ex], Pb as [y Ey].
  unfold cmp_neg, by_createdAt, time_key. rewrite Ex, Ey. simpl.
  apply eq_iff_eq_true. rewrite !Z.ltb_lt. lia.
Qed.

Lemma filter_comm {A : Type} (P Q : A -> bool) (l : list A) :
  List.filter P (List.filter Q l) = List.filter Q (List.filter P l).
Proof.
  induction l as [|a l IH]; [reflexivity|]. simpl.
  destruct (P a) eqn:Pa, (Q a) eqn:Qa; simpl; rewrite ?Pa, ?Qa, IH; reflexivity.
Qed.

Lemma filter_flat_map {A B : Type} (P : B -> bool) (f : A -> list B) (l : list A) :
  List.filter P (flat_map f l) = flat_map (fun a => List.filter P (f a)) l.
Proof.
  induction l as [|a l IH]; [reflexivity|]. simpl.
  now rewrite List.filter_app, IH.
Qed.

Lemma flat_map_ext_in {A B : Type} (f g : A -> list B) (l : list A) :
  (forall a, In a l -> f a = g a) -> flat_map f l = flat_map g l.
Proof.
  induction l as [|a l IH]; intros H; [reflexivity|]. simpl.
  rewrite (H a (or_introl eq_refl)), IH; [reflexivity|]. intros; apply H; now right.
Qed.

Lemma filter_perm {A : Type} (P : A -> bool) (l l' : list A) :
  Permutation l l' -> Permutation (List.filter P l) (List.filter P l').
Proof.
  induction 1 as [|a l l' HP IH|a b l|l1 l2 l3 H1 IH1 H2 IH2]; simpl.
  - constructor.
  - destruct (P a); [now constructor|assumption].
  - destruct (P a), (P b); try reflexivity. apply perm_swap.
  - etransitivity; eassumption.
Qed.

Lemma flat_map_nil {A B : Type} (f : A -> list B) (l : list A) :
  (forall a, In a l -> f a = []) -> flat_map f l = [].
Proof.
  induction l as [|a l IH]; intros H; [reflexivity|]. simpl.
  rewrite (H a (or_introl eq_refl)). apply IH. intros; apply H; now right.
Qed.

Lemma flat_map_filter_kept {A B : Type} (P : A -> bool) (f g : A -> list B)
    (l : list A) :
  (forall a, In a l -> P a = true -> f a = g a) ->
  (forall a, In a l -> P a = false -> g a = []) ->
  flat_map f (List.filter P l) = flat_map g l.
Proof.
  induction l as [|a l IH]; intros Hk Hd; [reflexivity|]. simpl.
  destruct (P a) eqn:Pa; simpl.
  - rewrite (Hk a (or_introl eq_refl) Pa). f_equal.
    apply IH; [intros b Hb; apply Hk; now right|intros b Hb; apply Hd; now right].
  - rewrite (Hd a (or_introl eq_refl) Pa). simpl.
    apply IH; [intros b Hb; apply Hk; now right|intros b Hb; apply Hd; now right].
Qed.

(** ** Dropping comments from a collection *)

Section SubCollection.
Variable C : list Comment.
Hypothesis ids_unique : List.NoDup (List.map id C).
Variable keep : Comment -> bool.

Local Abbreviation R := (List.filter keep C).

Lemma sub_ids_unique : List.NoDup (List.map id R).
Proof. now apply NoDup_map_filter. Qed.

Lemma find_parent_sub c p :
  DiscussionThread.find_parent R c = Some p ->
  DiscussionThread.find_parent C c = Some p.
Proof.
  intros H. apply find_parent_Some in H as [Hp Ep].
  apply filter_In in Hp as [Hp _]. now apply find_parent_unique.
Qed.

Lemma ancestor_sub a c : ancestor R a c -> ancestor C a c.
Proof.
  induction 1 as [p c E|a p c Ha IH E].
  - constructor. now apply find_parent_sub.
  - apply (ancestor_step C a p c); [assumption|now apply find_parent_sub].
Qed.

Hypothesis no_cycle : acyclic C = true.

Lemma sub_acyclic : acyclic R = true.
Proof.
  apply (acyclic_spec R sub_ids_unique). intros c Hc Ha.
  apply filter_In in Hc as [Hc _]. apply ancestor_sub in Ha.
  now apply (proj1 (acyclic_spec C ids_unique) no_cycle c Hc).
Qed.

(** The kept comments keep their parents. *)
Hypothesis keeps_parents : forall c p,
  In c C -> keep c = true -> DiscussionThread.find_parent C c = Some p ->
  keep p = true.

Lemma find_parent_kept c :
  In c C -> keep c = true ->
  DiscussionThread.find_parent R c = DiscussionThread.find_parent C c.
Proof.
  intros Hc Hk. destruct (DiscussionThread.find_parent C c) as [p|] eqn:E.
  - pose proof (keeps_parents c p Hc Hk E) as Hp.
    apply find_parent_Some in E as [Hin Ep].
    apply find_parent_unique; [apply sub_ids_unique| |assumption].
    apply filter_In. auto.
  - destruct (DiscussionThread.find_parent R c) as [p|] eqn:E'; [|reflexivity].
    apply find_parent_sub in E'. congruence.
Qed.

Lemma is_root_kept c : In c C -> keep c = true -> is_root R c = is_root C c.
Proof.
  intros Hc Hk. apply eq_iff_eq_true.
  rewrite <- !find_parent_None, find_parent_kept by assumption. reflexivity.
Qed.

Lemma dropped_child c k :
  In c C -> In k C -> parentId k = Some (id c) -> keep c = false -> keep k = false.
Proof.
  intros Hc Hk Ep Hd. apply not_true_is_false. intros Hkk.
  pose proof (find_parent_unique C k c ids_unique Hc Ep) as E.
  rewrite (keeps_parents k c Hk Hkk E) in Hd. discriminate.
Qed.

Variable getTime : string -> option Z.
Hypothesis readable : parseable getTime C = true.

Lemma kids_kept c : kids getTime R c = List.filter keep (kids getTime C c).
Proof.
  unfold kids. rewrite filter_comm.
  apply (js_sort_filter _ (time_key getTime)).
  apply parseable_keyed. now apply parseable_filter.
Qed.

Lemma roots_kept : roots_of getTime R = List.filter keep (roots_of getTime C).
Proof.
  unfold roots_of.
  rewrite (filter_ext_in (is_root R) (is_root C) R).
  - rewrite filter_comm. apply (js_sort_filter _ (time_key getTime)).
    apply parseable_keyed. now apply parseable_filter.
  - intros c Hc. apply filter_In in Hc as [Hc Hk]. now apply is_root_kept.
Qed.

(** Nothing below a dropped comment is kept. *)
Lemma pre_dropped : forall fuel k,
  In k C -> keep k = false -> List.filter keep (pre getTime C fuel k) = [].
Proof.
  induction fuel as [|fuel IH]; intros k Hk Hd.
  - unfold pre. simpl. now rewrite Hd.
  - rewrite pre_S. simpl. rewrite Hd, filter_flat_map.
    apply flat_map_nil. intros j Hj. apply kids_In in Hj as [Hj Ep].
    apply IH; [assumption|]. now apply (dropped_child k j).
Qed.

(** The subtree of a kept comment in [R] is its subtree in [C] without
    the dropped comments. *)
Lemma pre_kept : forall fuel c,
  In c C -> keep c = true ->
  pre getTime R fuel c = List.filter keep (pre getTime C fuel c).
Proof.
  induction fuel as [|fuel IH]; intros c Hc Hk.
  - unfold pre. simpl. now rewrite Hk.
  - rewrite !pre_S. simpl. rewrite Hk. f_equal.
    rewrite kids_kept, filter_flat_map.
    apply flat_map_filter_kept; intros j Hj; apply kids_In in Hj as [Hj _].
    + intros Hkj. now apply IH.
    + intros Hdj. now apply pre_dropped.
Qed.

(** More fuel than the generations below [c] need changes nothing. *)
Lemma pre_fuel : forall fuel fuel' c,
  In c C ->
  (length C <= level C c + S fuel)%nat -> (length C <= level C c + S fuel')%nat ->
  pre getTime C fuel c = pre getTime C fuel' c.
Proof.
  induction fuel as [|fuel IH]; intros fuel' c Hc Hf Hf'.
  - pose proof (kids_bottom getTime C ids_unique no_cycle c Hc) as Hb.
    destruct fuel' as [|fuel']; [reflexivity|].
    rewrite pre_S, Hb by lia. reflexivity.
  - destruct fuel' as [|fuel'].
    + pose proof (kids_bottom getTime C ids_unique no_cycle c Hc) as Hb.
      rewrite pre_S, Hb by lia. reflexivity.
    + rewrite !pre_S. f_equal. apply flat_map_ext_in. intros k Hk.
      pose proof (kids_level getTime C ids_unique no_cycle c k Hc Hk) as Hl.
      apply kids_In in Hk as [Hk _]. apply IH; [assumption|lia..].
Qed.

End SubCollection.

Lemma flattenTree_forest getTime C fuel l :
  flattenTree (List.map (tree getTime C fuel) l) = flat_map (pre getTime C fuel) l.
Proof.
  rewrite flattenTree_spec.
  induction l as [|c l IH]; simpl; [reflexivity|]. now rewrite IH.
Qed.

Lemma filter_length_le {A : Type} (P : A -> bool) (l : list A) :
  (length (List.filter P l) <= length l)%nat.
Proof.
  induction l as [|a l IH]; simpl; [lia|]. destruct (P a); simpl; lia.
Qed.

(** Dropping comments together with everything below them drops them
    from the pre-order listing of the forest and changes nothing else. *)
Lemma forest_pruned (getTime : string -> option Z) (C : list Comment)
    (keep : Comment -> bool) :
  List.NoDup (List.map id C) -> acyclic C = true ->
  (forall c p, In c C -> keep c = true ->
     DiscussionThread.find_parent C c = Some p -> keep p = true) ->
  parseable getTime C = true ->
  let R := List.filter keep C in
  flattenTree (List.map (tree getTime R (length R)) (roots_of getTime R))
  = List.filter keep
      (flattenTree (List.map (tree getTime C (length C)) (roots_of getTime C))).
Proof.
  intros Hnd Hac Hkp Hp R. rewrite !flattenTree_forest.
  pose proof (sub_ids_unique C Hnd keep) as HndR.
  pose proof (sub_acyclic C Hnd keep Hac) as HacR.
  rewrite (flat_map_ext_in (pre getTime R (length R)) (pre getTime R (length C))).
  - unfold R. rewrite (roots_kept C Hnd keep Hkp getTime Hp), filter_flat_map.
    apply flat_map_filter_kept; intros c Hc; apply roots_of_In in Hc as [Hc _].
    + intros Hk. now apply pre_kept.
    + intros Hd. now apply pre_dropped.
  - intros c Hc. apply roots_of_In in Hc as [Hc _].
    pose proof (filter_length_le keep C).
    apply pre_fuel; try assumption; subst R; lia.
Qed.

(** ** Collections that stay well-formed and parents-first *)

Lemma well_formed_fold C :
  List.NoDup (List.map id C) -> acyclic C = true -> well_formed C = true.
Proof.
  intros Hnd Hac. unfold well_formed, unique_ids. rewrite Hac, andb_true_r.
  apply bool_decide_eq_true_2. clear Hac.
  induction Hnd; constructor; [|assumption]. now rewrite list_elem_of_In.
Qed.

Lemma ancestor_In C a c : ancestor C a c -> In a C.
Proof. induction 1 as [p c E|]; [now apply find_parent_Some in E|assumption]. Qed.

Lemma well_formed_filter (P : Comment -> bool) C :
  well_formed C = true -> well_formed (List.filter P C) = true.
Proof.
  intros Hwf. apply well_formed_unfold in Hwf as [Hnd Hac].
  apply well_formed_fold; [now apply sub_ids_unique|now apply sub_acyclic].
Qed.

(** [parents_first], by positions: a parent that is in the collection
    stands before its child. *)
Lemma parents_first_from_spec all : forall l seen,
  parents_first_from all seen l = true <->
  forall l1 c l2 pid,
    l = l1 ++ c :: l2 -> parentId c = Some pid -> In pid all ->
    In pid (seen ++ List.map id l1).
Proof.
  induction l as [|c0 l IH]; intros seen; simpl.
  - split; [|reflexivity]. intros _ [|? ?] ? ? ? E; discriminate E.
  - rewrite andb_true_iff, IH. split.
    + intros [H0 H] [|c1 l1] c l2 pid E Ep Hin; simpl in E; injection E as ? ?; subst.
      * rewrite Ep in H0. apply orb_true_iff in H0 as [H0|H0].
        -- apply bool_decide_eq_true in H0. rewrite app_nil_r.
           now apply list_elem_of_In.
        -- apply negb_true_iff, bool_decide_eq_false in H0. exfalso.
           now apply H0, list_elem_of_In.
      * specialize (H l1 c l2 pid eq_refl Ep Hin).
        simpl. now rewrite <- app_assoc in H.
    + intros H. split.
      * destruct (parentId c0) as [pid|] eqn:Ep; [|reflexivity].
        destruct (decide (pid ∈ all)) as [Hin|Hout].
        -- apply orb_true_iff. left. apply bool_decide_eq_true_2, list_elem_of_In.
           apply list_elem_of_In in Hin.
           specialize (H [] c0 l pid eq_refl Ep Hin). now rewrite app_nil_r in H.
        -- apply orb_true_iff. right.
           now apply negb_true_iff, bool_decide_eq_false_2.
      * intros l1 c l2 pid -> Ep Hin.
        specialize (H (c0 :: l1) c l2 pid eq_refl Ep Hin).
        simpl in H. now rewrite <- app_assoc.
Qed.

Lemma parents_first_spec C :
  parents_first C = true <->
  forall l1 c l2 pid,
    C = l1 ++ c :: l2 -> parentId c = Some pid -> In pid (List.map id C) ->
    In pid (List.map id l1).
Proof. unfold parents_first. now rewrite parents_first_from_spec. Qed.

Lemma filter_split {A : Type} (P : A -> bool) (l : list A) : forall l1 c l2,
  List.filter P l = l1 ++ c :: l2 ->
  exists k1 k2, l = k1 ++ c :: k2 /\ List.filter P k1 = l1 /\ List.filter P k2 = l2.
Proof.
  induction l as [|a l IH]; intros l1 c l2 E; simpl in E.
  - destruct l1; discriminate E.
  - destruct (P a) eqn:Pa.
    + destruct l1 as [|b l1]; simpl in E; injection E as -> E.
      * exists [], l. simpl. auto.
      * destruct (IH _ _ _ E) as (k1 & k2 & -> & <- & <-).
        exists (b :: k1), k2. simpl. now rewrite Pa.
    + destruct (IH _ _ _ E) as (k1 & k2 & -> & <- & <-).
      exists (a :: k1), k2. simpl. now rewrite Pa.
Qed.

Lemma app_split {A : Type} (R D : list A) : forall l1 c l2,
  R ++ D = l1 ++ c :: l2 ->
  (exists r2, R = l1 ++ c :: r2 /\ l2 = r2 ++ D) \/
  (exists d1, l1 = R ++ d1 /\ D = d1 ++ c :: l2).
Proof.
  induction R as [|a R IH]; intros l1 c l2 E; simpl in E.
  - right. exists l1. auto.
  - destruct l1 as [|b l1]; simpl in E; injection E as -> E.
    + left. exists R. auto.
    + destruct (IH _ _ _ E) as [(r2 & -> & ->)|(d1 & -> & ->)].
      * left. exists r2. auto.
      * right. exists d1. auto.
Qed.

Lemma id_in_filter (P : Comment -> bool) (C k : list Comment) (p : Comment) :
  List.NoDup (List.map id C) -> incl k C -> In p k ->
  In (id p) (List.map id (List.filter P C)) -> In p (List.filter P k).
Proof.
  intros Hnd Hk Hp Hin. apply in_map_iff in Hin as (q & Eq & Hq).
  apply filter_In in Hq as [Hq Pq].
  rewrite (unique_id_eq C q p Hnd Hq (Hk p Hp) Eq) in Pq.
  apply filter_In. auto.
Qed.

(** Removing comments keeps the order of the others. *)
Lemma parents_first_filter (P : Comment -> bool) C :
  List.NoDup (List.map id C) ->
  parents_first C = true -> parents_first (List.filter P C) = true.
Proof.
  intros Hnd Hpf. rewrite parents_first_spec in Hpf. apply parents_first_spec.
  intros l1 c l2 pid E Ep Hin.
  destruct (filter_split P C _ _ _ E) as (k1 & k2 & EC & <- & _).
  assert (HinC : In pid (List.map id C)).
  { apply in_map_iff in Hin as (q & Eq & Hq). apply filter_In in Hq as [Hq _].
    rewrite <- Eq. now apply in_map. }
  specialize (Hpf k1 c k2 pid EC Ep HinC).
  apply in_map_iff in Hpf as (p & <- & Hp). apply in_map.
  apply (id_in_filter P C k1 p Hnd); try assumption.
  intros x Hx. rewrite EC. apply in_or_app. now left.
Qed.

(** A rolled-back delete: the dropped comments return behind the kept
    ones.  When what was dropped is closed under replies, parents still
    come first. *)
Lemma parents_first_rollback (s : Comment -> bool) C :
  List.NoDup (List.map id C) ->
  (forall c p, In c C -> DiscussionThread.find_parent C c = Some p ->
     s p = true -> s c = true) ->
  parents_first C = true ->
  parents_first (List.filter (fun c => negb (s c)) C ++ List.filter s C) = true.
Proof.
  intros Hnd Hs Hpf. rewrite parents_first_spec in Hpf. apply parents_first_spec.
  intros l1 c l2 pid E Ep Hin.
  assert (HinC : In pid (List.map id C)).
  { rewrite map_app in Hin. apply in_app_or in Hin as [Hin|Hin];
      apply in_map_iff in Hin as (q & <- & Hq); apply filter_In in Hq as [Hq _];
      now apply in_map. }
  apply app_split in E as [(r2 & E & _)|(d1 & -> & E)].
  - assert (Hc : In c C /\ s c = false).
    { assert (H : In c (List.filter (fun c => negb (s c)) C))
        by (rewrite E; apply in_or_app; right; now left).
      apply filter_In in H as [H Hk]. now apply negb_true_iff in Hk. }
    destruct Hc as [Hc Hsc].
    destruct (filter_split _ C _ _ _ E) as (k1 & k2 & EC & <- & _).
    specialize (Hpf k1 c k2 pid EC Ep HinC).
    apply in_map_iff in Hpf as (p & <- & Hp). apply in_map, filter_In.
    split; [assumption|]. apply negb_true_iff, not_true_is_false. intros Hsp.
    assert (HpC : In p C) by (rewrite EC; apply in_or_app; now left).
    rewrite (Hs c p Hc (find_parent_unique C c p Hnd HpC Ep) Hsp) in Hsc.
    discriminate.
  - destruct (filter_split _ C _ _ _ E) as (k1 & k2 & EC & <- & _).
    specialize (Hpf k1 c k2 pid EC Ep HinC).
    apply in_map_iff in Hpf as (p & <- & Hp). apply in_map, in_or_app.
    assert (HpC : In p C) by (rewrite EC; apply in_or_app; now left).
    destruct (s p) eqn:Hsp.
    + right. apply filter_In. auto.
    + left. apply filter_In. rewrite Hsp. auto.
Qed.

Lemma find_app {A : Type} (f : A -> bool) (l l' : list A) :
  List.find f (l ++ l')
  = match List.find f l with Some x => Some x | None => List.find f l' end.
Proof.
  induction l as [|a l IH]; [reflexivity|]. simpl. now destruct (f a).
Qed.

(** ** A comment appended under a fresh id *)

Section Appended.
Variable C : list Comment.
Variable o : Comment.
Hypothesis fresh : forall c, In c C -> id c <> id o.
Hypothesis unnamed : forall c, In c C -> parentId c <> Some (id o).
Hypothesis not_own_parent : parentId o <> Some (id o).

Lemma find_parent_snoc c :
  parentId c <> Some (id o) ->
  DiscussionThread.find_parent (C ++ [o]) c = DiscussionThread.find_parent C c.
Proof.
  intros Hc. unfold DiscussionThread.find_parent. rewrite find_app.
  destruct (List.find _ C); [reflexivity|]. simpl.
  rewrite bool_decide_eq_false_2; [reflexivity|]. congruence.
Qed.

Lemma ancestor_snoc a c :
  ancestor (C ++ [o]) a c -> parentId c <> Some (id o) -> ancestor C a c.
Proof.
  induction 1 as [p c E|a p c Ha IH E]; intros Hc;
    rewrite find_parent_snoc in E by assumption.
  - now constructor.
  - apply (ancestor_step C a p c); [|assumption].
    apply IH, unnamed. now apply find_parent_Some in E.
Qed.

Lemma snoc_ids_unique :
  List.NoDup (List.map id C) -> List.NoDup (List.map id (C ++ [o])).
Proof.
  generalize fresh. clear.
  induction C as [|a l IH]; intros fresh Hnd; simpl.
  - repeat constructor. intros [].
  - simpl in Hnd. inversion Hnd as [|? ? Hna Hnd']; subst. constructor.
    + rewrite map_app, in_app_iff. intros [H|[H|[]]]; [tauto|].
      apply (fresh a); [now left|congruence].
    + apply IH; [|assumption]. intros c Hc. apply fresh. now right.
Qed.

Lemma well_formed_snoc : well_formed C = true -> well_formed (C ++ [o]) = true.
Proof.
  intros Hwf. apply well_formed_unfold in Hwf as [Hnd Hac].
  pose proof (snoc_ids_unique Hnd) as Hnd'.
  apply well_formed_fold; [assumption|].
  apply (acyclic_spec _ Hnd'). intros c Hc Ha.
  apply in_app_or in Hc as [Hc|[<-|[]]].
  - apply ancestor_snoc in Ha; [|now apply unnamed].
    now apply (proj1 (acyclic_spec C Hnd) Hac c Hc).
  - apply ancestor_snoc in Ha; [|assumption].
    apply ancestor_In in Ha. now apply (fresh _ Ha).
Qed.

Lemma parents_first_snoc :
  parents_first C = true -> parents_first (C ++ [o]) = true.
Proof.
  intros Hpf. rewrite parents_first_spec in Hpf. apply parents_first_spec.
  intros l1 c l2 pid E Ep Hin.
  rewrite map_app in Hin. simpl in Hin.
  apply app_split in E as [(r2 & E & _)|(d1 & -> & E)].
  - assert (Hc : In c C) by (rewrite E; apply in_or_app; right; now left).
    apply (Hpf l1 c r2 pid E Ep).
    apply in_app_or in Hin as [Hin|[<-|[]]]; [assumption|].
    now apply unnamed in Hc.
  - destruct d1 as [|x d1]; simpl in E.
    + injection E as <- _. rewrite app_nil_r.
      apply in_app_or in Hin as [Hin|[<-|[]]]; [assumption|]. congruence.
    + injection E as _ E. destruct d1; discriminate E.
Qed.
End Appended.

(** ** A comment replaced under a fresh id *)

Section Replaced.
Variable C : list Comment.
Variable tmp : string.
Variable server : Comment.

Local Abbreviation confirm :=
  (fun c : Comment => if bool_decide (id c = tmp) then server else c).

Hypothesis ids_unique : List.NoDup (List.map id C).
Hypothesis fresh : forall c, In c C -> id c <> id server.
Hypothesis unnamed : forall c, In c C -> parentId c <> Some (id server).
Hypothesis same_parent : forall c, In c C -> id c = tmp -> parentId c = parentId server.

Lemma confirm_parentId c : In c C -> parentId (confirm c) = parentId c.
Proof.
  intros Hc. cbv beta. case_bool_decide as E; [|reflexivity].
  symmetry. now apply same_parent.
Qed.

Lemma confirm_inj a b : In a C -> In b C -> id (confirm a) = id (confirm b) -> a = b.
Proof.
  intros Ha Hb. cbv beta. repeat case_bool_decide; intros E.
  - apply (unique_id_eq C a b ids_unique Ha Hb). congruence.
  - exfalso. apply (fresh b Hb). congruence.
  - exfalso. apply (fresh a Ha). congruence.
  - now apply (unique_id_eq C a b ids_unique Ha Hb).
Qed.

Lemma replace_ids_unique : List.NoDup (List.map id (List.map confirm C)).
Proof.
  assert (H : forall l, incl l C -> List.NoDup (List.map id l) ->
                        List.NoDup (List.map id (List.map confirm l))).
  { induction l as [|a l IH]; intros Hl Hnd; simpl; [constructor|].
    simpl in Hnd. inversion Hnd as [|? ? Hna Hnd']; subst. constructor.
    - intros Hin. apply in_map_iff in Hin as (b' & Eb & Hb').
      apply in_map_iff in Hb' as (b & <- & Hb).
      assert (b = a).
      { apply confirm_inj; [apply Hl; now right|apply Hl; now left|exact Eb]. }
      subst b. apply Hna. now apply in_map.
    - apply IH; [|assumption]. intros x Hx. apply Hl. now right. }
  apply H; [intros x Hx; exact Hx|exact ids_unique].
Qed.

Lemma find_parent_replace c p' :
  In c C ->
  DiscussionThread.find_parent (List.map confirm C) (confirm c) = Some p' ->
  exists p, In p C /\ p' = confirm p /\ DiscussionThread.find_parent C c = Some p.
Proof.
  intros Hc E. apply find_parent_Some in E as [Hp' Ep].
  apply in_map_iff in Hp' as (p & <- & Hp). exists p.
  rewrite confirm_parentId in Ep by assumption.
  split; [assumption|]. split; [reflexivity|].
  apply find_parent_unique; try assumption.
  case_bool_decide as Et; [|assumption]. exfalso. now apply (unnamed c Hc).
Qed.

Lemma ancestor_replace a' c' :
  ancestor (List.map confirm C) a' c' ->
  forall c, In c C -> c' = confirm c ->
  exists a, In a C /\ a' = confirm a /\ ancestor C a c.
Proof.
  induction 1 as [p' c' E|a' p' c' Ha IH E]; intros c Hc ->.
  - apply find_parent_replace in E as (p & Hp & -> & E); [|assumption].
    exists p. split; [assumption|]. split; [reflexivity|]. now constructor.
  - apply find_parent_replace in E as (p & Hp & -> & E); [|assumption].
    destruct (IH p Hp eq_refl) as (a & Hin & -> & Hanc).
    exists a. split; [assumption|]. split; [reflexivity|].
    now apply (ancestor_step C a p c).
Qed.

Lemma well_formed_replace :
  acyclic C = true -> well_formed (List.map confirm C) = true.
Proof.
  intros Hac. apply well_formed_fold; [apply replace_ids_unique|].
  apply (acyclic_spec _ replace_ids_unique). intros c' Hc' Ha.
  apply in_map_iff in Hc' as (c & <- & Hc).
  destruct (ancestor_replace _ _ Ha c Hc eq_refl) as (a & Hin & Ea & Hanc).
  assert (a = c) by (apply confirm_inj; [assumption..|now rewrite Ea]).
  subst a. now apply (proj1 (acyclic_spec C ids_unique) Hac c Hc).
Qed.

Lemma parents_first_replace :
  parents_first C = true -> parents_first (List.map confirm C) = true.
Proof.
  intros Hpf. rewrite parents_first_spec in Hpf. apply parents_first_spec.
  intros l1' c' l2' pid E Ep Hin.
  apply map_eq_app in E as (l1 & m & EC & <- & Em).
  apply map_eq_cons in Em as (c & l2 & -> & <- & _).
  assert (Hc : In c C) by (rewrite EC; apply in_or_app; right; now left).
  rewrite confirm_parentId in Ep by assumption.
  apply in_map_iff in Hin as (q' & Eq & Hq').
  apply in_map_iff in Hq' as (q & <- & Hq).
  assert (Hq_tmp : id q <> tmp).
  { intros Et. rewrite bool_decide_eq_true_2 in Eq by assumption.
    apply (unnamed c Hc). congruence. }
  rewrite bool_decide_eq_false_2 in Eq by assumption.
  assert (HinC : In pid (List.map id C)) by (rewrite <- Eq; now apply in_map).
  specialize (Hpf l1 c l2 pid EC Ep HinC).
  apply in_map_iff in Hpf as (p & Epid & Hp).
  apply in_map_iff. exists (confirm p). split; [|exact (in_map confirm l1 p Hp)].
  cbv beta. rewrite bool_decide_eq_false_2; [assumption|]. congruence.
Qed.
End Replaced.

(** ** The forest does not depend on the order of the collection *)

Lemma distinct_keys getTime C :
  parseable getTime C = true -> distinct_times getTime C = true ->
  List.NoDup (List.map (time_key getTime) C).
Proof.
  unfold parseable, distinct_times. rewrite forallb_forall, bool_decide_eq_true.
  induction C as [|a l IH]; intros Hp Hd; simpl; [constructor|].
  simpl in Hd. apply NoDup_cons in Hd as [Hna Hd]. constructor.
  - intros Hin. apply Hna. apply in_map_iff in Hin as (b & Eb & Hb).
    apply list_elem_of_In, in_map_iff. exists b. split; [|assumption].
    pose proof (Hp a (or_introl eq_refl)) as Pa.
    pose proof (Hp b (or_intror Hb)) as Pb.
    apply bool_decide_eq_true in Pa as [x Ex], Pb as [y Ey].
    unfold time_key in Eb. rewrite Ex, Ey in Eb |- *. simpl in Eb. congruence.
  - apply IH; [|assumption]. intros c Hc. apply Hp. now right.
Qed.

Lemma is_root_perm C C' c : Permutation C C' -> is_root C' c = is_root C c.
Proof.
  intros HP. unfold is_root. destruct (parentId c) as [pid|]; [|reflexivity].
  f_equal. apply bool_decide_ext. rewrite !list_elem_of_In.
  split; apply Permutation_in; [symmetry|]; now apply Permutation_map.
Qed.

Section OrderIndependent.
Variable getTime : string -> option Z.
Variables C C' : list Comment.
Hypothesis readable : parseable getTime C = true.
Hypothesis no_ties : distinct_times getTime C = true.
Hypothesis same : Permutation C C'.

Lemma sort_perm (P : Comment -> bool) :
  js_sort (by_createdAt getTime) (List.filter P C')
  = js_sort (by_createdAt getTime) (List.filter P C).
Proof.
  symmetry. apply (js_sort_perm_unique _ (time_key getTime)).
  - apply parseable_keyed. now apply parseable_filter.
  - now apply filter_perm.
  - apply NoDup_map_filter. now apply distinct_keys.
Qed.

Lemma kids_perm c : kids getTime C' c = kids getTime C c.
Proof. apply sort_perm. Qed.

Lemma roots_perm : roots_of getTime C' = roots_of getTime C.
Proof.
  unfold roots_of. rewrite <- sort_perm. f_equal.
  apply filter_ext. intros c. now apply is_root_perm.
Qed.

Lemma pre_perm : forall fuel c, pre getTime C' fuel c = pre getTime C fuel c.
Proof.
  induction fuel as [|fuel IH]; intros c; [reflexivity|].
  rewrite !pre_S, kids_perm. f_equal. apply flat_map_ext_in. intros k _. apply IH.
Qed.

Lemma forest_perm_invariant :
  flattenTree (List.map (tree getTime C' (length C')) (roots_of getTime C'))
  = flattenTree (List.map (tree getTime C (length C)) (roots_of getTime C)).
Proof.
  rewrite !flattenTree_forest, roots_perm, <- (Permutation_length same).
  apply flat_map_ext_in. intros c _. apply pre_perm.
Qed.
End OrderIndependent.

(** ** The [depth] field in any order *)

Section DepthBound.
Variable C : list Comment.
Hypothesis ids_unique : List.NoDup (List.map id C).
Hypothesis no_cycle : acyclic C = true.

(** What holds of the [depth] of a linked comment. *)
Local Abbreviation bounded :=
  (fun (m : gmap string NodeObj) (c : Comment) =>
     exists d, obj_depth <$> m !! id c = Some d /\
               (d <= level C c)%nat /\ (is_root C c = false -> (1 <= d)%nat)).

Lemma link_depth_bound_invariant : forall todo done m roots m' roots',
  C = done ++ todo ->
  (forall k, obj_comment <$> m !! k = obj_comment <$> foldl index_step ∅ C !! k) ->
  (forall c, In c done -> bounded m c) ->
  (forall c, In c todo -> obj_depth <$> m !! id c = Some 0%nat) ->
  foldl link_step (m, roots) todo = (m', roots') ->
  forall c, In c C -> bounded m' c.
Proof.
  induction todo as [|c0 todo IH];
    intros done m roots m' roots' HC Hcom Hdone Htodo E.
  - injection E as <- <-. rewrite app_nil_r in HC. subst done. exact Hdone.
  - change (foldl link_step (link_step (m, roots) c0) todo = (m', roots')) in E.
    destruct (link_step (m, roots) c0) as [m1 roots1] eqn:E1.
    pose proof (link_step_depth _ _ _ _ _ E1) as Hd.
    apply link_step_spec in E1 as (Hc1 & _ & _).
    assert (Hc0 : In c0 C) by (rewrite HC; apply in_or_app; right; now left).
    assert (Hnd : List.NoDup (List.map id done ++ id c0 :: List.map id todo)).
    { rewrite HC, map_app in ids_unique. exact ids_unique. }
    assert (Hother : forall c, In c done \/ In c todo -> id c0 <> id c).
    { intros c Hc Heq. apply NoDup_remove_2 in Hnd. apply Hnd.
      rewrite Heq. apply in_or_app. destruct Hc; [left|right]; now apply in_map. }
    assert (Hstay : forall c, In c done \/ In c todo ->
              obj_depth <$> m1 !! id c = obj_depth <$> m !! id c).
    { intros c Hc. rewrite Hd.
      destruct (parentId c0); [|reflexivity]. destruct (m !! s); [|reflexivity].
      rewrite decide_False; [reflexivity|]. now apply Hother. }
    apply (IH (done ++ [c0]) m1 roots1 m' roots').
    + now rewrite <- app_assoc.
    + intros k. now rewrite Hc1.
    + intros c Hc. apply in_app_or in Hc as [Hc|[<-|[]]].
      * destruct (Hdone c Hc) as (d & Ed & Hb). exists d.
        rewrite Hstay by now left. auto.
      * rename c0 into c. rewrite Hd.
        pose proof (Htodo c (or_introl eq_refl)) as H0.
        pose proof (is_root_absent C c ids_unique) as Habs.
        rewrite <- (absent_parent_ext _ m c Hcom) in Habs.
        unfold absent_parent in Habs.
        destruct (parentId c) as [pid|] eqn:Ep.
        -- destruct (m !! pid) as [parent|] eqn:Em.
           ++ rewrite decide_True by reflexivity.
              destruct (m !! id c); [|discriminate]. simpl.
              exists (obj_depth parent + 1)%nat. split; [reflexivity|].
              split; [|lia].
              assert (Hpid : In pid (List.map id C)).
              { destruct (decide (pid ∈ List.map id C)) as [Hin|Hout];
                  [now apply list_elem_of_In|]. exfalso.
                specialize (Hcom pid). rewrite Em in Hcom.
                rewrite index_fold_other, lookup_empty in Hcom; [discriminate|].
                now rewrite <- list_elem_of_In. }
              apply in_map_iff in Hpid as (p & Eid & Hp).
              rewrite (level_child C ids_unique no_cycle c p Hc0 Hp) by congruence.
              assert (Hdp : (obj_depth parent <= level C p)%nat).
              { rewrite HC in Hp. apply in_app_or in Hp as [Hp|Hp].
                - destruct (Hdone p Hp) as (d & Ed & Hle & _).
                  rewrite Eid, Em in Ed. injection Ed as <-. exact Hle.
                - pose proof (Htodo p Hp) as Ed. rewrite Eid, Em in Ed.
                  injection Ed as ->. lia. }
              lia.
           ++ exists 0%nat. split; [assumption|]. split; [lia|].
              intros Hr. rewrite <- Habs in Hr.
              now rewrite bool_decide_eq_true_2 in Hr.
        -- exists 0%nat. split; [assumption|]. split; [lia|].
           intros Hr. rewrite <- Habs in Hr. discriminate.
    + intros c Hc. rewrite Hstay by now right. apply Htodo. now right.
    + exact E.
Qed.

(** The [depth] field never exceeds the number of hops to the root, and
    it is 0 exactly on the roots. *)
Lemma link_depth_bound c :
  In c C ->
  (link_depth C (id c) <= level C c)%nat /\
  (link_depth C (id c) = 0%nat <-> is_root C c = true).
Proof.
  intros Hc. unfold link_depth.
  destruct (linked C) as [m' roots'] eqn:E. unfold linked in E. simpl.
  assert (H : bounded m' c).
  { apply (link_depth_bound_invariant C [] (foldl index_step ∅ C) [] m' roots');
      try assumption; try reflexivity.
    - intros c' [].
    - intros c' Hc'. now rewrite (index_fold_lookup C ∅ c' ids_unique Hc'). }
  destruct H as (d & Ed & Hle & Hge).
  destruct (m' !! id c) as [n|]; simpl in *; [|discriminate].
  injection Ed as ->. split; [assumption|].
  pose proof (level_root C ids_unique no_cycle c Hc) as Hr. split.
  - intros E0. destruct (is_root C c); [reflexivity|]. specialize (Hge eq_refl). lia.
  - intros Hroot. apply Hr in Hroot. lia.
Qed.

Lemma tree_subnodes_depth (getTime : string -> option Z) : forall fuel c n,
  In n (subnodes (tree getTime C fuel c)) ->
  depth n = link_depth C (id (node_comment n)).
Proof.
  induction fuel as [|fuel IH]; intros c n Hn.
  - simpl in Hn. destruct Hn as [<-|[]]. reflexivity.
  - cbn [tree subnodes] in Hn. destruct Hn as [<-|Hn]; [reflexivity|].
    apply in_flat_map in Hn as (t & Ht & Hn).
    apply in_map_iff in Ht as (k & <- & Hk). now apply (IH k).
Qed.
End DepthBound.

Lemma maxDepth_fold_spec forest : forall acc,
  foldl (fun m node => maxDepth_traverse node m) acc forest
  = Nat.max acc (list_max (List.map depth (flat_map subnodes forest))).
Proof.
  induction forest as [|n forest IH]; intros acc; cbn [foldl flat_map].
  - simpl. now rewrite Nat.max_0_r.
  - rewrite maxDepth_traverse_spec, IH, map_app, list_max_app.
    now rewrite Nat.max_assoc.
Qed.

(** ** The coordinator's delete on a well-formed collection *)

Lemma subtree_keeps_parents C target :
  well_formed C = true ->
  forall c p, In c C -> DiscussionThread.find_parent C c = Some p ->
    in_subtree C target p = true -> in_subtree C target c = true.
Proof.
  intros Hwf c p Hc E Hp. apply find_parent_Some in E as [HpC Ep].
  apply in_subtree_closure; try assumption.
  apply (closure_reply C target p c); try assumption.
  now apply in_subtree_closure in Hp.
Qed.

Lemma optimistic_delete C target (st : DiscussionThread.State) :
  well_formed C = true -> DiscussionThread.comments st = C ->
  exists st1 settle,
    DiscussionThread.handleDelete true C target st
    = Some (st1, Some (List.filter (in_subtree C target) C, settle)) /\
    DiscussionThread.comments st1
    = List.filter (fun c => negb (in_subtree C target c)) C /\
    forall cur, DiscussionThread.comments (settle None cur)
                = DiscussionThread.comments cur ++ List.filter (in_subtree C target) C.
Proof.
  intros Hwf Hst. unfold DiscussionThread.handleDelete. cbn [negb].
  rewrite (deletedComments_spec C target Hwf). cbn [mbind option_bind].
  do 2 eexists. split; [reflexivity|].
  cbn [DiscussionThread.comments DiscussionThread.issue DiscussionThread.setComments
       DiscussionThread.alert].
  split; [|reflexivity]. rewrite Hst.
  apply filter_ext_in. intros c Hc. now rewrite includes_filter.
Qed.

Lemma flattenTree_In forest c :
  In c (flattenTree forest) <->
  exists n, In n (flat_map subnodes forest) /\ node_comment n = c.
Proof.
  rewrite flattenTree_spec, in_flat_map. setoid_rewrite in_flat_map. split.
  - intros (t & Ht & Hc). rewrite node_list_subnodes in Hc.
    apply in_map_iff in Hc as (n & <- & Hn). exists n. split; [|reflexivity].
    now exists t.
  - intros (n & (t & Ht & Hn) & <-). exists t. split; [assumption|].
    rewrite node_list_subnodes. now apply in_map.
Qed.

Lemma store_id_not_temporary (env store_env : Env) (parent content author : string)
    (p : option string) (c a : string) (o : option bool) (s : CommentService.Storage) :
  id (CommentService.addComment store_env p c a o s).1
  <> id (DiscussionThread.optimisticComment env parent content author).
Proof. unfold CommentService.addComment. destruct s; discriminate. Qed.

Lemma erase_depth_tree_perm getTime C C' :
  parseable getTime C = true -> distinct_times getTime C = true ->
  Permutation C C' ->
  forall fuel c,
    erase_depth (tree getTime C' fuel c) = erase_depth (tree getTime C fuel c).
Proof.
  intros Hp Hd HP. induction fuel as [|fuel IH]; intros c; [reflexivity|].
  simpl. f_equal. rewrite (kids_perm getTime C C' Hp Hd HP), !map_map.
  apply map_ext. intros k. apply IH.
Qed.

Lemma level_perm C C' c :
  List.NoDup (List.map id C) -> Permutation C C' -> level C' c = level C c.
Proof.
  intros Hnd HP. unfold level.
  now rewrite <- (Permutation_length HP), (hops_perm C C' Hnd HP).
Qed.

Lemma tree_perm getTime C C' :
  well_formed C = true -> parseable getTime C = true ->
  distinct_times getTime C = true -> Permutation C C' ->
  parents_first C = true -> parents_first C' = true ->
  forall fuel c, In c C -> tree getTime C' fuel c = tree getTime C fuel c.
Proof.
  intros Hwf Hp Hd HP Hpf Hpf'.
  pose proof (well_formed_perm C C' HP Hwf) as Hwf'.
  apply well_formed_unfold in Hwf as [Hnd Hac].
  apply well_formed_unfold in Hwf' as [Hnd' Hac'].
  assert (Hdepth : forall c, In c C -> link_depth C' (id c) = link_depth C (id c)).
  { intros c Hc.
    rewrite (link_depth_level C Hnd Hac Hpf c Hc).
    rewrite (link_depth_level C' Hnd' Hac' Hpf' c (Permutation_in _ HP Hc)).
    now apply level_perm. }
  induction fuel as [|fuel IH]; intros c Hc; simpl; rewrite (Hdepth c Hc);
    [reflexivity|].
  f_equal. rewrite (kids_perm getTime C C' Hp Hd HP).
  apply map_ext_in. intros k Hk. apply IH. now apply kids_In in Hk.
Qed.

Lemma list_max_bound (l : list nat) (b : nat) :
  (forall x, In x l -> (x <= b)%nat) -> (list_max l <= b)%nat.
Proof.
  intros H. induction l as [|a l IH]; simpl; [lia|].
  apply Nat.max_lub; [apply H; now left|]. apply IH. intros; apply H; now right.
Qed.

Lemma list_max_In (l : list nat) (x : nat) : In x l -> (x <= list_max l)%nat.
Proof.
  induction l as [|a l IH]; simpl; [intros []|].
  intros [->|H]; [lia|]. specialize (IH H). lia.
Qed.

Lemma getMaxDepth_bound forest (b : nat) :
  (forall n, In n (flat_map subnodes forest) -> (depth n <= b)%nat) ->
  (getMaxDepth forest <= b)%nat.
Proof.
  intros H. unfold getMaxDepth. destruct forest as [|t forest]; [lia|].
  rewrite maxDepth_fold_spec. simpl Nat.max. apply list_max_bound.
  intros x Hx. apply in_map_iff in Hx as (n & <- & Hn). now apply H.
Qed.

Lemma forest_depths (getTime : string -> option Z) (C : list Comment) :
  well_formed C = true -> parents_first C = true ->
  buildTree getTime C
  = Some (List.map (tree getTime C (length C)) (roots_of getTime C)) /\
  forallb (depth_is_distance 0)
    (List.map (tree getTime C (length C)) (roots_of getTime C)) = true.
Proof.
  intros Hwf Hpf. apply well_formed_unfold in Hwf as [Hnd Hac].
  split; [now apply buildTree_spec|].
  apply forallb_forall. intros t Ht. apply in_map_iff in Ht as (c & <- & Hc).
  apply roots_of_In in Hc as [Hc Hr].
  apply (level_root C Hnd Hac c Hc) in Hr. rewrite <- Hr.
  now apply tree_depth_is_distance.
Qed.

Lemma orderly_intro getTime l :
  well_formed l = true -> parents_first l = true -> orderly getTime l.
Proof.
  intros Hwf Hpf. split; [assumption|]. split; [assumption|].
  eexists. now apply forest_depths.
Qed.

Lemma server_parentId (store_env : Env) (p : option string) (c a : string)
    (o : option bool) (s : CommentService.Storage) :
  parentId (CommentService.addComment store_env p c a o s).1 = p.
Proof. unfold CommentService.addComment. now destruct s. Qed.

(** ** [trim] *)

Lemma trim_start_nil l :
  CommentItem.trim_start l = [] <-> forallb CommentItem.is_white_space l = true.
Proof.
  induction l as [|c l IH]; simpl; [tauto|].
  destruct (CommentItem.is_white_space c); simpl; [exact IH|].
  split; discriminate.
Qed.

Lemma trim_start_head l c r :
  CommentItem.trim_start l = c :: r -> CommentItem.is_white_space c = false.
Proof.
  induction l as [|a l IH]; simpl; [discriminate|].
  destruct (CommentItem.is_white_space a) eqn:E; [exact IH|].
  intros [= <- _]. exact E.
Qed.

Lemma existsb_not_forallb {A : Type} (f : A -> bool) (l : list A) :
  existsb (fun x => negb (f x)) l = negb (forallb f l).
Proof.
  induction l as [|a l IH]; [reflexivity|]. simpl. rewrite IH.
  now destruct (f a), (forallb f l).
Qed.

Lemma string_of_list_nil l : string_of_list_ascii l = "" <-> l = [].
Proof. destruct l; simpl; split; congruence. Qed.

Lemma truthy_trim s : CommentItem.truthy (CommentItem.trim s) = has_text s.
Proof.
  unfold CommentItem.truthy, CommentItem.trim, has_text.
  rewrite existsb_not_forallb. f_equal.
  set (l := list_ascii_of_string s).
  destruct (forallb CommentItem.is_white_space l) eqn:E.
  - apply trim_start_nil in E. rewrite E. reflexivity.
  - apply bool_decide_eq_false_2. rewrite string_of_list_nil.
    destruct (CommentItem.trim_start l) as [|c r] eqn:Et.
    + apply trim_start_nil in Et. congruence.
    + apply trim_start_head in Et. intros H.
      apply (f_equal (@rev ascii)) in H. rewrite rev_involutive in H. simpl in H.
      apply trim_start_nil in H. rewrite forallb_app in H. simpl in H.
      rewrite Et in H. simpl in H. now rewrite andb_false_r in H.
Qed.

Lemma map_filter_comm {A : Type} (f : A -> A) (g : A -> bool) (l : list A) :
  (forall x, g (f x) = g x) ->
  List.map f (List.filter g l) = List.filter g (List.map f l).
Proof.
  intros H. induction l as [|a l IH]; [reflexivity|]. simpl.
  rewrite H. destruct (g a); simpl; now rewrite IH.
Qed.

(** ** The store's cascade from any id *)

Lemma in_cascade_In C target c : in_cascade C target c -> In c C.
Proof. now destruct 1. Qed.

Lemma in_cascade_ancestor C target c :
  List.NoDup (List.map id C) ->
  in_cascade C target c <->
  In c C /\
  (id c = target \/ parentId c = Some target \/
   exists k, In k C /\ parentId k = Some target /\ ancestor C k c).
Proof.
  intros Hnd. split.
  - induction 1 as [c Hc E|c Hc E|p c Hp IH Hc E]; [tauto..|].
    split; [assumption|]. destruct IH as [HpC [Et|[Ept|(k & Hk & Ek & Ha)]]].
    + right. left. congruence.
    + right. right. exists p. repeat split; try assumption.
      constructor. now apply find_parent_unique.
    + right. right. exists k. repeat split; try assumption.
      apply (ancestor_step C k p c); [assumption|now apply find_parent_unique].
  - intros [Hc [E|[E|(k & Hk & Ek & Ha)]]];
      [now apply cascade_target|now apply cascade_child|].
    revert Hc. induction Ha as [k c E|k p c Ha IH E]; intros Hc;
      apply find_parent_Some in E as [Hp Ep].
    + apply (cascade_reply C target k c); [now apply cascade_child|assumption..].
    + apply (cascade_reply C target p c); [now apply IH|assumption..].
Qed.

Lemma findAllChildIds_any C target :
  List.NoDup (List.map id C) -> acyclic C = true ->
  exists ids,
    CommentService.findAllChildIds (S (length C)) C target = Some ids /\
    forall c, In c C ->
      (In (id c) ids <->
       parentId c = Some target \/
       exists k, In k C /\ parentId k = Some target /\ ancestor C k c).
Proof.
  intros Hnd Hac. rewrite findAllChildIds_S. cbv zeta.
  set (children := List.filter (fun c => bool_decide (parentId c = Some target)) C).
  assert (Hch : forall k, In k children <-> In k C /\ parentId k = Some target).
  { intros k. unfold children. rewrite filter_In. now rewrite bool_decide_eq_true. }
  assert (Hsub : exists gs,
            mapM (fun c => CommentService.findAllChildIds (length C) C (id c)) children
            = Some gs /\
            forall c, In c C ->
              (In (id c) (concat gs) <-> exists k, In k children /\ ancestor C k c)).
  { assert (Hall : forall k, In k children -> In k C) by (intros k Hk; now apply Hch).
    clearbody children. clear Hch.
    induction children as [|k l IHl].
    - exists []. split; [reflexivity|]. intros c _. simpl.
      split; [intros []|intros (k & [] & _)].
    - destruct (findAllChildIds_spec C Hnd Hac (length C) k
                  (Hall k (or_introl eq_refl))) as (ids & E & Hids); [lia|].
      destruct IHl as (gs & Egs & Hgs); [intros; apply Hall; now right|].
      exists (ids :: gs). split.
      + apply mapM_Some. constructor; [assumption|now apply mapM_Some].
      + intros c Hc. simpl. rewrite in_app_iff, (Hids c Hc), (Hgs c Hc). split.
        * intros [Ha|(k' & Hk' & Ha)]; [exists k|exists k']; auto.
        * intros (k' & [<-|Hk'] & Ha); [now left|right; exists k'; auto]. }
  destruct Hsub as (gs & -> & Hgs). simpl. eexists. split; [reflexivity|].
  intros c Hc. rewrite in_app_iff, (Hgs c Hc). split.
  - intros [Hin|(k & Hk & Ha)].
    + left. apply in_map_iff in Hin as (k & Ek & Hk). apply Hch in Hk as [Hk Epk].
      now rewrite <- (unique_id_eq C k c Hnd Hk Hc Ek).
    + right. exists k. apply Hch in Hk. tauto.
  - intros [E|(k & Hk & Ek & Ha)].
    + left. apply in_map, Hch. tauto.
    + right. exists k. split; [now apply Hch|assumption].
Qed.

Lemma deleteComment_cascade C target :
  well_formed C = true ->
  exists keep,
    CommentService.deleteComment target (Some C)
    = Some (Some (List.filter keep C)) /\
    forall c, In c C -> (keep c = true <-> ~ in_cascade C target c).
Proof.
  intros Hwf. apply well_formed_unfold in Hwf as [Hnd Hac].
  destruct (findAllChildIds_any C target Hnd Hac) as (ids & E & Hids).
  unfold CommentService.deleteComment. cbn [CommentService.getComments].
  rewrite E. cbn [mbind option_bind]. eexists. split; [reflexivity|].
  intros c Hc. cbv beta. rewrite negb_true_iff, bool_decide_eq_false.
  rewrite list_elem_of_In. split.
  - intros Hn Hcas. apply Hn.
    apply (in_cascade_ancestor C target c Hnd) in Hcas as [_ [Et|H]].
    + now left.
    + right. now apply Hids.
  - intros Hn [Et|Hin]; apply Hn.
    + now apply cascade_target.
    + apply (in_cascade_ancestor C target c Hnd). split; [assumption|].
      right. now apply Hids.
Qed.

Lemma deleteComment_absent C target :
  (forall c, In c C -> id c <> target /\ parentId c <> Some target) ->
  CommentService.deleteComment target (Some C) = Some (Some C).
Proof.
  intros H. unfold CommentService.deleteComment. cbn [CommentService.getComments].
  rewrite findAllChildIds_S. cbv zeta.
  rewrite filter_none.
  - cbn [mapM mret option_ret mbind option_bind List.map concat app].
    do 2 f_equal. apply filter_all. intros c Hc.
    apply negb_true_iff, bool_decide_eq_false_2. rewrite list_elem_of_In.
    intros [E|[]]. destruct (H c Hc) as [Hid _]. apply Hid. now symmetry.
  - intros c Hc. apply bool_decide_eq_false_2. now apply H.
Qed.

(** ** Collections with a parent cycle *)

Lemma parent_cycle_spec C cyc x :
  parent_cycle C cyc = true -> In x cyc ->
  In x C /\
  (exists p, DiscussionThread.find_parent C x = Some p /\ In p cyc) /\
  (exists k, In k cyc /\ parentId k = Some (id x)).
Proof.
  unfold parent_cycle. rewrite forallb_forall. intros H Hx.
  specialize (H x Hx). apply andb_true_iff in H as [H Hk].
  apply andb_true_iff in H as [Hc Hp].
  apply bool_decide_eq_true, list_elem_of_In in Hc. split; [assumption|]. split.
  - destruct (DiscussionThread.find_parent C x) as [p|]; [|discriminate].
    exists p. split; [reflexivity|].
    now apply bool_decide_eq_true, list_elem_of_In in Hp.
  - apply existsb_exists in Hk as (k & Hk & Ek).
    apply bool_decide_eq_true in Ek. eauto.
Qed.


Lemma reaches_cycle C cyc target :
  parent_cycle C cyc = true ->
  (forall y, In y cyc -> id y <> target) ->
  forall fuel x, In x cyc -> DiscussionThread.reaches fuel C target x = None.
Proof.
  intros Hcyc Hid. induction fuel as [|fuel IH]; intros x Hx; [reflexivity|].
  rewrite reaches_S. rewrite bool_decide_eq_false_2 by now apply Hid.
  destruct (parent_cycle_spec C cyc x Hcyc Hx) as (_ & (p & -> & Hp) & _).
  now apply IH.
Qed.

Lemma filterM_None (f : Comment -> option bool) (l : list Comment) (x : Comment) :
  In x l -> f x = None -> DiscussionThread.filterM f l = None.
Proof.
  induction l as [|a l IH]; [intros []|]. intros [->|Hx] E; simpl.
  - now rewrite E.
  - destruct (f a); [|reflexivity]. simpl. now rewrite IH.
Qed.

Lemma list_max_perm (l l' : list nat) :
  Permutation l l' -> list_max l = list_max l'.
Proof.
  induction 1 as [|a l l' HP IH|a b l|l1 l2 l3 H1 IH1 H2 IH2]; simpl.
  - reflexivity.
  - now rewrite IH.
  - rewrite !Nat.max_assoc. f_equal. apply Nat.max_comm.
  - congruence.
Qed.

Lemma forest_comments forest :
  flattenTree forest = List.map node_comment (flat_map subnodes forest).
Proof.
  rewrite flattenTree_spec.
  induction forest as [|n forest IH]; simpl; [reflexivity|].
  now rewrite node_list_subnodes, IH, map_app.
Qed.

(** With parents first, the largest [depth] of the forest is the
    largest level of the collection. *)
Lemma forest_max_depth (getTime : string -> option Z) (C : list Comment) :
  List.NoDup (List.map id C) -> acyclic C = true -> parents_first C = true ->
  list_max
    (List.map depth
       (flat_map subnodes (List.map (tree getTime C (length C)) (roots_of getTime C))))
  = list_max (List.map (level C) C).
Proof.
  intros Hnd Hac Hpf.
  set (forest := List.map (tree getTime C (length C)) (roots_of getTime C)).
  rewrite <- (list_max_perm _ _
                (Permutation_map (level C) (forest_perm getTime C Hnd Hac))).
  fold forest. rewrite forest_comments, map_map. f_equal.
  apply map_ext_in. intros n Hn.
  pose proof (forest_subnodes getTime C Hnd Hac n Hn) as [Hc _].
  apply in_flat_map in Hn as (t & Ht & Hn).
  apply in_map_iff in Ht as (c & <- & _).
  rewrite (tree_subnodes_depth C getTime _ c n Hn).
  now apply link_depth_level.
Qed.

(** ** The pre-order listing of the forest *)

Lemma parents_first_from_app all : forall l seen l',
  parents_first_from all seen (l ++ l')
  = parents_first_from all seen l
    && parents_first_from all (seen ++ List.map id l) l'.
Proof.
  induction l as [|c l IH]; intros seen l'; simpl.
  - now rewrite app_nil_r.
  - rewrite IH, <- app_assoc, andb_assoc. reflexivity.
Qed.

Lemma placed_mono all seen seen' c :
  incl seen seen' -> placed all seen c -> placed all seen' c.
Proof. intros Hi H pid Ep. destruct (H pid Ep); auto. Qed.

Lemma placed_check all seen c :
  placed all seen c ->
  match parentId c with
  | None => true
  | Some pid => bool_decide (pid ∈ seen) || negb (bool_decide (pid ∈ all))
  end = true.
Proof.
  intros H. destruct (parentId c) as [pid|] eqn:Ep; [|reflexivity].
  apply orb_true_iff. destruct (H pid Ep) as [Hin|Hout].
  - left. now apply bool_decide_eq_true_2, list_elem_of_In.
  - right. apply negb_true_iff, bool_decide_eq_false_2. now rewrite list_elem_of_In.
Qed.

Section PreOrder.
Variable getTime : string -> option Z.
Variable C : list Comment.

(** In the pre-order listing parents come first. *)
Lemma pre_parents_first all : forall fuel N seen,
  (forall y, In y N -> placed all seen y) ->
  parents_first_from all seen (flat_map (pre getTime C fuel) N) = true.
Proof.
  induction fuel as [|fuel IH].
  - induction N as [|y N IHN]; intros seen HN; [reflexivity|].
    cbn [flat_map]. unfold pre at 1. cbn [tree node_list flat_map app].
    cbn [parents_first_from]. rewrite placed_check by (apply HN; now left).
    apply IHN. intros z Hz. apply (placed_mono all seen); [|apply HN; now right].
    intros x Hx. apply in_or_app. now left.
  - induction N as [|y N IHN]; intros seen HN; [reflexivity|].
    cbn [flat_map]. rewrite pre_S, parents_first_from_app.
    cbn [parents_first_from]. rewrite placed_check by (apply HN; now left).
    cbn [andb]. apply andb_true_iff. split.
    + apply IH. intros k Hk pid Ep. apply kids_In in Hk as [_ Ek].
      left. apply in_or_app. right. left. congruence.
    + apply IHN. intros z Hz. apply (placed_mono all seen); [|apply HN; now right].
      intros x Hx. apply in_or_app. now left.
Qed.
End PreOrder.

Lemma NoDup_app_l {A : Type} (l l' : list A) : List.NoDup (l ++ l') -> List.NoDup l.
Proof.
  induction l as [|a l IH]; simpl; intros H; [constructor|].
  inversion H as [|? ? Hna Hnd]; subst. constructor; [|now apply IH].
  intros Hin. apply Hna, in_or_app. now left.
Qed.

Lemma NoDup_app_r {A : Type} (l l' : list A) : List.NoDup (l ++ l') -> List.NoDup l'.
Proof.
  induction l as [|a l IH]; simpl; intros H; [assumption|].
  inversion H; subst. now apply IH.
Qed.

Lemma NoDup_app_disjoint {A : Type} (l l' : list A) (x : A) :
  List.NoDup (l ++ l') -> In x l -> ~ In x l'.
Proof.
  induction l as [|a l IH]; simpl; intros H; [intros []|].
  inversion H as [|? ? Hna Hnd]; subst. intros [->|Hx] Hx'.
  - apply Hna, in_or_app. now right.
  - now apply (IH Hnd Hx).
Qed.

(** When [c] is in at most one [g y] and each [g y] holds [K] or
    nothing according to whether [c] is in it, so does their
    concatenation. *)
Lemma flat_map_one_hit {A B : Type} (P : B -> bool) (g : A -> list B) (c : B)
    (K : list B) : forall N,
  (forall y, In y N ->
     (In c (g y) -> List.filter P (g y) = K) /\
     (~ In c (g y) -> List.filter P (g y) = [])) ->
  List.NoDup (flat_map g N) ->
  (In c (flat_map g N) -> List.filter P (flat_map g N) = K) /\
  (~ In c (flat_map g N) -> List.filter P (flat_map g N) = []).
Proof.
  induction N as [|y N IH]; intros HN Hnd; simpl.
  - split; [intros []|reflexivity].
  - simpl in Hnd.
    destruct (HN y (or_introl eq_refl)) as [Hhit Hmiss].
    destruct (IH (fun z Hz => HN z (or_intror Hz)) (NoDup_app_r _ _ Hnd))
      as [IHhit IHmiss].
    rewrite List.filter_app, in_app_iff. split.
    + intros [Hc|Hc].
      * rewrite (Hhit Hc), IHmiss; [apply app_nil_r|].
        now apply (NoDup_app_disjoint _ _ c Hnd).
      * rewrite (IHhit Hc), Hmiss; [reflexivity|].
        intros Hc'. now apply (NoDup_app_disjoint _ _ c Hnd Hc').
    + intros Hc. rewrite Hmiss, IHmiss by tauto. reflexivity.
Qed.

Lemma NoDup_flat_map_each {A B : Type} (g : A -> list B) (N : list A) :
  List.NoDup (flat_map g N) -> forall k, In k N -> List.NoDup (g k).
Proof.
  induction N as [|y N IH]; simpl; intros Hnd k; [intros []|].
  intros [<-|Hk]; [now apply NoDup_app_l in Hnd|].
  apply IH; [now apply NoDup_app_r in Hnd|assumption].
Qed.

Section Listing.
Variable getTime : string -> option Z.
Variable C : list Comment.
Hypothesis ids_unique : List.NoDup (List.map id C).
Hypothesis no_cycle : acyclic C = true.

(** Below [x] there are only comments of a deeper level. *)
Lemma pre_level : forall fuel x z,
  In x C -> In z (pre getTime C fuel x) ->
  In z C /\ (z = x \/ (level C x < level C z)%nat).
Proof.
  induction fuel as [|fuel IH]; intros x z Hx Hz.
  - destruct Hz as [<-|[]]. auto.
  - rewrite pre_S in Hz. destruct Hz as [<-|Hz]; [auto|].
    apply in_flat_map in Hz as (k & Hk & Hz).
    pose proof (kids_level getTime C ids_unique no_cycle x k Hx Hk) as Hl.
    apply kids_In in Hk as [Hk _].
    destruct (IH k z Hk Hz) as [HzC [->|Hlt]]; (split; [assumption|right; lia]).
Qed.

(** A property that no comment below level [m] has is met in the
    subtrees of comments of level [m] at their heads only. *)
Lemma filter_pre_heads (P : Comment -> bool) (m : nat) fuel : forall N,
  (forall z, In z C -> (m < level C z)%nat -> P z = false) ->
  (forall y, In y N -> In y C /\ level C y = m) ->
  List.filter P (flat_map (pre getTime C fuel) N) = List.filter P N.
Proof.
  intros N HP HN. induction N as [|y N IH]; [reflexivity|].
  destruct (HN y (or_introl eq_refl)) as [Hy Hl].
  cbn [flat_map]. rewrite List.filter_app, IH by (intros; apply HN; now right).
  replace (List.filter P (y :: N)) with (List.filter P [y] ++ List.filter P N)
    by (simpl; now destruct (P y)).
  f_equal. destruct fuel as [|fuel]; [reflexivity|].
  rewrite pre_S. cbn [List.filter]. rewrite filter_none; [now destruct (P y)|].
  intros z Hz. apply in_flat_map in Hz as (k & Hk & Hz).
  pose proof (kids_level getTime C ids_unique no_cycle y k Hy Hk) as Hlk.
  apply kids_In in Hk as [Hk _].
  destruct (pre_level fuel k z Hk Hz) as [HzC Hlz].
  apply HP; [assumption|]. destruct Hlz as [->|Hlz]; lia.
Qed.

Lemma not_own_child c y :
  In c C -> In y C -> (level C y <= level C c)%nat -> parentIs (id c) y = false.
Proof.
  intros Hc Hy Hl. apply bool_decide_eq_false_2. intros Ep.
  rewrite (level_child C ids_unique no_cycle y c Hy Hc Ep) in Hl. lia.
Qed.

(** The children of [c] stand in the subtree that holds [c], in their
    sibling order. *)
Lemma children_in_pre c (Hc : In c C) : forall fuel y,
  In y C -> (level C y <= level C c)%nat ->
  (length C <= level C y + S fuel)%nat ->
  List.NoDup (pre getTime C fuel y) ->
  (In c (pre getTime C fuel y) ->
   List.filter (parentIs (id c)) (pre getTime C fuel y) = kids getTime C c) /\
  (~ In c (pre getTime C fuel y) ->
   List.filter (parentIs (id c)) (pre getTime C fuel y) = []).
Proof.
  induction fuel as [|fuel IH]; intros y Hy Hl Hfuel Hnd.
  - unfold pre. cbn [tree node_list flat_map List.filter].
    rewrite (not_own_child c y Hc Hy Hl). split; [|reflexivity].
    intros [->|[]]. symmetry.
    apply (kids_bottom getTime C ids_unique no_cycle c Hc). lia.
  - rewrite pre_S in Hnd |- *. cbn [List.filter].
    rewrite (not_own_child c y Hc Hy Hl).
    inversion Hnd as [|? ? Hny Hnd']; subst.
    assert (Hkids : forall k, In k (kids getTime C y) ->
              In k C /\ level C k = S (level C y)).
    { intros k Hk. split; [now apply kids_In in Hk|].
      now apply (kids_level getTime C ids_unique no_cycle y k). }
    destruct (Nat.eq_dec (level C y) (level C c)) as [Heq|Hne].
    + rewrite (filter_pre_heads (parentIs (id c)) (S (level C c)) fuel).
      * split.
        -- intros [->|Hin].
           ++ apply filter_all. intros k Hk. apply kids_In in Hk as [_ Ek].
              now apply bool_decide_eq_true_2.
           ++ exfalso. apply in_flat_map in Hin as (k & Hk & Hin).
              destruct (Hkids k Hk) as [HkC Hlk].
              destruct (pre_level fuel k c HkC Hin) as [_ [->|Hlt]]; lia.
        -- intros Hout. apply filter_none. intros k Hk.
           apply bool_decide_eq_false_2. intros Ep.
           apply kids_In in Hk as [HkC Ek]. apply Hout. left.
           apply (unique_id_eq C y c ids_unique Hy Hc). congruence.
      * intros z Hz Hlz. apply bool_decide_eq_false_2. intros Ep.
        rewrite (level_child C ids_unique no_cycle z c Hz Hc Ep) in Hlz. lia.
      * intros k Hk. destruct (Hkids k Hk). split; [assumption|lia].
    + assert (Hyc : y <> c) by (intros ->; lia).
      destruct (flat_map_one_hit (parentIs (id c)) (pre getTime C fuel) c
                  (kids getTime C c) (kids getTime C y)) as [Hhit Hmiss].
      * intros k Hk. destruct (Hkids k Hk) as [HkC Hlk].
        apply IH; [assumption|lia|lia|].
        now apply (NoDup_flat_map_each (pre getTime C fuel) (kids getTime C y)).
      * assumption.
      * split.
        -- intros [E|Hin]; [contradiction|now apply Hhit].
        -- intros Hout. apply Hmiss. intros Hin. apply Hout. now right.
Qed.

Lemma listing_NoDup :
  List.NoDup (flat_map (pre getTime C (length C)) (roots_of getTime C)).
Proof.
  rewrite <- flattenTree_forest.
  apply (Permutation_NoDup (Permutation_sym (forest_perm getTime C ids_unique no_cycle))).
  now apply NoDup_map_inv in ids_unique.
Qed.

Lemma listing_children c :
  In c C ->
  List.filter (parentIs (id c))
    (flat_map (pre getTime C (length C)) (roots_of getTime C))
  = kids getTime C c.
Proof.
  intros Hc.
  destruct (flat_map_one_hit (parentIs (id c)) (pre getTime C (length C)) c
              (kids getTime C c) (roots_of getTime C)) as [Hhit _].
  - intros r Hr. apply roots_of_In in Hr as [Hr Hroot].
    apply (level_root C ids_unique no_cycle r Hr) in Hroot.
    apply children_in_pre; [assumption..|lia|lia|].
    apply (NoDup_flat_map_each (pre getTime C (length C)) (roots_of getTime C));
      [apply listing_NoDup|].
    apply roots_of_In. split; [assumption|].
    now apply (level_root C ids_unique no_cycle r Hr).
  - apply listing_NoDup.
  - apply Hhit. rewrite <- flattenTree_forest.
    now apply (Permutation_in _ (Permutation_sym
                                   (forest_perm getTime C ids_unique no_cycle))).
Qed.

Lemma listing_roots :
  List.filter (is_root C) (flat_map (pre getTime C (length C)) (roots_of getTime C))
  = roots_of getTime C.
Proof.
  rewrite (filter_pre_heads (is_root C) 0 (length C)).
  - apply filter_all. intros r Hr. now apply roots_of_In in Hr.
  - intros z Hz Hl. apply not_true_is_false. intros Hr.
    apply (level_root C ids_unique no_cycle z Hz) in Hr. lia.
  - intros r Hr. apply roots_of_In in Hr as [Hr Hroot]. split; [assumption|].
    now apply (level_root C ids_unique no_cycle r Hr).
Qed.
End Listing.

Lemma node_list_erase_depth n : node_list (erase_depth n) = node_list n.
Proof.
  induction n as [c kids d IH] using CommentNode_nested_ind. simpl. f_equal.
  induction IH as [|k kids Hk _ IHkids]; simpl; [reflexivity|].
  now rewrite Hk, IHkids.
Qed.

Lemma flattenTree_erase_depth forest :
  flattenTree (List.map erase_depth forest) = flattenTree forest.
Proof.
  rewrite !flattenTree_spec.
  induction forest as [|n forest IH]; simpl; [reflexivity|].
  now rewrite node_list_erase_depth, IH.
Qed.

Section Rebuild.
Variable getTime : string -> option Z.
Variable C : list Comment.
Hypothesis ids_unique : List.NoDup (List.map id C).
Hypothesis no_cycle : acyclic C = true.

Local Abbreviation listing :=
  (flat_map (pre getTime C (length C)) (roots_of getTime C)).

Lemma listing_perm : Permutation C listing.
Proof.
  rewrite <- flattenTree_forest. symmetry. now apply forest_perm.
Qed.

Lemma listing_parents_first : parents_first listing = true.
Proof.
  unfold parents_first. apply pre_parents_first.
  intros r Hr pid Ep. right. apply roots_of_In in Hr as [Hr Hroot].
  unfold is_root in Hroot. rewrite Ep in Hroot.
  apply negb_true_iff, bool_decide_eq_false in Hroot.
  intros Hin. apply Hroot, list_elem_of_In.
  apply (Permutation_in _ (Permutation_sym (Permutation_map id listing_perm))).
  exact Hin.
Qed.

Lemma roots_of_listing : roots_of getTime listing = roots_of getTime C.
Proof.
  unfold roots_of at 1.
  rewrite (filter_ext (is_root listing) (is_root C))
    by (intros c; apply is_root_perm, listing_perm).
  rewrite (listing_roots getTime C ids_unique no_cycle).
  apply js_sort_idem, by_createdAt_asym.
Qed.

Lemma kids_listing c : In c C -> kids getTime listing c = kids getTime C c.
Proof.
  intros Hc. unfold kids at 1.
  rewrite (listing_children getTime C ids_unique no_cycle c Hc).
  apply js_sort_idem, by_createdAt_asym.
Qed.

Lemma erase_depth_tree_listing : forall fuel c,
  In c C ->
  erase_depth (tree getTime listing fuel c) = erase_depth (tree getTime C fuel c).
Proof.
  induction fuel as [|fuel IH]; intros c Hc; [reflexivity|].
  simpl. f_equal. rewrite (kids_listing c Hc), !map_map.
  apply map_ext_in. intros k Hk. apply IH. now apply kids_In in Hk.
Qed.

Lemma forest_listing :
  List.map erase_depth
    (List.map (tree getTime listing (length listing)) (roots_of getTime listing))
  = List.map erase_depth
      (List.map (tree getTime C (length C)) (roots_of getTime C)).
Proof.
  rewrite roots_of_listing, <- (Permutation_length listing_perm), !map_map.
  apply map_ext_in. intros c Hc. apply erase_depth_tree_listing.
  now apply roots_of_In in Hc.
Qed.
End Rebuild.

(** ** Collections with unique ids, cycles allowed *)

Lemma hops_S C fuel c :
  hops (S fuel) C c
  = match DiscussionThread.find_parent C c with
    | None => Some 0%nat
    | Some p => S <$> hops fuel C p
    end.
Proof. reflexivity. Qed.

(** The number of hops does not depend on the fuel. *)
Lemma hops_least C : forall fuel c d, hops fuel C c = Some d -> hops (S d) C c = Some d.
Proof.
  induction fuel as [|fuel IH]; intros c d; [discriminate|].
  rewrite !hops_S. destruct (DiscussionThread.find_parent C c) as [p|]; [|easy].
  destruct (hops fuel C p) as [d'|] eqn:E; simpl; [|discriminate].
  intros [= <-]. now rewrite (IH p d' E).
Qed.

Lemma hops_more C c d : forall n fuel,
  hops fuel C c = Some d -> hops (n + fuel) C c = Some d.
Proof.
  induction n as [|n IH]; intros fuel H; [exact H|].
  simpl. apply hops_mono. now apply IH.
Qed.

Lemma hops_fuel C fuel fuel' c d :
  hops fuel C c = Some d -> (d < fuel')%nat -> hops fuel' C c = Some d.
Proof.
  intros H Hlt. apply hops_least in H.
  replace fuel' with ((fuel' - S d) + S d)%nat by lia. now apply hops_more.
Qed.

Lemma hops_parent C fuel c p d :
  DiscussionThread.find_parent C c = Some p -> hops fuel C c = Some d ->
  exists d', d = S d' /\ hops fuel C p = Some d'.
Proof.
  intros Ep H. destruct fuel as [|fuel]; [discriminate|].
  rewrite hops_S, Ep in H.
  destruct (hops fuel C p) as [d'|] eqn:E; simpl in H; [|discriminate].
  injection H as <-. exists d'. split; [reflexivity|]. now apply hops_mono.
Qed.

Lemma hops_ancestor C a c :
  ancestor C a c ->
  forall fuel d, hops fuel C c = Some d ->
  exists d', (d' < d)%nat /\ hops fuel C a = Some d'.
Proof.
  induction 1 as [p c E|a p c Ha IH E]; intros fuel d H;
    destruct (hops_parent C fuel c p d E H) as (d' & -> & Hp).
  - exists d'. split; [lia|assumption].
  - destruct (IH fuel d' Hp) as (e & Hlt & He). exists e. split; [lia|assumption].
Qed.

Lemma hops_irreflexive C fuel c d : hops fuel C c = Some d -> ~ ancestor C c c.
Proof.
  intros H Ha. destruct (hops_ancestor C c c Ha fuel d H) as (d' & Hlt & H').
  rewrite H in H'. injection H' as <-. lia.
Qed.

Lemma ancestors_NoDup_hops C : forall n fuel c d,
  hops fuel C c = Some d -> List.NoDup (ancestors n C c).
Proof.
  induction n as [|n IH]; intros fuel c d H; simpl; [constructor|].
  destruct (DiscussionThread.find_parent C c) as [p|] eqn:E; [|constructor].
  destruct (hops_parent C fuel c p d E H) as (d' & _ & Hp).
  constructor; [|now apply (IH fuel p d')].
  intros Hin. apply ancestors_In in Hin as [_ Ha].
  exact (hops_irreflexive C fuel p d' Hp Ha).
Qed.

Lemma ancestors_length_hops C : forall d fuel c,
  hops fuel C c = Some d -> length (ancestors d C c) = d.
Proof.
  induction d as [|d IH]; intros fuel c H; [reflexivity|]. simpl.
  destruct (DiscussionThread.find_parent C c) as [p|] eqn:E.
  - destruct (hops_parent C fuel c p (S d) E H) as (d' & [= <-] & Hp).
    simpl. f_equal. now apply (IH fuel).
  - destruct fuel as [|fuel]; [discriminate|]. rewrite hops_S, E in H. discriminate.
Qed.

(** A chain of parents that ends has fewer links than there are
    comments. *)
Lemma hops_short C fuel c d :
  In c C -> hops fuel C c = Some d -> hops (length C) C c = Some d.
Proof.
  intros Hc H. apply (hops_fuel C fuel); [assumption|].
  assert (Hnd : List.NoDup (c :: ancestors d C c)).
  { constructor; [|now apply (ancestors_NoDup_hops C d fuel c d)].
    intros Hin. apply ancestors_In in Hin as [_ Ha].
    exact (hops_irreflexive C fuel c d H Ha). }
  assert (Hincl : incl (c :: ancestors d C c) C).
  { intros x [<-|Hx]; [assumption|]. now apply ancestors_In in Hx. }
  pose proof (NoDup_incl_length Hnd Hincl) as Hlen.
  simpl in Hlen. rewrite (ancestors_length_hops C d fuel c H) in Hlen. lia.
Qed.

Lemma grounded_level C c :
  grounded C c = true <-> hops (length C) C c = Some (level C c).
Proof.
  unfold grounded, level. rewrite bool_decide_eq_true. split.
  - intros [d ->]. reflexivity.
  - intros ->. eauto.
Qed.

Section Grounded.
Variable C : list Comment.
Hypothesis ids_unique : List.NoDup (List.map id C).

Lemma grounded_root c :
  In c C -> (is_root C c = true <-> grounded C c = true /\ level C c = 0%nat).
Proof.
  intros Hc. rewrite grounded_level, <- find_parent_None.
  destruct (length C) as [|n] eqn:En; [destruct C; [destruct Hc|discriminate]|].
  unfold level. rewrite En, hops_S.
  destruct (DiscussionThread.find_parent C c) as [p|].
  - split; [discriminate|]. intros [H H0].
    destruct (hops n C p); simpl in *; discriminate.
  - simpl. tauto.
Qed.

Lemma grounded_child k p :
  In k C -> In p C -> parentId k = Some (id p) -> grounded C p = true ->
  grounded C k = true /\ level C k = S (level C p).
Proof.
  intros Hk Hp Ep Hg. apply grounded_level in Hg.
  assert (H : hops (S (length C)) C k = Some (S (level C p))).
  { rewrite hops_S, (find_parent_unique C k p ids_unique Hp Ep), Hg. reflexivity. }
  apply (hops_short C _ k _ Hk) in H.
  split; [apply grounded_level|]; unfold level; now rewrite H.
Qed.

Lemma grounded_parent k :
  In k C -> grounded C k = true -> level C k <> 0%nat ->
  exists p, In p C /\ parentId k = Some (id p) /\
            grounded C p = true /\ level C k = S (level C p).
Proof.
  intros Hk Hg Hl. apply grounded_level in Hg.
  destruct (DiscussionThread.find_parent C k) as [p|] eqn:E.
  - destruct (hops_parent C _ k p _ E Hg) as (d' & Ed & Hp).
    apply find_parent_Some in E as [HpC Ep]. exists p.
    split; [assumption|]. split; [assumption|].
    assert (Hlp : hops (length C) C p = Some (level C p))
      by (unfold level; now rewrite Hp).
    split; [now apply grounded_level|].
    rewrite Hlp in Hp. injection Hp as <-. exact Ed.
  - exfalso. apply Hl.
    assert (Hroot : is_root C k = true) by now apply find_parent_None.
    now apply (grounded_root k Hk) in Hroot.
Qed.

Lemma grounded_bound c : grounded C c = true -> (level C c < length C)%nat.
Proof. intros Hg. apply grounded_level in Hg. now apply hops_bound in Hg. Qed.

Variable getTime : string -> option Z.

Lemma kids_grounded c k :
  In c C -> grounded C c = true -> In k (kids getTime C c) ->
  In k C /\ grounded C k = true /\ level C k = S (level C c).
Proof.
  intros Hc Hg Hk. apply kids_In in Hk as [Hk Ep].
  split; [assumption|]. now apply grounded_child.
Qed.

Lemma materialize_grounded : forall fuel c,
  In c C -> grounded C c = true -> (length C <= level C c + S fuel)%nat ->
  materialize (S fuel) (sorted_heap getTime (linked C).1) (id c)
  = Some (tree getTime C fuel c).
Proof.
  induction fuel as [|fuel IH]; intros c Hc Hg Hfuel;
    rewrite materialize_S, (hs_lookup getTime C ids_unique c Hc); simpl.
  - destruct (kids getTime C c) as [|k l] eqn:Ek; [reflexivity|]. exfalso.
    assert (Hk : In k (kids getTime C c)) by (rewrite Ek; now left).
    destruct (kids_grounded c k Hc Hg Hk) as (_ & Hgk & Hl).
    pose proof (grounded_bound k Hgk). lia.
  - rewrite (mapM_map_Some _ id (tree getTime C fuel) (kids getTime C c));
      [reflexivity|].
    intros k Hk. destruct (kids_grounded c k Hc Hg Hk) as (HkC & Hgk & Hl).
    apply IH; [assumption..|lia].
Qed.

(** [buildTree] returns on every collection with unique ids. *)
Lemma buildTree_unique :
  buildTree getTime C
  = Some (List.map (tree getTime C (length C)) (roots_of getTime C)).
Proof.
  destruct (linked_spec C ids_unique) as (_ & _ & Hroots).
  assert (Hmat : forall c, In c C -> is_root C c = true ->
            materialize (S (length C)) (sorted_heap getTime (linked C).1) (id c)
            = Some (tree getTime C (length C) c)).
  { intros c Hc Hr. apply (grounded_root c Hc) in Hr as [Hg Hl].
    apply materialize_grounded; [assumption..|lia]. }
  assert (Hm : mapM (materialize (S (length C)) (sorted_heap getTime (linked C).1))
                 (linked C).2
               = Some (List.map (tree getTime C (length C))
                         (List.filter (is_root C) C))).
  { rewrite Hroots. apply mapM_map_Some. intros c Hc.
    apply filter_In in Hc as [Hc Hr]. now apply Hmat. }
  destruct (sort_pass_spec getTime _ _ _ _ Hm) as (h' & E' & Hp' & Hagree).
  assert (Hsort : js_sort (node_cmp getTime h') (linked C).2
                  = List.map id (roots_of getTime C)).
  { rewrite (partly_sorted_sort getTime _ h' _ Hp'), Hroots.
    apply h1_sort; [assumption|]. intros c Hc. now apply filter_In in Hc. }
  unfold buildTree. fold (linked C).
  destruct (linked C) as [m1 roots] eqn:El. simpl in *.
  rewrite E'. simpl. rewrite Hsort.
  apply mapM_map_Some. intros c Hc.
  apply roots_of_In in Hc as [Hc Hr].
  rewrite Hagree; [now apply Hmat|].
  rewrite Hroots. apply in_map, filter_In. auto.
Qed.
End Grounded.

Section GroundedForest.
Variable getTime : string -> option Z.
Variable C : list Comment.
Hypothesis ids_unique : List.NoDup (List.map id C).

Lemma next_grounded_level n N :
  Permutation N (List.filter (grounded_at C n) C) ->
  Permutation (flat_map (kids getTime C) N) (List.filter (grounded_at C (S n)) C).
Proof.
  intros HN.
  etransitivity; [apply flat_map_perm_arg, HN|].
  etransitivity.
  { apply (flat_map_perm_pointwise _ (fun p => List.filter (parentIs (id p)) C)).
    intros p _. apply js_sort_perm. }
  etransitivity; [apply children_of_list, NoDup_map_filter, ids_unique|].
  rewrite (filter_ext_in _ (grounded_at C (S n))); [reflexivity|].
  intros c Hc. apply eq_iff_eq_true. unfold grounded_at.
  rewrite existsb_exists, andb_true_iff, Nat.eqb_eq. split.
  - intros (p & Hp & Hpc). apply filter_In in Hp as [Hp Hl].
    apply andb_true_iff in Hl as [Hg Hl]. apply Nat.eqb_eq in Hl.
    apply bool_decide_eq_true in Hpc.
    destruct (grounded_child C ids_unique c p Hc Hp Hpc Hg) as [Hgc Hlc].
    split; [assumption|lia].
  - intros [Hg Hl].
    destruct (grounded_parent C ids_unique c Hc Hg) as (p & Hp & Ep & Hgp & Hlp);
      [lia|].
    exists p. split; [|now apply bool_decide_eq_true_2].
    apply filter_In. split; [assumption|].
    apply andb_true_iff. split; [assumption|]. apply Nat.eqb_eq. lia.
Qed.

Lemma generations_grounded : forall fuel n N,
  Permutation N (List.filter (grounded_at C n) C) ->
  Permutation (generations getTime C fuel N)
              (List.filter (grounded_in C n (n + fuel)) C).
Proof.
  induction fuel as [|fuel IH]; intros n N HN; simpl.
  - rewrite HN.
    rewrite (filter_ext (grounded_at C n) (grounded_in C n (n + 0))); [reflexivity|].
    intros c. unfold grounded_at, grounded_in.
    destruct (grounded C c); cbn [andb]; [|reflexivity].
    apply eq_iff_eq_true.
    rewrite !andb_true_iff, Nat.eqb_eq, !Nat.leb_le. lia.
  - etransitivity.
    { apply Permutation_app; [exact HN|apply (IH (S n)), next_grounded_level, HN]. }
    etransitivity.
    { apply filter_union_perm. intros c _ Hc. unfold grounded_at, grounded_in in *.
      apply andb_true_iff in Hc as [Hg Hc]. apply Nat.eqb_eq in Hc.
      rewrite Hg. cbn [andb]. apply andb_false_iff. left. apply Nat.leb_gt. lia. }
    rewrite (filter_ext _ (grounded_in C n (n + S fuel))); [reflexivity|].
    intros c. unfold grounded_at, grounded_in.
    destruct (grounded C c); cbn [andb orb]; [|reflexivity].
    apply eq_iff_eq_true.
    rewrite orb_true_iff, !andb_true_iff, Nat.eqb_eq, !Nat.leb_le. lia.
Qed.

Lemma roots_grounded :
  Permutation (roots_of getTime C) (List.filter (grounded_at C 0) C).
Proof.
  unfold roots_of. etransitivity; [apply js_sort_perm|].
  rewrite (filter_ext_in (is_root C) (grounded_at C 0)); [reflexivity|].
  intros c Hc. apply eq_iff_eq_true. unfold grounded_at.
  rewrite andb_true_iff, Nat.eqb_eq. now apply grounded_root.
Qed.

(** The forest lists the grounded comments, each once. *)
Lemma forest_grounded :
  Permutation
    (flattenTree (List.map (tree getTime C (length C)) (roots_of getTime C)))
    (List.filter (grounded C) C).
Proof.
  rewrite flattenTree_forest.
  etransitivity; [apply pre_generations|].
  etransitivity; [apply (generations_grounded _ 0), roots_grounded|].
  rewrite (filter_ext (grounded_in C 0 (0 + length C)) (grounded C)); [reflexivity|].
  intros c. unfold grounded_in. destruct (grounded C c) eqn:Hg; [|reflexivity].
  pose proof (grounded_bound C c Hg). cbn [andb Nat.leb].
  apply Nat.leb_le. lia.
Qed.
End GroundedForest.

Lemma filter_length_lt {A : Type} (P : A -> bool) (l : list A) (x : A) :
  In x l -> P x = false -> (length (List.filter P l) < length l)%nat.
Proof.
  induction l as [|a l IH]; [intros []|]. intros [->|Hx] Hp; simpl.
  - rewrite Hp. pose proof (filter_length_le P l). lia.
  - specialize (IH Hx Hp). destruct (P a); simpl; lia.
Qed.

Lemma parent_cycle_not_grounded C cyc x :
  parent_cycle C cyc = true -> In x cyc -> grounded C x = false.
Proof.
  intros Hcyc Hx. apply bool_decide_eq_false_2.
  assert (H : forall fuel y, In y cyc -> hops fuel C y = None).
  { induction fuel as [|fuel IH]; intros y Hy; [reflexivity|].
    rewrite hops_S.
    destruct (parent_cycle_spec C cyc y Hcyc Hy) as (_ & (p & -> & Hp) & _).
    now rewrite (IH p Hp). }
  rewrite (H _ x Hx). now intros [d E].
Qed.

(** ** An element that no other element follows *)

Lemma js_insert_snoc {A : Type} (cmp : A -> A -> option Z) (a x : A) : forall s,
  cmp_neg cmp x a = false ->
  js_insert cmp a (s ++ [x]) = js_insert cmp a s ++ [x].
Proof.
  intros s Hx. induction s as [|y s IH]; simpl.
  - now rewrite Hx.
  - destruct (cmp_neg cmp y a); [now rewrite IH|reflexivity].
Qed.

Lemma js_sort_snoc {A : Type} (cmp : A -> A -> option Z) (x : A) : forall l,
  (forall a, In a l -> cmp_neg cmp x a = false) ->
  js_sort cmp (l ++ [x]) = js_sort cmp l ++ [x].
Proof.
  induction l as [|a l IH]; intros H; [reflexivity|].
  change (js_sort cmp ((a :: l) ++ [x]))
    with (js_insert cmp a (js_sort cmp (l ++ [x]))).
  rewrite IH by (intros; apply H; now right).
  apply js_insert_snoc. apply H. now left.
Qed.

Lemma js_sort_unordered {A : Type} (cmp : A -> A -> option Z) : forall l,
  (forall a b, In a l -> In b l -> cmp_neg cmp a b = false) ->
  js_sort cmp l = l.
Proof.
  induction l as [|a l IH]; intros H; [reflexivity|].
  change (js_sort cmp (a :: l)) with (js_insert cmp a (js_sort cmp l)).
  rewrite IH by (intros; apply H; now right).
  destruct l as [|b l]; [reflexivity|]. simpl.
  rewrite H; [reflexivity|right; now left|now left].
Qed.

(** ** A comment appended behind its siblings *)

Lemma snoc_last_child (getTime : string -> option Z) (C : list Comment)
    (p o : Comment) :
  well_formed C = true ->
  In p C ->
  parentId o = Some (id p) ->
  (forall c, In c C -> id c <> id o /\ parentId c <> Some (id o)) ->
  (forall c, In c C -> parentId c = Some (id p) -> sorts_before getTime o c = false) ->
  exists n n',
    buildTree getTime C
    = Some (List.map (tree getTime C (length C)) (roots_of getTime C)) /\
    buildTree getTime (C ++ [o])
    = Some (List.map (tree getTime (C ++ [o]) (length (C ++ [o])))
              (roots_of getTime (C ++ [o]))) /\
    In n (flat_map subnodes
            (List.map (tree getTime C (length C)) (roots_of getTime C))) /\
    node_comment n = p /\
    In n' (flat_map subnodes
             (List.map (tree getTime (C ++ [o]) (length (C ++ [o])))
                (roots_of getTime (C ++ [o])))) /\
    node_comment n' = p /\
    List.map node_comment (children n')
    = List.map node_comment (children n) ++ [o].
Proof.
  intros Hwf Hp Ep Hfresh Hlast.
  pose proof (well_formed_unfold C Hwf) as [Hnd Hac].
  assert (Hf : forall c, In c C -> id c <> id o) by (intros c Hc; now apply Hfresh).
  assert (Hu : forall c, In c C -> parentId c <> Some (id o))
    by (intros c Hc; now apply Hfresh).
  assert (Hself : parentId o <> Some (id o)).
  { rewrite Ep. intros [= E]. now apply (Hf p Hp). }
  pose proof (well_formed_snoc C o Hf Hu Hself Hwf) as Hwf'.
  apply well_formed_unfold in Hwf' as [Hnd' Hac'].
  assert (Hin : In p (flattenTree
                        (List.map (tree getTime C (length C)) (roots_of getTime C)))).
  { now apply (Permutation_in _ (Permutation_sym (forest_perm getTime _ Hnd Hac))). }
  assert (Hin' : In p (flattenTree
                         (List.map (tree getTime (C ++ [o]) (length (C ++ [o])))
                            (roots_of getTime (C ++ [o]))))).
  { apply (Permutation_in _ (Permutation_sym (forest_perm getTime _ Hnd' Hac'))).
    apply in_or_app. now left. }
  apply flattenTree_In in Hin as (n & Hn & En).
  apply flattenTree_In in Hin' as (n' & Hn' & En').
  exists n, n'.
  split; [now apply buildTree_spec|]. split; [now apply buildTree_spec|].
  split; [exact Hn|]. split; [exact En|]. split; [exact Hn'|]. split; [exact En'|].
  apply (forest_subnodes getTime _ Hnd Hac) in Hn as [_ ->].
  apply (forest_subnodes getTime _ Hnd' Hac') in Hn' as [_ ->].
  rewrite En, En'. unfold kids. rewrite List.filter_app. cbn [List.filter].
  unfold parentIs at 2. rewrite bool_decide_eq_true_2 by assumption.
  apply js_sort_snoc. intros c Hc. apply filter_In in Hc as [Hc Epc].
  apply bool_decide_eq_true in Epc. now apply Hlast.
Qed.

(** * The claims of the specification *)

(** ** The seeded dataset *)

(** C1 (as the code has it): the seeded dataset has seven comments
    and one root, [1]; [6] is a reply to [1].  [buildTree] returns the
    single root [1] with children [2] and [6], [getMaxDepth] is 4 (the
    depth of node [5]), [countNodes] is 7.  Deleting [1] removes all
    seven comments, in the coordinator and in the store, and the empty
    collection has an empty forest, maximal depth 0 and 0 nodes. *)
Theorem seeded_dataset :
  length CommentService.getInitialData = 7%nat /\
  CommentService.getComments None
  = (CommentService.getInitialData, Some CommentService.getInitialData) /\
  List.map (fun c => (id c, parentId c, author c)) CommentService.getInitialData
  = [ ("1", None, "Alice"); ("2", Some "1", "Bob"); ("3", Some "2", "Charlie");
      ("4", Some "3", "Bob"); ("5", Some "4", "David"); ("6", Some "1", "Eve");
      ("7", Some "6", "Frank") ] /\
  (exists root,
     buildTree JsDate.getTime CommentService.getInitialData = Some [root] /\
     id (node_comment root) = "1" /\
     List.map (fun n => id (node_comment n)) (children root) = ["2"; "6"] /\
     getMaxDepth [root] = 4%nat /\
     List.filter (fun n => Nat.eqb (depth n) 4) (subnodes root)
     = [mkNode (mkComment "5" (Some "4") "This is getting deep! We're at level 4 now."
                  "David" "2024-01-10T10:20:00Z" None) [] 4] /\
     countNodes [root] = 7%nat) /\
  DiscussionThread.deletedComments CommentService.getInitialData "1"
  = Some CommentService.getInitialData /\
  (exists k,
     DiscussionThread.handleDelete true CommentService.getInitialData "1"
       (DiscussionThread.mkState CommentService.getInitialData [] [])
     = Some (DiscussionThread.mkState [] [DiscussionThread.CallDelete "1"] [],
             Some (CommentService.getInitialData, k))) /\
  CommentService.deleteComment "1" (Some CommentService.getInitialData)
  = Some (Some []) /\
  buildTree JsDate.getTime [] = Some [] /\
  getMaxDepth [] = 0%nat /\ countNodes [] = 0%nat.
Proof.
  split; [reflexivity|]. split; [reflexivity|]. split; [reflexivity|].
  split.
  { eexists. split; [vm_compute; reflexivity|]. repeat split. }
  split; [vm_compute; reflexivity|].
  split; [eexists; vm_compute; reflexivity|].
  repeat split.
Qed.

(** C1 as stated fails: the forest of the seeded dataset does not have
    the two roots [1] and [6]. *)
Lemma seeded_dataset_two_roots_counterexample :
  ~ exists forest,
      buildTree JsDate.getTime CommentService.getInitialData = Some forest /\
      List.map (fun n => id (node_comment n)) forest = ["1"; "6"].
Proof.
  intros (forest & E & H). vm_compute in E. injection E as <-. discriminate H.
Qed.

(** ** Tree builder *)

(** C2 (failing input): on three generations listed youngest first the
    grandchild [c] is two links below the root [a] in the returned
    forest, but its [depth] field is 1: its depth was computed from its
    parent's depth before the parent received its own. *)
Theorem depth_youngest_first :
  well_formed Samples.youngest_first = true /\
  buildTree JsDate.getTime Samples.youngest_first
  = Some
      [ mkNode (mkComment "a" None "root" "Alice" "2024-03-01T12:00:00Z" None)
          [ mkNode (mkComment "b" (Some "a") "child" "Bob" "2024-03-01T12:01:00Z" None)
              [ mkNode (mkComment "c" (Some "b") "grandchild" "Carol"
                          "2024-03-01T12:02:00Z" None) [] 1 ]
              1 ]
          0 ] /\
  (forall forest,
     buildTree JsDate.getTime Samples.youngest_first = Some forest ->
     forallb (depth_is_distance 0) forest = false).
Proof.
  split; [vm_compute; reflexivity|]. split; [vm_compute; reflexivity|].
  intros forest E. vm_compute in E. injection E as <-. reflexivity.
Qed.

(** C6 (failing input): rebuilding from the flattened forest of the
    same collection gives the same shape but another [depth] at [c]
    (2 instead of 1), because the pre-order listing puts parents first. *)
Theorem rebuild_youngest_first :
  exists forest forest',
    buildTree JsDate.getTime Samples.youngest_first = Some forest /\
    buildTree JsDate.getTime (flattenTree forest) = Some forest' /\
    List.map (fun n => (id (node_comment n), depth n)) (flat_map subnodes forest)
    = [("a", 0%nat); ("b", 1%nat); ("c", 1%nat)] /\
    List.map (fun n => (id (node_comment n), depth n)) (flat_map subnodes forest')
    = [("a", 0%nat); ("b", 1%nat); ("c", 2%nat)] /\
    forest <> forest'.
Proof.
  do 2 eexists. split; [vm_compute; reflexivity|].
  split; [vm_compute; reflexivity|].
  split; [reflexivity|]. split; [reflexivity|]. discriminate.
Qed.

(** C7: on a flat collection of the data model (unique ids, no
    cycles; empty collections and orphaned [parentId]s included)
    [buildTree] returns a forest with [countNodes] equal to the length
    of the collection; every comment occurs exactly once in it, the
    roots are the comments without a parent in the collection, and the
    children of a node are the comments that name it as their parent. *)
Theorem countNodes_buildTree (getTime : string -> option Z) (C : list Comment) :
  well_formed C = true ->
  exists forest,
    buildTree getTime C = Some forest /\
    countNodes forest = length C /\
    Permutation (flattenTree forest) C /\
    Permutation (List.map node_comment forest) (List.filter (is_root C) C) /\
    forall n, In n (flat_map subnodes forest) ->
      Permutation (List.map node_comment (children n))
                  (List.filter (parentIs (id (node_comment n))) C).
Proof.
  intros Hwf. apply well_formed_unfold in Hwf as [Hnd Hac].
  exists (List.map (tree getTime C (length C)) (roots_of getTime C)).
  pose proof (forest_perm getTime C Hnd Hac) as Hperm.
  split; [now apply buildTree_spec|]. split; [|split; [assumption|split]].
  - rewrite countNodes_flattenTree. now apply Permutation_length.
  - rewrite tree_comments. apply js_sort_perm.
  - intros n Hn. apply (forest_subnodes getTime C Hnd Hac) in Hn as [_ ->].
    apply js_sort_perm.
Qed.

Lemma countNodes_buildTree_witness :
  well_formed Samples.orphaned = true /\
  exists forest,
    buildTree JsDate.getTime Samples.orphaned = Some forest /\
    countNodes forest = length Samples.orphaned /\
    Permutation (flattenTree forest) Samples.orphaned /\
    Permutation (List.map node_comment forest)
                (List.filter (is_root Samples.orphaned) Samples.orphaned) /\
    forall n, In n (flat_map subnodes forest) ->
      Permutation (List.map node_comment (children n))
                  (List.filter (parentIs (id (node_comment n))) Samples.orphaned).
Proof.
  split; [vm_compute; reflexivity|].
  apply (countNodes_buildTree JsDate.getTime Samples.orphaned). vm_compute; reflexivity.
Defined.

(** C8: on a flat collection with unique ids (and, as the data model
    requires, no cycles) [flattenTree (buildTree C)] holds exactly the
    records of [C], each once and with all its fields; the emitted
    records are [Comment]s, without [children] and [depth]. *)
Theorem flattenTree_buildTree_roundtrip (getTime : string -> option Z)
    (C : list Comment) :
  well_formed C = true ->
  exists forest,
    buildTree getTime C = Some forest /\
    Permutation (flattenTree forest) C /\
    forall c, In c (flattenTree forest) <-> In c C.
Proof.
  intros Hwf. apply well_formed_unfold in Hwf as [Hnd Hac].
  exists (List.map (tree getTime C (length C)) (roots_of getTime C)).
  pose proof (forest_perm getTime C Hnd Hac) as Hperm.
  split; [now apply buildTree_spec|]. split; [assumption|].
  intros c. split; apply Permutation_in; [|symmetry]; assumption.
Qed.

Lemma flattenTree_buildTree_roundtrip_witness :
  well_formed Samples.youngest_first = true /\
  exists forest,
    buildTree JsDate.getTime Samples.youngest_first = Some forest /\
    Permutation (flattenTree forest) Samples.youngest_first /\
    forall c, In c (flattenTree forest) <-> In c Samples.youngest_first.
Proof.
  split; [vm_compute; reflexivity|].
  apply (flattenTree_buildTree_roundtrip JsDate.getTime Samples.youngest_first).
  vm_compute; reflexivity.
Defined.

(** C9: on a flat collection of the data model whose timestamps are
    all readable, the root sequence and the children sequence of every
    node of [buildTree C] are in non-decreasing [createdAt] order, and
    the comments of one sequence that share a timestamp stand in the
    order they have in [C]. *)
Theorem buildTree_sorted_stable (getTime : string -> option Z) (C : list Comment) :
  well_formed C = true ->
  parseable getTime C = true ->
  exists forest,
    buildTree getTime C = Some forest /\
    StronglySorted (time_le getTime) (List.map node_comment forest) /\
    (forall t, List.filter (has_time getTime t) (List.map node_comment forest)
               = List.filter (has_time getTime t) (List.filter (is_root C) C)) /\
    forall n, In n (flat_map subnodes forest) ->
      StronglySorted (time_le getTime) (List.map node_comment (children n)) /\
      forall t,
        List.filter (has_time getTime t) (List.map node_comment (children n))
        = List.filter (has_time getTime t)
            (List.filter (parentIs (id (node_comment n))) C).
Proof.
  intros Hwf Hp. apply well_formed_unfold in Hwf as [Hnd Hac].
  exists (List.map (tree getTime C (length C)) (roots_of getTime C)).
  split; [now apply buildTree_spec|]. rewrite tree_comments.
  split; [|split].
  - apply js_sort_time_sorted, parseable_filter, Hp.
  - intros t. apply js_sort_time_stable.
  - intros n Hn. apply (forest_subnodes getTime C Hnd Hac) in Hn as [_ ->].
    split.
    + apply js_sort_time_sorted, parseable_filter, Hp.
    + intros t. apply js_sort_time_stable.
Qed.

Lemma buildTree_sorted_stable_witness :
  well_formed Samples.same_instant = true /\
  parseable JsDate.getTime Samples.same_instant = true /\
  exists forest,
    buildTree JsDate.getTime Samples.same_instant = Some forest /\
    StronglySorted (time_le JsDate.getTime) (List.map node_comment forest) /\
    (forall t, List.filter (has_time JsDate.getTime t) (List.map node_comment forest)
               = List.filter (has_time JsDate.getTime t)
                   (List.filter (is_root Samples.same_instant) Samples.same_instant)) /\
    forall n, In n (flat_map subnodes forest) ->
      StronglySorted (time_le JsDate.getTime) (List.map node_comment (children n)) /\
      forall t,
        List.filter (has_time JsDate.getTime t) (List.map node_comment (children n))
        = List.filter (has_time JsDate.getTime t)
            (List.filter (parentIs (id (node_comment n))) Samples.same_instant).
Proof.
  split; [vm_compute; reflexivity|]. split; [vm_compute; reflexivity|].
  apply (buildTree_sorted_stable JsDate.getTime Samples.same_instant);
    vm_compute; reflexivity.
Defined.

(** ** Mutation coordinator *)

(** C3 (as the code has it): on a well-formed collection [handleDelete]
    removes exactly the target and its transitive replies, the closure
    being computed on the collection before the removal, and issues the
    delete request.  If the store fails, the retained records are
    appended unchanged to the collection current at that time, so
    nothing else is removed; without an intervening change the
    collection is a rearrangement of the one before the delete, the
    forest built from it holds all its records again and, the
    timestamps being readable, is again ordered by [createdAt].  If
    the store succeeds nothing more happens. *)
Theorem handleDelete_protocol (getTime : string -> option Z) (C : list Comment)
    (target : string) (st : DiscussionThread.State) :
  well_formed C = true ->
  DiscussionThread.comments st = C ->
  exists st1 settle,
    let deleted := List.filter (in_subtree C target) C in
    DiscussionThread.handleDelete true C target st
    = Some (st1, Some (deleted, settle)) /\
    (forall c, In c deleted <-> in_closure C target c) /\
    DiscussionThread.comments st1
    = List.filter (fun c => negb (in_subtree C target c)) C /\
    (forall c, In c (DiscussionThread.comments st1)
               <-> In c C /\ ~ in_closure C target c) /\
    DiscussionThread.calls st1
    = DiscussionThread.calls st ++ [DiscussionThread.CallDelete target] /\
    (forall cur, settle (Some tt) cur = cur) /\
    (forall cur, DiscussionThread.comments (settle None cur)
                 = DiscussionThread.comments cur ++ deleted) /\
    Permutation (DiscussionThread.comments (settle None st1)) C /\
    exists forest,
      buildTree getTime (DiscussionThread.comments (settle None st1)) = Some forest /\
      Permutation (flattenTree forest) C /\
      (parseable getTime C = true ->
       StronglySorted (time_le getTime) (List.map node_comment forest) /\
       forall n, In n (flat_map subnodes forest) ->
         StronglySorted (time_le getTime) (List.map node_comment (children n))).
Proof.
  intros Hwf Hst.
  assert (Hrest : List.filter
                    (fun c => negb (bool_decide
                                      (c ∈ List.filter (in_subtree C target) C))) C
                  = List.filter (fun c => negb (in_subtree C target c)) C).
  { apply filter_ext_in. intros c Hc. now rewrite includes_filter. }
  assert (Hperm : Permutation
                    (List.filter (fun c => negb (in_subtree C target c)) C
                     ++ List.filter (in_subtree C target) C) C)
    by apply filter_split_perm.
  unfold DiscussionThread.handleDelete. cbn [negb].
  rewrite (deletedComments_spec C target Hwf). cbn [mbind option_bind].
  do 2 eexists. cbv zeta. split; [reflexivity|].
  cbn [DiscussionThread.comments DiscussionThread.calls DiscussionThread.issue
       DiscussionThread.setComments DiscussionThread.alert].
  rewrite Hst, Hrest.
  split; [|split; [reflexivity|split; [|split; [reflexivity|split;
    [reflexivity|split; [reflexivity|split; [exact Hperm|]]]]]]].
  - intros c. rewrite filter_In. split.
    + intros [Hc H]. now apply in_subtree_closure in H.
    + intros H. pose proof (in_closure_In _ _ _ H) as Hc.
      split; [assumption|]. now apply in_subtree_closure.
  - intros c. rewrite filter_In, negb_true_iff. split.
    + intros [Hc H]. split; [assumption|]. intros Hcl.
      apply (in_subtree_closure C target c Hwf Hc) in Hcl. congruence.
    + intros [Hc H]. split; [assumption|]. apply not_true_is_false.
      intros Hs. now apply H, in_subtree_closure.
  - assert (Hwf' := well_formed_perm _ _ (Permutation_sym Hperm) Hwf).
    apply well_formed_unfold in Hwf' as [Hnd Hac].
    eexists. split; [now apply buildTree_spec|].
    split; [etransitivity; [now apply forest_perm|exact Hperm]|].
    intros Hp. apply (parseable_perm getTime _ _ (Permutation_sym Hperm)) in Hp.
    rewrite tree_comments. split.
    + apply js_sort_time_sorted, parseable_filter, Hp.
    + intros n Hn. apply (forest_subnodes getTime _ Hnd Hac) in Hn as [_ ->].
      apply js_sort_time_sorted, parseable_filter, Hp.
Qed.

Lemma handleDelete_protocol_witness :
  exists st1 settle,
    DiscussionThread.handleDelete true Samples.orphaned "2"
      (DiscussionThread.mkState Samples.orphaned [] [])
    = Some (st1, Some (List.filter (in_subtree Samples.orphaned "2") Samples.orphaned,
                       settle)) /\
    List.map id (DiscussionThread.comments st1) = ["1"; "6"; "7"; "9"] /\
    List.map id (DiscussionThread.comments (settle None st1))
    = ["1"; "6"; "7"; "9"; "2"; "3"; "4"; "5"; "8"] /\
    exists forest,
      buildTree JsDate.getTime (DiscussionThread.comments (settle None st1))
      = Some forest /\
      Permutation (flattenTree forest) Samples.orphaned.
Proof.
  destruct (handleDelete_protocol JsDate.getTime Samples.orphaned "2"
              (DiscussionThread.mkState Samples.orphaned [] []))
    as (st1 & settle & H & _ & H1 & _ & _ & _ & H2 & _ & forest & H3 & H4 & _).
  - vm_compute; reflexivity.
  - reflexivity.
  - exists st1, settle. split; [exact H|]. split; [now rewrite H1|].
    split; [now rewrite H2, H1|]. exists forest. split; assumption.
Defined.

(** C3 as stated fails: [x] and [y] were posted in the same
    millisecond, [x] first, so the forest lists [p], [z], [x], [y].
    After the delete of [x] is rolled back, [x] is the last record of
    the collection, and the forest lists [p], [z], [y], [x]. *)
Lemma rollback_tied_siblings_counterexample :
  ~ rollback_restores_positions JsDate.getTime Samples.same_instant "x".
Proof.
  intros H.
  eassert (E : DiscussionThread.handleDelete true Samples.same_instant "x"
                 (DiscussionThread.mkState Samples.same_instant [] [])
               = Some (_, Some (_, _))) by (lazy; reflexivity).
  eassert (E1 : buildTree JsDate.getTime Samples.same_instant = Some _)
    by (vm_compute; reflexivity).
  eassert (E2 : buildTree JsDate.getTime
                  (List.filter (fun c => negb (bool_decide (id c = "x")))
                     Samples.same_instant
                   ++ List.filter (fun c => bool_decide (id c = "x"))
                        Samples.same_instant)
                = Some _) by (vm_compute; reflexivity).
  specialize (H _ _ _ _ _ E E1 E2). vm_compute in H. discriminate H.
Qed.

(** C4: [handleReply] appends exactly one comment, flagged
    [optimistic] and carrying a [temp_] id, and issues the add request.
    When the store answers, the collection [cur] holds that comment at
    some position and no other record with its id.  On success the
    comment is replaced at that position by the store's comment, which
    has the store-assigned id and no [optimistic] flag; on failure it is
    removed and nothing else changes. *)
Theorem handleReply_protocol (env store_env : Env)
    (parent reply_content reply_author : string)
    (st cur : DiscussionThread.State) (store : CommentService.Storage)
    (before after : list Comment) :
  let tmp :=
    DiscussionThread.optimisticComment env parent reply_content reply_author in
  let server :=
    (CommentService.addComment store_env (Some parent) reply_content reply_author
       None store).1 in
  DiscussionThread.comments cur = before ++ tmp :: after ->
  (forall c, In c (before ++ after) -> id c <> id tmp) ->
  let '(st1, settle) :=
    DiscussionThread.handleReply env parent reply_content reply_author st in
  DiscussionThread.comments st1 = DiscussionThread.comments st ++ [tmp] /\
  DiscussionThread.calls st1
  = DiscussionThread.calls st
    ++ [DiscussionThread.CallAdd parent reply_content reply_author] /\
  optimistic tmp = Some true /\
  id tmp = String.append "temp_"
             (String.append (date_now env) (String.append "_" (math_random env))) /\
  (parentId tmp, content tmp, author tmp)
  = (Some parent, reply_content, reply_author) /\
  DiscussionThread.comments (settle (Some server) cur) = before ++ server :: after /\
  optimistic server = None /\
  id server = String.append "comment_"
                (String.append (date_now store_env)
                   (String.append "_" (substring 2 9 (random_base36 store_env)))) /\
  (parentId server, content server, author server)
  = (Some parent, reply_content, reply_author) /\
  DiscussionThread.comments (settle None cur) = before ++ after.
Proof.
  intros tmp server Hcur Hfresh.
  unfold DiscussionThread.handleReply. cbv zeta. fold tmp.
  assert (Hb : forall c, In c before -> id c <> id tmp)
    by (intros c Hc; apply Hfresh, in_or_app; now left).
  assert (Ha : forall c, In c after -> id c <> id tmp)
    by (intros c Hc; apply Hfresh, in_or_app; now right).
  split; [reflexivity|]. split; [reflexivity|]. split; [reflexivity|].
  split; [reflexivity|]. split; [reflexivity|].
  split; [|split; [|split; [|split]]].
  - cbn [DiscussionThread.comments DiscussionThread.setComments].
    rewrite Hcur, map_app. cbn [List.map].
    rewrite bool_decide_eq_true_2 by reflexivity.
    now rewrite (map_replace_fresh _ _ before Hb), (map_replace_fresh _ _ after Ha).
  - unfold server, CommentService.addComment. now destruct store.
  - unfold server, CommentService.addComment. now destruct store.
  - unfold server, CommentService.addComment. now destruct store.
  - cbn [DiscussionThread.comments DiscussionThread.setComments DiscussionThread.alert].
    rewrite Hcur, List.filter_app. cbn [List.filter].
    rewrite bool_decide_eq_true_2 by reflexivity. cbn [negb].
    now rewrite (filter_remove_fresh _ before Hb), (filter_remove_fresh _ after Ha).
Qed.

Lemma handleReply_protocol_witness :
  let tmp :=
    DiscussionThread.optimisticComment Samples.reply_env "2" "Agreed." "Judy" in
  let server :=
    (CommentService.addComment Samples.store_env (Some "2") "Agreed." "Judy" None
       (Some CommentService.getInitialData)).1 in
  let st := DiscussionThread.mkState CommentService.getInitialData [] [] in
  let cur :=
    DiscussionThread.mkState
      (CommentService.getInitialData ++ tmp :: [Samples.confirmed_meanwhile])
      [DiscussionThread.CallAdd "2" "Agreed." "Judy"] [] in
  let '(st1, settle) :=
    DiscussionThread.handleReply Samples.reply_env "2" "Agreed." "Judy" st in
  DiscussionThread.comments st1 = CommentService.getInitialData ++ [tmp] /\
  DiscussionThread.comments (settle (Some server) cur)
  = CommentService.getInitialData ++ server :: [Samples.confirmed_meanwhile] /\
  DiscussionThread.comments (settle None cur)
  = CommentService.getInitialData ++ [Samples.confirmed_meanwhile].
Proof.
  pose proof
    (handleReply_protocol Samples.reply_env Samples.store_env "2" "Agreed." "Judy"
       (DiscussionThread.mkState CommentService.getInitialData [] [])
       (DiscussionThread.mkState
          (CommentService.getInitialData
           ++ DiscussionThread.optimisticComment Samples.reply_env "2" "Agreed." "Judy"
              :: [Samples.confirmed_meanwhile])
          [DiscussionThread.CallAdd "2" "Agreed." "Judy"] [])
       (Some CommentService.getInitialData)
       CommentService.getInitialData [Samples.confirmed_meanwhile]
       eq_refl) as H.
  cbv zeta in H |- *.
  destruct (DiscussionThread.handleReply Samples.reply_env "2" "Agreed." "Judy"
              (DiscussionThread.mkState CommentService.getInitialData [] []))
    as [st1 settle].
  destruct H as (H1 & _ & _ & _ & _ & H2 & _ & _ & _ & H3).
  - intros c Hc. simpl in Hc.
    repeat (destruct Hc as [<-|Hc]; [discriminate|]). destruct Hc.
  - repeat split; assumption.
Defined.

(** C5 (as the code has it): a reply whose content or author is empty
    or blank is dropped by [CommentItem.handleSubmitReply] before
    [handleReply] is called: the collection is unchanged and no request
    is issued.  [handleReply] itself does not look at the fields. *)
Theorem handleSubmitReply_rejects_blank (env : Env) (node_id : string)
    (form : CommentItem.Form) (st : DiscussionThread.State) :
  CommentItem.trim (CommentItem.replyContent form) = ""
  \/ CommentItem.trim (CommentItem.replyAuthor form) = "" ->
  CommentItem.handleSubmitReply
    (fun p c a s => (DiscussionThread.handleReply env p c a s).1) node_id form st
  = (form, st).
Proof.
  intros H. unfold CommentItem.handleSubmitReply, CommentItem.truthy.
  destruct H as [-> | ->]; simpl; [reflexivity|].
  now rewrite andb_false_r.
Qed.

Lemma handleSubmitReply_rejects_blank_witness :
  let form := CommentItem.mkForm true "   " "Judy" in
  let st := DiscussionThread.mkState CommentService.getInitialData [] [] in
  CommentItem.handleSubmitReply
    (fun p c a s => (DiscussionThread.handleReply Samples.reply_env p c a s).1)
    "3" form st
  = (form, st).
Proof.
  apply (handleSubmitReply_rejects_blank Samples.reply_env "3"
           (CommentItem.mkForm true "   " "Judy")).
  left. reflexivity.
Defined.

(** C5 as stated fails: called with an empty content and author,
    [handleReply] appends the optimistic comment and issues the add
    request. *)
Lemma handleReply_blank_counterexample :
  ~ (forall (env : Env) (parent reply_content reply_author : string)
            (st : DiscussionThread.State),
       reply_content = "" \/ reply_author = "" ->
       (DiscussionThread.handleReply env parent reply_content reply_author st).1 = st).
Proof.
  intros H.
  specialize (H Samples.reply_env "1" "" ""
                (DiscussionThread.mkState CommentService.getInitialData [] [])
                (or_introl eq_refl)).
  discriminate H.
Qed.

(** C10: when no record of the collection carries the temporary id at
    the time the store's add succeeds, the confirmation step leaves the
    state as it is: the store's comment is not inserted and no record
    is modified. *)
Theorem confirm_without_temporary (env : Env)
    (parent reply_content reply_author : string)
    (st cur : DiscussionThread.State) (server : Comment) :
  (forall c, In c (DiscussionThread.comments cur) ->
     id c <> id (DiscussionThread.optimisticComment env parent reply_content
                   reply_author)) ->
  (DiscussionThread.handleReply env parent reply_content reply_author st).2
    (Some server) cur = cur.
Proof.
  intros Hfresh. destruct cur as [l cs al]. simpl.
  unfold DiscussionThread.setComments. simpl. f_equal.
  now apply map_replace_fresh.
Qed.

Lemma confirm_without_temporary_witness :
  let st := DiscussionThread.mkState CommentService.getInitialData [] [] in
  let cur := DiscussionThread.mkState [Samples.confirmed_meanwhile]
               [DiscussionThread.CallAdd "7" "Hello?" "Judy";
                DiscussionThread.CallDelete "1"] [] in
  (DiscussionThread.handleReply Samples.reply_env "7" "Hello?" "Judy" st).2
    (Some (CommentService.addComment Samples.store_env (Some "7") "Hello?" "Judy" None
             (Some [Samples.confirmed_meanwhile])).1)
    cur = cur.
Proof.
  apply (confirm_without_temporary Samples.reply_env "7" "Hello?" "Judy").
  intros c Hc. simpl in Hc. destruct Hc as [<-|[]]. discriminate.
Defined.

(** * Further properties *)

(** X1: when every comment with a parent in the collection stands
    after that parent, every node of the forest carries its distance from
    the root as [depth]: roots have depth 0 and a child has its
    parent's depth plus one. *)
Theorem depth_parents_first (getTime : string -> option Z) (C : list Comment) :
  well_formed C = true ->
  parents_first C = true ->
  exists forest,
    buildTree getTime C = Some forest /\
    forallb (depth_is_distance 0) forest = true.
Proof.
  intros Hwf Hpf. apply well_formed_unfold in Hwf as [Hnd Hac].
  exists (List.map (tree getTime C (length C)) (roots_of getTime C)).
  split; [now apply buildTree_spec|].
  apply forallb_forall. intros t Ht. apply in_map_iff in Ht as (c & <- & Hc).
  apply roots_of_In in Hc as [Hc Hr].
  apply (level_root C Hnd Hac c Hc) in Hr. rewrite <- Hr.
  now apply tree_depth_is_distance.
Qed.

Lemma depth_parents_first_witness :
  exists forest,
    buildTree JsDate.getTime Samples.orphaned = Some forest /\
    forallb (depth_is_distance 0) forest = true.
Proof.
  apply (depth_parents_first JsDate.getTime Samples.orphaned); vm_compute; reflexivity.
Defined.

(** X2: a comment whose [parentId] names no comment of the collection
    is a root of the forest, with depth 0. *)
Theorem orphan_is_root (getTime : string -> option Z) (C : list Comment)
    (c : Comment) (pid : string) :
  well_formed C = true ->
  In c C -> parentId c = Some pid -> ~ In pid (List.map id C) ->
  exists forest,
    buildTree getTime C = Some forest /\
    exists kids, In (mkNode c kids 0) forest.
Proof.
  intros Hwf Hc Ep Hpid. apply well_formed_unfold in Hwf as [Hnd Hac].
  exists (List.map (tree getTime C (length C)) (roots_of getTime C)).
  split; [now apply buildTree_spec|].
  assert (Hroot : is_root C c = true).
  { unfold is_root. rewrite Ep.
    apply negb_true_iff, bool_decide_eq_false_2. now rewrite list_elem_of_In. }
  exists (children (tree getTime C (length C) c)).
  rewrite <- (link_depth_root C c Hnd Hc Hroot), <- tree_eta.
  apply in_map, roots_of_In. auto.
Qed.

Lemma orphan_is_root_witness :
  exists forest,
    buildTree JsDate.getTime Samples.orphaned = Some forest /\
    exists kids,
      In (mkNode (mkComment "9" (Some "404") "My parent is gone." "Heidi"
                    "2024-01-10T09:00:00Z" None) kids 0) forest.
Proof.
  apply (orphan_is_root JsDate.getTime Samples.orphaned _ "404").
  - vm_compute; reflexivity.
  - simpl. tauto.
  - reflexivity.
  - simpl. intros H. repeat (destruct H as [H|H]; [discriminate|]). destruct H.
Defined.

(** X3: for a target present in a well-formed collection, the store's
    [deleteComment] keeps exactly the records that the coordinator's
    optimistic delete keeps. *)
Theorem deleteComment_agrees (C : list Comment) (target : string)
    (st : DiscussionThread.State) :
  well_formed C = true ->
  In target (List.map id C) ->
  DiscussionThread.comments st = C ->
  exists st1 pending,
    DiscussionThread.handleDelete true C target st = Some (st1, Some pending) /\
    CommentService.deleteComment target (Some C)
    = Some (Some (DiscussionThread.comments st1)).
Proof.
  intros Hwf Ht Hst. pose proof (well_formed_unfold C Hwf) as [Hnd Hac].
  apply in_map_iff in Ht as (t & Et & Ht).
  unfold DiscussionThread.handleDelete. cbn [negb].
  rewrite (deletedComments_spec C target Hwf). cbn [mbind option_bind].
  do 2 eexists. split; [reflexivity|].
  cbn [DiscussionThread.comments DiscussionThread.issue DiscussionThread.setComments].
  unfold CommentService.deleteComment. cbn [CommentService.getComments].
  destruct (findAllChildIds_spec C Hnd Hac (S (length C)) t Ht) as (ids & E & Hids);
    [lia|].
  rewrite Et in E. rewrite E. cbn [mbind option_bind]. do 2 f_equal.
  rewrite Hst. apply filter_ext_in. intros c Hc. f_equal.
  rewrite includes_filter by assumption.
  apply eq_iff_eq_true.
  rewrite bool_decide_eq_true, (in_subtree_closure C target c Hwf Hc),
    (in_closure_ancestor C target c Hnd), list_elem_of_In.
  simpl. rewrite (Hids c Hc). split.
  - intros [E'|Ha]; (split; [assumption|]); [now left|right; exists t; auto].
  - intros [_ [E'|(t' & Ht' & Et' & Ha)]]; [now left|right].
    now rewrite <- (unique_id_eq C t' t Hnd Ht' Ht) by congruence.
Qed.

Lemma deleteComment_agrees_witness :
  exists st1 pending,
    DiscussionThread.handleDelete true Samples.orphaned "6"
      (DiscussionThread.mkState Samples.orphaned [] [])
    = Some (st1, Some pending) /\
    CommentService.deleteComment "6" (Some Samples.orphaned)
    = Some (Some (DiscussionThread.comments st1)).
Proof.
  apply (deleteComment_agrees Samples.orphaned "6").
  - vm_compute; reflexivity.
  - simpl. tauto.
  - reflexivity.
Defined.

(** X4: [getMaxDepth] is 0 on the empty forest and otherwise the
    largest [depth] field among the nodes of the forest. *)
Theorem getMaxDepth_spec (forest : list CommentNode) :
  getMaxDepth forest = list_max (List.map depth (flat_map subnodes forest)).
Proof.
  unfold getMaxDepth.
  assert (G : forall acc,
    foldl (fun m node => maxDepth_traverse node m) acc forest
    = Nat.max acc (list_max (List.map depth (flat_map subnodes forest)))).
  { induction forest as [|n forest IH]; intros acc; cbn [foldl flat_map].
    - simpl. now rewrite Nat.max_0_r.
    - rewrite maxDepth_traverse_spec, IH, map_app, list_max_app.
      now rewrite Nat.max_assoc. }
  destruct forest as [|n forest]; [reflexivity|]. now rewrite G.
Qed.

(** X5: [flattenTree] lists the comments of the nodes of the forest in
    pre-order, and [countNodes] counts these nodes. *)
Theorem flattenTree_preorder (forest : list CommentNode) :
  flattenTree forest = List.map node_comment (flat_map subnodes forest) /\
  countNodes forest = length (flat_map subnodes forest).
Proof.
  assert (E : flattenTree forest = List.map node_comment (flat_map subnodes forest)).
  { rewrite flattenTree_spec.
    induction forest as [|n forest IH]; simpl; [reflexivity|].
    now rewrite node_list_subnodes, IH, map_app. }
  split; [exact E|].
  rewrite countNodes_flattenTree, E. apply length_map.
Qed.

(** ** Deleting, replying and the order of the thread *)

(** X6: on a well-formed collection with readable timestamps the
    optimistic delete takes the target and everything below it out of
    the thread and moves nothing else: the pre-order listing of the new
    forest is the old listing without the removed comments. *)
Theorem delete_prunes_forest (getTime : string -> option Z) (C : list Comment)
    (target : string) (st : DiscussionThread.State) :
  well_formed C = true ->
  parseable getTime C = true ->
  DiscussionThread.comments st = C ->
  exists st1 pending forest forest',
    DiscussionThread.handleDelete true C target st = Some (st1, Some pending) /\
    buildTree getTime C = Some forest /\
    buildTree getTime (DiscussionThread.comments st1) = Some forest' /\
    flattenTree forest'
    = List.filter (fun c => negb (in_subtree C target c)) (flattenTree forest).
Proof.
  intros Hwf Hp Hst.
  destruct (optimistic_delete C target st Hwf Hst) as (st1 & settle & E & E1 & _).
  pose proof (well_formed_unfold C Hwf) as [Hnd Hac].
  pose proof (well_formed_filter (fun c => negb (in_subtree C target c)) C Hwf) as Hwf'.
  apply well_formed_unfold in Hwf' as [Hnd' Hac'].
  exists st1. eexists. do 2 eexists. split; [exact E|].
  split; [now apply buildTree_spec|]. rewrite E1.
  split; [now apply buildTree_spec|].
  apply (forest_pruned getTime C (fun c => negb (in_subtree C target c)));
    try assumption.
  intros c p Hc Hk Ep. apply negb_true_iff in Hk. apply negb_true_iff.
  apply not_true_is_false. intros Hs.
  rewrite (subtree_keeps_parents C target Hwf c p Hc Ep Hs) in Hk. discriminate.
Qed.

Lemma delete_prunes_forest_witness :
  exists st1 pending forest forest',
    DiscussionThread.handleDelete true Samples.orphaned "2"
      (DiscussionThread.mkState Samples.orphaned [] [])
    = Some (st1, Some pending) /\
    buildTree JsDate.getTime Samples.orphaned = Some forest /\
    buildTree JsDate.getTime (DiscussionThread.comments st1) = Some forest' /\
    flattenTree forest'
    = List.filter (fun c => negb (in_subtree Samples.orphaned "2" c))
        (flattenTree forest).
Proof.
  apply (delete_prunes_forest JsDate.getTime Samples.orphaned "2");
    [vm_compute; reflexivity..|reflexivity].
Defined.

(** X7: a reply to a comment of a well-formed collection, posted
    under an id that no comment carries or names as its parent, changes
    nothing in the order of the thread: without the new comment the
    pre-order listing is the one before, and the new comment is among
    the children of the node it replies to. *)
Theorem reply_keeps_order (getTime : string -> option Z) (env : Env)
    (parent reply_content reply_author : string) (st : DiscussionThread.State) :
  let tmp :=
    DiscussionThread.optimisticComment env parent reply_content reply_author in
  let C := DiscussionThread.comments st in
  well_formed C = true ->
  parseable getTime (C ++ [tmp]) = true ->
  In parent (List.map id C) ->
  (forall c, In c C -> id c <> id tmp /\ parentId c <> Some (id tmp)) ->
  exists forest forest',
    buildTree getTime C = Some forest /\
    buildTree getTime
      (DiscussionThread.comments
         (DiscussionThread.handleReply env parent reply_content reply_author st).1)
    = Some forest' /\
    List.filter (fun c => negb (bool_decide (id c = id tmp))) (flattenTree forest')
    = flattenTree forest /\
    exists n,
      In n (flat_map subnodes forest') /\ id (node_comment n) = parent /\
      In tmp (List.map node_comment (children n)).
Proof.
  intros tmp C Hwf Hp Hparent Hfresh.
  pose proof (well_formed_unfold C Hwf) as [Hnd Hac].
  assert (Hf : forall c, In c C -> id c <> id tmp) by (intros c Hc; now apply Hfresh).
  assert (Hu : forall c, In c C -> parentId c <> Some (id tmp))
    by (intros c Hc; now apply Hfresh).
  assert (Hself : parentId tmp <> Some (id tmp)).
  { intros [= E]. apply in_map_iff in Hparent as (p & Ep & Hp').
    apply (Hf p Hp'). rewrite Ep. exact E. }
  pose proof (well_formed_snoc C tmp Hf Hu Hself Hwf) as Hwf'.
  apply well_formed_unfold in Hwf' as [Hnd' Hac'].
  set (keep := fun c : Comment => negb (bool_decide (id c = id tmp))).
  assert (Hkeep : List.filter keep (C ++ [tmp]) = C).
  { rewrite List.filter_app. unfold keep at 2. simpl.
    rewrite bool_decide_eq_true_2 by reflexivity. simpl.
    rewrite app_nil_r. now apply filter_remove_fresh. }
  do 2 eexists. split; [now apply buildTree_spec|].
  cbn [DiscussionThread.handleReply fst DiscussionThread.comments
       DiscussionThread.issue DiscussionThread.setComments].
  fold tmp. fold C.
  split; [now apply buildTree_spec|]. split.
  - assert (Hkp : forall c p, In c (C ++ [tmp]) -> keep c = true ->
              DiscussionThread.find_parent (C ++ [tmp]) c = Some p -> keep p = true).
    { intros c p Hc Hk E. apply find_parent_Some in E as [_ E].
      unfold keep in *. apply negb_true_iff, bool_decide_eq_false in Hk.
      apply negb_true_iff, bool_decide_eq_false_2. intros Ep.
      apply in_app_or in Hc as [Hc|[<-|[]]]; [|congruence].
      apply (Hu c Hc). congruence. }
    pose proof (forest_pruned getTime (C ++ [tmp]) keep Hnd' Hac' Hkp Hp) as H.
    cbv zeta in H. rewrite Hkeep in H. symmetry. exact H.
  - apply in_map_iff in Hparent as (p & Ep & Hp').
    assert (Hin : In p (flattenTree
                          (List.map (tree getTime (C ++ [tmp]) (length (C ++ [tmp])))
                             (roots_of getTime (C ++ [tmp]))))).
    { apply (Permutation_in _ (Permutation_sym (forest_perm getTime _ Hnd' Hac'))).
      apply in_or_app. now left. }
    apply flattenTree_In in Hin as (n & Hn & En). exists n.
    split; [assumption|]. split; [now rewrite En|].
    apply (forest_subnodes getTime _ Hnd' Hac') in Hn as [_ ->].
    apply kids_In. split; [apply in_or_app; right; now left|].
    rewrite En. simpl. now rewrite Ep.
Qed.

Lemma reply_keeps_order_witness :
  let tmp := DiscussionThread.optimisticComment Samples.reply_env "2" "Agreed." "Judy" in
  let st := DiscussionThread.mkState Samples.orphaned [] [] in
  exists forest forest',
    buildTree JsDate.getTime Samples.orphaned = Some forest /\
    buildTree JsDate.getTime
      (DiscussionThread.comments
         (DiscussionThread.handleReply Samples.reply_env "2" "Agreed." "Judy" st).1)
    = Some forest' /\
    List.filter (fun c => negb (bool_decide (id c = id tmp))) (flattenTree forest')
    = flattenTree forest /\
    exists n,
      In n (flat_map subnodes forest') /\ id (node_comment n) = "2" /\
      In tmp (List.map node_comment (children n)).
Proof.
  apply (reply_keeps_order JsDate.getTime Samples.reply_env "2" "Agreed." "Judy"
           (DiscussionThread.mkState Samples.orphaned [] [])).
  - vm_compute; reflexivity.
  - vm_compute; reflexivity.
  - simpl. tauto.
  - intros c Hc. simpl in Hc.
    repeat (destruct Hc as [<-|Hc]; [split; discriminate|]). destruct Hc.
Defined.

(** X8: when no two comments share a timestamp, [buildTree] gives
    for every rearrangement of a well-formed collection the same forest
    up to the [depth] fields, with the same pre-order listing; when both
    arrangements put parents first the forests are equal. *)
Theorem buildTree_order_independent (getTime : string -> option Z)
    (C C' : list Comment) :
  well_formed C = true ->
  parseable getTime C = true ->
  distinct_times getTime C = true ->
  Permutation C C' ->
  exists forest forest',
    buildTree getTime C = Some forest /\
    buildTree getTime C' = Some forest' /\
    List.map erase_depth forest' = List.map erase_depth forest /\
    flattenTree forest' = flattenTree forest /\
    (parents_first C = true -> parents_first C' = true -> forest' = forest).
Proof.
  intros Hwf Hp Hd HP.
  pose proof (well_formed_perm C C' HP Hwf) as Hwf'.
  pose proof (well_formed_unfold C Hwf) as [Hnd Hac].
  pose proof (well_formed_unfold C' Hwf') as [Hnd' Hac'].
  do 2 eexists. split; [now apply buildTree_spec|].
  split; [now apply buildTree_spec|].
  rewrite (roots_perm getTime C C' Hp Hd HP), <- (Permutation_length HP).
  split; [|split].
  - rewrite !map_map. apply map_ext. intros c. now apply erase_depth_tree_perm.
  - rewrite !flattenTree_forest. apply flat_map_ext_in. intros c _.
    now apply pre_perm.
  - intros Hpf Hpf'. apply map_ext_in. intros c Hc.
    apply roots_of_In in Hc as [Hc _]. now apply tree_perm.
Qed.

Lemma buildTree_order_independent_witness :
  exists forest forest',
    buildTree JsDate.getTime Samples.orphaned = Some forest /\
    buildTree JsDate.getTime (rev Samples.orphaned) = Some forest' /\
    List.map erase_depth forest' = List.map erase_depth forest /\
    flattenTree forest' = flattenTree forest /\
    (parents_first Samples.orphaned = true ->
     parents_first (rev Samples.orphaned) = true -> forest' = forest).
Proof.
  apply (buildTree_order_independent JsDate.getTime Samples.orphaned
           (rev Samples.orphaned)); [vm_compute; reflexivity..|].
  apply Permutation_rev.
Defined.

(** X9: when no two comments share a timestamp, a rolled-back
    delete gives every comment of a well-formed collection the position
    it had: the forest after the rollback is the forest before the
    delete up to the [depth] fields. *)
Theorem rollback_restores_distinct (getTime : string -> option Z) (C : list Comment)
    (target : string) :
  well_formed C = true ->
  parseable getTime C = true ->
  distinct_times getTime C = true ->
  rollback_restores_positions getTime C target /\
  exists st1 deleted settle forest forest',
    DiscussionThread.handleDelete true C target (DiscussionThread.mkState C [] [])
    = Some (st1, Some (deleted, settle)) /\
    buildTree getTime C = Some forest /\
    buildTree getTime (DiscussionThread.comments (settle None st1)) = Some forest' /\
    List.map erase_depth forest' = List.map erase_depth forest.
Proof.
  intros Hwf Hp Hd.
  destruct (optimistic_delete C target (DiscussionThread.mkState C [] []) Hwf eq_refl)
    as (st1 & settle & E & E1 & E2).
  assert (HP : Permutation C (DiscussionThread.comments (settle None st1))).
  { rewrite E2, E1. symmetry. apply filter_split_perm. }
  pose proof (well_formed_perm C _ HP Hwf) as Hwf'.
  pose proof (well_formed_unfold C Hwf) as [Hnd Hac].
  apply well_formed_unfold in Hwf' as [Hnd' Hac'].
  pose proof (buildTree_spec getTime C Hnd Hac) as B.
  pose proof (buildTree_spec getTime _ Hnd' Hac') as B'.
  split.
  - intros st1' deleted' settle' f f' E' Bf Bf'.
    rewrite E in E'. injection E' as <- _ <-.
    rewrite B in Bf. rewrite B' in Bf'. injection Bf as <-. injection Bf' as <-.
    now apply forest_perm_invariant.
  - exists st1, (List.filter (in_subtree C target) C), settle. do 2 eexists.
    split; [exact E|]. split; [exact B|]. split; [exact B'|].
    rewrite (roots_perm getTime C _ Hp Hd HP), <- (Permutation_length HP), !map_map.
    apply map_ext. intros c. now apply erase_depth_tree_perm.
Qed.

Lemma rollback_restores_distinct_witness :
  rollback_restores_positions JsDate.getTime Samples.orphaned "2" /\
  exists st1 deleted settle forest forest',
    DiscussionThread.handleDelete true Samples.orphaned "2"
      (DiscussionThread.mkState Samples.orphaned [] [])
    = Some (st1, Some (deleted, settle)) /\
    buildTree JsDate.getTime Samples.orphaned = Some forest /\
    buildTree JsDate.getTime (DiscussionThread.comments (settle None st1))
    = Some forest' /\
    List.map erase_depth forest' = List.map erase_depth forest.
Proof.
  apply (rollback_restores_distinct JsDate.getTime Samples.orphaned "2");
    vm_compute; reflexivity.
Defined.

(** ** The [depth] field *)

(** X10: whatever the order of a well-formed collection, the [depth]
    of a node never exceeds the number of parent links between its
    comment and the root, it is 0 exactly on the roots, and
    [getMaxDepth] is at most the largest such number. *)
Theorem depth_at_most_distance (getTime : string -> option Z) (C : list Comment) :
  well_formed C = true ->
  exists forest,
    buildTree getTime C = Some forest /\
    (forall n, In n (flat_map subnodes forest) ->
       (depth n <= level C (node_comment n))%nat /\
       (depth n = 0%nat <-> is_root C (node_comment n) = true)) /\
    (getMaxDepth forest <= list_max (List.map (level C) C))%nat.
Proof.
  intros Hwf. apply well_formed_unfold in Hwf as [Hnd Hac].
  eexists. split; [now apply buildTree_spec|].
  assert (H : forall n,
            In n (flat_map subnodes
                    (List.map (tree getTime C (length C)) (roots_of getTime C))) ->
            In (node_comment n) C /\
            depth n = link_depth C (id (node_comment n))).
  { intros n Hn. split; [now apply (forest_subnodes getTime C Hnd Hac) in Hn|].
    apply in_flat_map in Hn as (t & Ht & Hn).
    apply in_map_iff in Ht as (c & <- & Hc).
    now apply (tree_subnodes_depth C getTime (length C) c). }
  split.
  - intros n Hn. destruct (H n Hn) as [Hc ->]. now apply link_depth_bound.
  - apply getMaxDepth_bound. intros n Hn. destruct (H n Hn) as [Hc ->].
    etransitivity; [now apply link_depth_bound|].
    apply list_max_In. now apply in_map.
Qed.

Lemma depth_at_most_distance_witness :
  exists forest,
    buildTree JsDate.getTime Samples.youngest_first = Some forest /\
    (forall n, In n (flat_map subnodes forest) ->
       (depth n <= level Samples.youngest_first (node_comment n))%nat /\
       (depth n = 0%nat <-> is_root Samples.youngest_first (node_comment n) = true)) /\
    (getMaxDepth forest
     <= list_max (List.map (level Samples.youngest_first) Samples.youngest_first))%nat.
Proof.
  apply (depth_at_most_distance JsDate.getTime Samples.youngest_first).
  vm_compute; reflexivity.
Defined.

(** X11: the optimistic delete and, without an intervening change,
    its rollback keep a well-formed collection well-formed and its
    parents before their children, so that every node of the forest
    built afterwards carries its distance from the root as [depth]. *)
Theorem delete_keeps_parents_first (getTime : string -> option Z) (C : list Comment)
    (target : string) (st : DiscussionThread.State) :
  well_formed C = true ->
  parents_first C = true ->
  DiscussionThread.comments st = C ->
  exists st1 deleted settle,
    DiscussionThread.handleDelete true C target st
    = Some (st1, Some (deleted, settle)) /\
    orderly getTime (DiscussionThread.comments st1) /\
    orderly getTime (DiscussionThread.comments (settle None st1)).
Proof.
  intros Hwf Hpf Hst.
  destruct (optimistic_delete C target st Hwf Hst) as (st1 & settle & E & E1 & E2).
  pose proof (well_formed_unfold C Hwf) as [Hnd Hac].
  exists st1, (List.filter (in_subtree C target) C), settle.
  split; [exact E|]. rewrite E2, E1. split; apply orderly_intro.
  - now apply well_formed_filter.
  - now apply parents_first_filter.
  - eapply well_formed_perm; [|exact Hwf]. symmetry. apply filter_split_perm.
  - apply parents_first_rollback; try assumption.
    now apply subtree_keeps_parents.
Qed.

Lemma delete_keeps_parents_first_witness :
  exists st1 deleted settle,
    DiscussionThread.handleDelete true Samples.orphaned "2"
      (DiscussionThread.mkState Samples.orphaned [] [])
    = Some (st1, Some (deleted, settle)) /\
    orderly JsDate.getTime (DiscussionThread.comments st1) /\
    orderly JsDate.getTime (DiscussionThread.comments (settle None st1)).
Proof.
  apply (delete_keeps_parents_first JsDate.getTime Samples.orphaned "2");
    [vm_compute; reflexivity..|reflexivity].
Defined.

(** X12: the optimistic step of a reply to a comment of the
    collection, under an id that no comment carries or names as its
    parent, keeps the collection well-formed and its parents before
    their children; the forest built afterwards carries the right
    [depth] at every node. *)
Theorem reply_keeps_parents_first (getTime : string -> option Z) (env : Env)
    (parent reply_content reply_author : string) (st : DiscussionThread.State) :
  let tmp :=
    DiscussionThread.optimisticComment env parent reply_content reply_author in
  well_formed (DiscussionThread.comments st) = true ->
  parents_first (DiscussionThread.comments st) = true ->
  In parent (List.map id (DiscussionThread.comments st)) ->
  (forall c, In c (DiscussionThread.comments st) ->
     id c <> id tmp /\ parentId c <> Some (id tmp)) ->
  orderly getTime
    (DiscussionThread.comments
       (DiscussionThread.handleReply env parent reply_content reply_author st).1).
Proof.
  intros tmp Hwf Hpf Hparent Hfresh.
  cbn [DiscussionThread.handleReply fst]. fold tmp.
  cbn [DiscussionThread.comments DiscussionThread.issue DiscussionThread.setComments].
  assert (Hf : forall c, In c (DiscussionThread.comments st) -> id c <> id tmp)
    by (intros c Hc; now apply Hfresh).
  assert (Hu : forall c, In c (DiscussionThread.comments st) ->
                         parentId c <> Some (id tmp))
    by (intros c Hc; now apply Hfresh).
  assert (Hself : parentId tmp <> Some (id tmp)).
  { intros [= E]. apply in_map_iff in Hparent as (p & Ep & Hp').
    apply (Hf p Hp'). rewrite Ep. exact E. }
  apply orderly_intro.
  - now apply well_formed_snoc.
  - now apply parents_first_snoc.
Qed.

Lemma reply_keeps_parents_first_witness :
  orderly JsDate.getTime
    (DiscussionThread.comments
       (DiscussionThread.handleReply Samples.reply_env "2" "Agreed." "Judy"
          (DiscussionThread.mkState Samples.orphaned [] [])).1).
Proof.
  apply (reply_keeps_parents_first JsDate.getTime Samples.reply_env "2" "Agreed." "Judy"
           (DiscussionThread.mkState Samples.orphaned [] [])).
  - vm_compute; reflexivity.
  - vm_compute; reflexivity.
  - simpl. tauto.
  - intros c Hc. simpl in Hc.
    repeat (destruct Hc as [<-|Hc]; [split; discriminate|]). destruct Hc.
Defined.

(** X13: settling a reply keeps the collection well-formed and its
    parents before their children: on failure always, on success when
    the temporary id is carried by replies to [parent] only and no
    comment carries the store's id or names it as its parent. *)
Theorem settle_keeps_parents_first (getTime : string -> option Z)
    (env store_env : Env) (parent reply_content reply_author : string)
    (st cur : DiscussionThread.State) (store : CommentService.Storage) :
  let tmp :=
    DiscussionThread.optimisticComment env parent reply_content reply_author in
  let server :=
    (CommentService.addComment store_env (Some parent) reply_content reply_author
       None store).1 in
  let settle :=
    (DiscussionThread.handleReply env parent reply_content reply_author st).2 in
  well_formed (DiscussionThread.comments cur) = true ->
  parents_first (DiscussionThread.comments cur) = true ->
  orderly getTime (DiscussionThread.comments (settle None cur)) /\
  ((forall c, In c (DiscussionThread.comments cur) ->
      id c = id tmp -> parentId c = Some parent) ->
   (forall c, In c (DiscussionThread.comments cur) ->
      id c <> id server /\ parentId c <> Some (id server)) ->
   orderly getTime (DiscussionThread.comments (settle (Some server) cur))).
Proof.
  intros tmp server settle Hwf Hpf.
  pose proof (well_formed_unfold _ Hwf) as [Hnd Hac].
  unfold settle. cbn [DiscussionThread.handleReply snd]. fold tmp.
  cbn [DiscussionThread.comments DiscussionThread.setComments DiscussionThread.alert].
  split.
  - apply orderly_intro; [now apply well_formed_filter|now apply parents_first_filter].
  - intros Hsame Hfresh.
    assert (Hf : forall c, In c (DiscussionThread.comments cur) -> id c <> id server)
      by (intros c Hc; now apply Hfresh).
    assert (Hu : forall c, In c (DiscussionThread.comments cur) ->
                           parentId c <> Some (id server))
      by (intros c Hc; now apply Hfresh).
    assert (Hs : forall c, In c (DiscussionThread.comments cur) -> id c = id tmp ->
                           parentId c = parentId server).
    { intros c Hc Ec. rewrite (Hsame c Hc Ec). unfold server.
      now rewrite server_parentId. }
    apply orderly_intro;
      [now apply well_formed_replace|now apply parents_first_replace].
Qed.

Lemma settle_keeps_parents_first_witness :
  let st := DiscussionThread.mkState Samples.orphaned [] [] in
  let cur := (DiscussionThread.handleReply Samples.reply_env "2" "Agreed." "Judy" st).1 in
  let settle :=
    (DiscussionThread.handleReply Samples.reply_env "2" "Agreed." "Judy" st).2 in
  let server :=
    (CommentService.addComment Samples.store_env (Some "2") "Agreed." "Judy" None
       (Some Samples.orphaned)).1 in
  orderly JsDate.getTime (DiscussionThread.comments (settle None cur)) /\
  orderly JsDate.getTime (DiscussionThread.comments (settle (Some server) cur)).
Proof.
  destruct (settle_keeps_parents_first JsDate.getTime Samples.reply_env
              Samples.store_env "2" "Agreed." "Judy"
              (DiscussionThread.mkState Samples.orphaned [] [])
              (DiscussionThread.handleReply Samples.reply_env "2" "Agreed." "Judy"
                 (DiscussionThread.mkState Samples.orphaned [] [])).1
              (Some Samples.orphaned)) as [Hfail Hok].
  - vm_compute; reflexivity.
  - vm_compute; reflexivity.
  - split; [exact Hfail|]. apply Hok.
    + intros c Hc. simpl in Hc.
      repeat (destruct Hc as [<-|Hc]; [try discriminate; reflexivity|]). destruct Hc.
    + intros c Hc. simpl in Hc.
      repeat (destruct Hc as [<-|Hc]; [split; discriminate|]). destruct Hc.
Defined.

(** X14: a reply posted to a comment that is still optimistic names
    the temporary id as its parent.  When that comment is confirmed its
    id is replaced by the store's, no comment carries the temporary id
    any more, and the reply is a root of the forest, with depth 0. *)
Theorem reply_to_pending_becomes_root (getTime : string -> option Z)
    (env store_env : Env) (parent reply_content reply_author : string)
    (st cur : DiscussionThread.State) (store : CommentService.Storage)
    (r : Comment) :
  let tmp :=
    DiscussionThread.optimisticComment env parent reply_content reply_author in
  let server :=
    (CommentService.addComment store_env (Some parent) reply_content reply_author
       None store).1 in
  let settle :=
    (DiscussionThread.handleReply env parent reply_content reply_author st).2 in
  well_formed (DiscussionThread.comments cur) = true ->
  (forall c, In c (DiscussionThread.comments cur) ->
     id c = id tmp -> parentId c = Some parent) ->
  (forall c, In c (DiscussionThread.comments cur) ->
     id c <> id server /\ parentId c <> Some (id server)) ->
  In r (DiscussionThread.comments cur) ->
  parentId r = Some (id tmp) ->
  id r <> id tmp ->
  let after := DiscussionThread.comments (settle (Some server) cur) in
  In r after /\
  is_root after r = true /\
  exists forest,
    buildTree getTime after = Some forest /\
    exists kids, In (mkNode r kids 0) forest.
Proof.
  intros tmp server settle Hwf Hsame Hfresh Hr Ep Hid after.
  pose proof (well_formed_unfold _ Hwf) as [Hnd Hac].
  assert (Hf : forall c, In c (DiscussionThread.comments cur) -> id c <> id server)
    by (intros c Hc; now apply Hfresh).
  assert (Hu : forall c, In c (DiscussionThread.comments cur) ->
                         parentId c <> Some (id server))
    by (intros c Hc; now apply Hfresh).
  assert (Hs : forall c, In c (DiscussionThread.comments cur) -> id c = id tmp ->
                         parentId c = parentId server).
  { intros c Hc Ec. rewrite (Hsame c Hc Ec). unfold server.
    now rewrite server_parentId. }
  assert (Hwf' : well_formed after = true).
  { unfold after, settle. cbn [DiscussionThread.handleReply snd]. fold tmp.
    cbn [DiscussionThread.comments DiscussionThread.setComments].
    now apply well_formed_replace. }
  assert (Hin : In r after).
  { unfold after, settle. cbn [DiscussionThread.handleReply snd]. fold tmp.
    cbn [DiscussionThread.comments DiscussionThread.setComments].
    apply in_map_iff. exists r. split; [|assumption].
    now rewrite bool_decide_eq_false_2. }
  assert (Hroot : is_root after r = true).
  { unfold is_root. rewrite Ep. apply negb_true_iff, bool_decide_eq_false_2.
    rewrite list_elem_of_In. intros H. apply in_map_iff in H as (x & Ex & Hx).
    unfold after, settle in Hx. cbn [DiscussionThread.handleReply snd] in Hx.
    fold tmp in Hx.
    cbn [DiscussionThread.comments DiscussionThread.setComments] in Hx.
    apply in_map_iff in Hx as (c & <- & Hc). case_bool_decide as Ec.
    - now apply (store_id_not_temporary env store_env parent reply_content
                   reply_author (Some parent) reply_content reply_author None store).
    - contradiction. }
  split; [assumption|]. split; [assumption|].
  apply well_formed_unfold in Hwf' as [Hnd' Hac'].
  eexists. split; [now apply buildTree_spec|].
  exists (children (tree getTime after (length after) r)).
  rewrite <- (link_depth_root after r Hnd' Hin Hroot), <- tree_eta.
  apply in_map, roots_of_In. auto.
Qed.

Lemma reply_to_pending_becomes_root_witness :
  let st := DiscussionThread.mkState Samples.orphaned [] [] in
  let tmp := DiscussionThread.optimisticComment Samples.reply_env "2" "Agreed." "Judy" in
  let r :=
    DiscussionThread.optimisticComment
      (mkEnv "1709294400200" "0.1234" "0.9dj2kq01xz" "2024-03-01T12:00:00.200Z")
      (id tmp) "Thanks." "Bob" in
  let cur := DiscussionThread.mkState (Samples.orphaned ++ [tmp; r]) [] [] in
  let server :=
    (CommentService.addComment Samples.store_env (Some "2") "Agreed." "Judy" None
       (Some Samples.orphaned)).1 in
  let after :=
    DiscussionThread.comments
      ((DiscussionThread.handleReply Samples.reply_env "2" "Agreed." "Judy" st).2
         (Some server) cur) in
  In r after /\
  is_root after r = true /\
  exists forest,
    buildTree JsDate.getTime after = Some forest /\
    exists kids, In (mkNode r kids 0) forest.
Proof.
  apply (reply_to_pending_becomes_root JsDate.getTime Samples.reply_env
           Samples.store_env "2" "Agreed." "Judy"
           (DiscussionThread.mkState Samples.orphaned [] [])).
  - vm_compute; reflexivity.
  - intros c Hc. simpl in Hc.
    repeat (destruct Hc as [<-|Hc]; [try discriminate; reflexivity|]). destruct Hc.
  - intros c Hc. simpl in Hc.
    repeat (destruct Hc as [<-|Hc]; [split; discriminate|]). destruct Hc.
  - simpl. tauto.
  - reflexivity.
  - discriminate.
Defined.

(** ** The reply form and the store *)

(** X15: [handleSubmitReply] submits exactly when both fields hold a
    character that is not white space.  It then passes the node's id
    and the two texts as they were typed, untrimmed, to [onReply] and
    clears the form; otherwise the form and the state stay as they are. *)
Theorem handleSubmitReply_spec {T : Type}
    (onReply : string -> string -> string -> T -> T)
    (node_id : string) (form : CommentItem.Form) (st : T) :
  CommentItem.handleSubmitReply onReply node_id form st
  = if has_text (CommentItem.replyContent form)
       && has_text (CommentItem.replyAuthor form)
    then (CommentItem.mkForm false "" "",
          onReply node_id (CommentItem.replyContent form)
            (CommentItem.replyAuthor form) st)
    else (form, st).
Proof.
  unfold CommentItem.handleSubmitReply. now rewrite !truthy_trim.
Qed.

(** X16: when the coordinator's collection is the stored one and the
    temporary id is fresh, a confirmed reply leaves the coordinator with
    the collection that [getComments] then reads from the store; a
    failed one leaves it with the collection it had. *)
Theorem reply_keeps_store_in_sync (env store_env : Env)
    (parent reply_content reply_author : string) (st : DiscussionThread.State)
    (C : list Comment) :
  let tmp :=
    DiscussionThread.optimisticComment env parent reply_content reply_author in
  DiscussionThread.comments st = C ->
  (forall c, In c C -> id c <> id tmp) ->
  let '(st1, settle) :=
    DiscussionThread.handleReply env parent reply_content reply_author st in
  let '(server, store') :=
    CommentService.addComment store_env (Some parent) reply_content reply_author
      None (Some C) in
  DiscussionThread.comments (settle (Some server) st1)
  = (CommentService.getComments store').1 /\
  DiscussionThread.comments (settle None st1) = C.
Proof.
  intros tmp Hst Hfresh.
  cbn [DiscussionThread.handleReply CommentService.addComment
       CommentService.getComments]. fold tmp.
  cbn [DiscussionThread.comments DiscussionThread.issue DiscussionThread.setComments
       DiscussionThread.alert fst].
  rewrite Hst, map_app, List.filter_app. cbn [List.map List.filter].
  rewrite bool_decide_eq_true_2 by reflexivity. cbn [negb].
  rewrite (map_replace_fresh _ _ C Hfresh), (filter_remove_fresh _ C Hfresh).
  split; [reflexivity|apply app_nil_r].
Qed.

Lemma reply_keeps_store_in_sync_witness :
  let st := DiscussionThread.mkState Samples.orphaned [] [] in
  let '(st1, settle) :=
    DiscussionThread.handleReply Samples.reply_env "2" "Agreed." "Judy" st in
  let '(server, store') :=
    CommentService.addComment Samples.store_env (Some "2") "Agreed." "Judy"
      None (Some Samples.orphaned) in
  DiscussionThread.comments (settle (Some server) st1)
  = (CommentService.getComments store').1 /\
  DiscussionThread.comments (settle None st1) = Samples.orphaned.
Proof.
  apply (reply_keeps_store_in_sync Samples.reply_env Samples.store_env "2" "Agreed."
           "Judy" (DiscussionThread.mkState Samples.orphaned [] []) Samples.orphaned).
  - reflexivity.
  - intros c Hc. simpl in Hc.
    repeat (destruct Hc as [<-|Hc]; [discriminate|]). destruct Hc.
Defined.

(** X17: two pending replies with different temporary ids may be
    settled in either order, each by the store's comment or by a
    failure: the resulting state is the same. *)
Theorem confirmations_commute (env1 env2 : Env)
    (parent1 content1 author1 parent2 content2 author2 : string)
    (st sta cur : DiscussionThread.State)
    (answer1 answer2 : option (Env * CommentService.Storage)) :
  let tmp1 := DiscussionThread.optimisticComment env1 parent1 content1 author1 in
  let tmp2 := DiscussionThread.optimisticComment env2 parent2 content2 author2 in
  let settle1 := (DiscussionThread.handleReply env1 parent1 content1 author1 st).2 in
  let settle2 := (DiscussionThread.handleReply env2 parent2 content2 author2 sta).2 in
  let outcome1 :=
    (fun a : Env * CommentService.Storage =>
       (CommentService.addComment a.1 (Some parent1) content1 author1 None a.2).1)
      <$> answer1 in
  let outcome2 :=
    (fun a : Env * CommentService.Storage =>
       (CommentService.addComment a.1 (Some parent2) content2 author2 None a.2).1)
      <$> answer2 in
  id tmp1 <> id tmp2 ->
  settle1 outcome1 (settle2 outcome2 cur) = settle2 outcome2 (settle1 outcome1 cur).
Proof.
  intros tmp1 tmp2 settle1 settle2 outcome1 outcome2 Hne.
  unfold settle1, settle2, outcome1, outcome2.
  cbn [DiscussionThread.handleReply snd]. fold tmp1 tmp2.
  destruct cur as [l cs al].
  destruct answer1 as [[e1 s1]|], answer2 as [[e2 s2]|]; cbn [fmap option_fmap option_map fst snd];
    unfold DiscussionThread.alert, DiscussionThread.setComments;
    cbn [DiscussionThread.comments DiscussionThread.calls DiscussionThread.alerts];
    f_equal.
  - rewrite !map_map. apply map_ext. intros c.
    pose proof (store_id_not_temporary env1 e2 parent1 content1 author1
                  (Some parent2) content2 author2 None s2) as H21.
    pose proof (store_id_not_temporary env2 e1 parent2 content2 author2
                  (Some parent1) content1 author1 None s1) as H12.
    fold tmp1 in H21. fold tmp2 in H12.
    repeat case_bool_decide; congruence.
  - apply map_filter_comm. intros c.
    pose proof (store_id_not_temporary env2 e1 parent2 content2 author2
                  (Some parent1) content1 author1 None s1) as H12.
    fold tmp2 in H12.
    repeat case_bool_decide; congruence.
  - symmetry. apply map_filter_comm. intros c.
    pose proof (store_id_not_temporary env1 e2 parent1 content1 author1
                  (Some parent2) content2 author2 None s2) as H21.
    fold tmp1 in H21.
    repeat case_bool_decide; congruence.
  - apply filter_comm.
Qed.

Lemma confirmations_commute_witness :
  let env2 := mkEnv "1709294400200" "0.1234" "0.9dj2kq01xz" "2024-03-01T12:00:00.200Z" in
  let st := DiscussionThread.mkState Samples.orphaned [] [] in
  let sta := (DiscussionThread.handleReply Samples.reply_env "2" "Agreed." "Judy" st).1 in
  let cur := (DiscussionThread.handleReply env2 "6" "Why?" "Bob" sta).1 in
  let settle1 :=
    (DiscussionThread.handleReply Samples.reply_env "2" "Agreed." "Judy" st).2 in
  let settle2 := (DiscussionThread.handleReply env2 "6" "Why?" "Bob" sta).2 in
  let server1 :=
    (CommentService.addComment Samples.store_env (Some "2") "Agreed." "Judy" None
       (Some Samples.orphaned)).1 in
  settle1 (Some server1) (settle2 None cur) = settle2 None (settle1 (Some server1) cur).
Proof.
  exact (confirmations_commute Samples.reply_env
           (mkEnv "1709294400200" "0.1234" "0.9dj2kq01xz" "2024-03-01T12:00:00.200Z")
           "2" "Agreed." "Judy" "6" "Why?" "Bob"
           (DiscussionThread.mkState Samples.orphaned [] [])
           (DiscussionThread.handleReply Samples.reply_env "2" "Agreed." "Judy"
              (DiscussionThread.mkState Samples.orphaned [] [])).1
           (DiscussionThread.handleReply
              (mkEnv "1709294400200" "0.1234" "0.9dj2kq01xz" "2024-03-01T12:00:00.200Z")
              "6" "Why?" "Bob"
              (DiscussionThread.handleReply Samples.reply_env "2" "Agreed." "Judy"
                 (DiscussionThread.mkState Samples.orphaned [] [])).1).1
           (Some (Samples.store_env, Some Samples.orphaned)) None
           ltac:(discriminate)).
Defined.

(** ** The store's delete *)

(** X18: on a well-formed collection [deleteComment] keeps the order
    of the collection and removes exactly the comment with the given id,
    the comments that name this id as their parent, and everything below
    them.  It does so also when no comment carries the id, where the
    coordinator's [handleDelete] removes nothing. *)
Theorem deleteComment_cascade_spec (C : list Comment) (target : string)
    (st : DiscussionThread.State) :
  well_formed C = true ->
  DiscussionThread.comments st = C ->
  exists keep,
    CommentService.deleteComment target (Some C)
    = Some (Some (List.filter keep C)) /\
    (forall c, In c C -> (keep c = true <-> ~ in_cascade C target c)) /\
    (~ In target (List.map id C) ->
     exists st1 pending,
       DiscussionThread.handleDelete true C target st = Some (st1, Some pending) /\
       DiscussionThread.comments st1 = C).
Proof.
  intros Hwf Hst.
  destruct (deleteComment_cascade C target Hwf) as (keep & E & Hkeep).
  exists keep. split; [exact E|]. split; [exact Hkeep|].
  intros Hout.
  destruct (optimistic_delete C target st Hwf Hst) as (st1 & settle & E1 & E2 & _).
  exists st1. eexists. split; [exact E1|]. rewrite E2.
  apply filter_all. intros c Hc. apply negb_true_iff, not_true_is_false.
  intros Hs. apply (in_subtree_closure C target c Hwf Hc) in Hs.
  apply well_formed_unfold in Hwf as [Hnd _].
  apply (in_closure_ancestor C target c Hnd) in Hs as [_ [Et|(t & Ht & Et & _)]];
    apply Hout; rewrite <- Et; now apply in_map.
Qed.

Lemma deleteComment_cascade_spec_witness :
  exists keep,
    CommentService.deleteComment "404" (Some Samples.orphaned)
    = Some (Some (List.filter keep Samples.orphaned)) /\
    (forall c, In c Samples.orphaned ->
       (keep c = true <-> ~ in_cascade Samples.orphaned "404" c)) /\
    exists st1 pending,
      DiscussionThread.handleDelete true Samples.orphaned "404"
        (DiscussionThread.mkState Samples.orphaned [] [])
      = Some (st1, Some pending) /\
      DiscussionThread.comments st1 = Samples.orphaned.
Proof.
  destruct (deleteComment_cascade_spec Samples.orphaned "404"
              (DiscussionThread.mkState Samples.orphaned [] []))
    as (keep & E & Hkeep & Hui).
  - vm_compute; reflexivity.
  - reflexivity.
  - exists keep. split; [exact E|]. split; [exact Hkeep|]. apply Hui.
    simpl. intros H. repeat (destruct H as [H|H]; [discriminate|]). destruct H.
Defined.

(** X19: after [deleteComment] no stored comment carries the id or
    names it as its parent, and deleting the same id again changes
    nothing. *)
Theorem deleteComment_idempotent (C : list Comment) (target : string) :
  well_formed C = true ->
  exists R,
    CommentService.deleteComment target (Some C) = Some (Some R) /\
    (forall c, In c R -> id c <> target /\ parentId c <> Some target) /\
    CommentService.deleteComment target (Some R) = Some (Some R).
Proof.
  intros Hwf.
  destruct (deleteComment_cascade C target Hwf) as (keep & E & Hkeep).
  assert (H : forall c, In c (List.filter keep C) ->
                        id c <> target /\ parentId c <> Some target).
  { intros c Hc. apply filter_In in Hc as [Hc Hk]. apply (Hkeep c Hc) in Hk.
    split; intros E'; apply Hk;
      [now apply cascade_target|now apply cascade_child]. }
  eexists. split; [exact E|]. split; [exact H|]. now apply deleteComment_absent.
Qed.

Lemma deleteComment_idempotent_witness :
  exists R,
    CommentService.deleteComment "2" (Some Samples.orphaned) = Some (Some R) /\
    (forall c, In c R -> id c <> "2" /\ parentId c <> Some "2") /\
    CommentService.deleteComment "2" (Some R) = Some (Some R).
Proof.
  apply (deleteComment_idempotent Samples.orphaned "2"). vm_compute; reflexivity.
Defined.

(** ** Collections with a parent cycle *)



(** X21: when the collection holds a parent cycle and the target is
    not on it, the ancestor walk of [handleDelete] never ends on the
    comments of the cycle, whatever the fuel: [handleDelete] does not
    return, and neither removes a comment nor calls the store. *)
Theorem handleDelete_cycle_never_returns (C cyc : list Comment) (x : Comment)
    (target : string) (st : DiscussionThread.State) :
  parent_cycle C cyc = true ->
  In x cyc ->
  (forall y, In y cyc -> id y <> target) ->
  (forall fuel,
     DiscussionThread.filterM (DiscussionThread.reaches fuel C target) C = None) /\
  DiscussionThread.handleDelete true C target st = None.
Proof.
  intros Hcyc Hx Hid.
  assert (H : forall fuel,
            DiscussionThread.filterM (DiscussionThread.reaches fuel C target) C = None).
  { intros fuel. apply (filterM_None _ C x).
    - now apply (parent_cycle_spec C cyc x Hcyc Hx).
    - now apply (reaches_cycle C cyc target). }
  split; [exact H|].
  unfold DiscussionThread.handleDelete, DiscussionThread.deletedComments.
  cbn [negb]. now rewrite H.
Qed.

Lemma handleDelete_cycle_never_returns_witness :
  (forall fuel,
     DiscussionThread.filterM
       (DiscussionThread.reaches fuel Samples.looped "a") Samples.looped = None) /\
  DiscussionThread.handleDelete true Samples.looped "a"
    (DiscussionThread.mkState Samples.looped [] []) = None.
Proof.
  apply (handleDelete_cycle_never_returns Samples.looped
           Samples.loop
           (mkComment "x" (Some "y") "chicken" "Bob" "2024-03-01T12:01:00Z" None)).
  - vm_compute; reflexivity.
  - simpl. tauto.
  - intros y Hy. simpl in Hy. destruct Hy as [<-|[<-|[]]]; discriminate.
Defined.

(** ** The page *)

(** X22: the first render shows the loading screen and a failed load
    the message [Failed to load comments].  After a load of a
    well-formed collection the page shows the empty thread exactly when
    the collection is empty, and otherwise the forest with all its
    comments; the header gives the length of the collection, which is
    the number of nodes shown, and, when parents come first, the largest
    number of parent links between a comment and its root. *)
Theorem page_after_load (getTime : string -> option Z) (C : list Comment) :
  well_formed C = true ->
  Page.render getTime Page.initial = Some Page.LoadingScreen /\
  Page.render getTime (Page.loaded None Page.initial)
  = Some (Page.ErrorScreen "Failed to load comments") /\
  exists forest,
    buildTree getTime C = Some forest /\
    Page.render getTime (Page.loaded (Some C) Page.initial)
    = Some (match C with
            | [] => Page.EmptyThread (Page.mkStats 0 0)
            | _ => Page.Thread (Page.mkStats (length C) (getMaxDepth forest)) forest
            end) /\
    countNodes forest = length C /\
    (parents_first C = true -> getMaxDepth forest = list_max (List.map (level C) C)).
Proof.
  intros Hwf. apply well_formed_unfold in Hwf as [Hnd Hac].
  split; [reflexivity|]. split; [reflexivity|].
  pose proof (forest_perm getTime C Hnd Hac) as Hperm.
  eexists. split; [now apply buildTree_spec|].
  set (forest := List.map (tree getTime C (length C)) (roots_of getTime C)) in *.
  split; [|split].
  - unfold Page.render, Page.loaded, Page.initial.
    cbn [fst snd DiscussionThread.setComments DiscussionThread.comments
         Page.loading Page.error].
    rewrite (buildTree_spec getTime C Hnd Hac). fold forest.
    cbn [mbind option_bind]. f_equal.
    destruct C as [|c C']; [reflexivity|].
    destruct forest as [|t forest'] eqn:Ef; [|reflexivity].
    apply Permutation_nil in Hperm. discriminate.
  - rewrite countNodes_flattenTree. now apply Permutation_length.
  - intros Hpf. unfold getMaxDepth.
    destruct forest as [|t forest'] eqn:Ef.
    + apply Permutation_nil in Hperm. now subst C.
    + rewrite maxDepth_fold_spec. rewrite <- Ef. unfold forest.
      now rewrite forest_max_depth.
Qed.

Lemma page_after_load_witness :
  Page.render JsDate.getTime Page.initial = Some Page.LoadingScreen /\
  Page.render JsDate.getTime (Page.loaded None Page.initial)
  = Some (Page.ErrorScreen "Failed to load comments") /\
  exists forest,
    buildTree JsDate.getTime CommentService.getInitialData = Some forest /\
    Page.render JsDate.getTime
      (Page.loaded (Some CommentService.getInitialData) Page.initial)
    = Some (Page.Thread (Page.mkStats 7 (getMaxDepth forest)) forest) /\
    countNodes forest = 7%nat /\
    getMaxDepth forest
    = list_max (List.map (level CommentService.getInitialData)
                  CommentService.getInitialData).
Proof.
  destruct (page_after_load JsDate.getTime CommentService.getInitialData)
    as (H1 & H2 & forest & B & R & N & D).
  - vm_compute; reflexivity.
  - split; [exact H1|]. split; [exact H2|]. exists forest.
    split; [exact B|]. split; [exact R|]. split; [exact N|].
    apply D. vm_compute; reflexivity.
Defined.

(** ** Rebuilding from the flattened forest *)

(** X23: the pre-order listing [flattenTree (buildTree C)] of a
    well-formed collection puts parents first.  Building the forest
    again from it gives the forest of [C] up to the [depth] fields, which
    now hold the distance from the root at every node; the listing is
    unchanged, so that a further round trip returns the same forest. *)
Theorem rebuild_from_listing (getTime : string -> option Z) (C : list Comment) :
  well_formed C = true ->
  exists forest forest',
    buildTree getTime C = Some forest /\
    parents_first (flattenTree forest) = true /\
    buildTree getTime (flattenTree forest) = Some forest' /\
    List.map erase_depth forest' = List.map erase_depth forest /\
    forallb (depth_is_distance 0) forest' = true /\
    flattenTree forest' = flattenTree forest /\
    buildTree getTime (flattenTree forest') = Some forest'.
Proof.
  intros Hwf. pose proof (well_formed_unfold C Hwf) as [Hnd Hac].
  pose proof (listing_perm getTime C Hnd Hac) as HP.
  pose proof (well_formed_perm C _ HP Hwf) as Hwf'.
  pose proof (listing_parents_first getTime C Hnd Hac) as Hpf.
  destruct (forest_depths getTime _ Hwf' Hpf) as [B' Hd].
  pose proof (forest_listing getTime C Hnd Hac) as He.
  do 2 eexists. split; [now apply buildTree_spec|].
  rewrite flattenTree_forest.
  split; [exact Hpf|]. split; [exact B'|]. split; [exact He|].
  split; [exact Hd|].
  assert (Hf : flattenTree
                 (List.map
                    (tree getTime
                       (flat_map (pre getTime C (length C)) (roots_of getTime C))
                       (length
                          (flat_map (pre getTime C (length C)) (roots_of getTime C))))
                    (roots_of getTime
                       (flat_map (pre getTime C (length C)) (roots_of getTime C))))
               = flat_map (pre getTime C (length C)) (roots_of getTime C)).
  { rewrite <- flattenTree_erase_depth, He, flattenTree_erase_depth.
    apply flattenTree_forest. }
  split; [exact Hf|]. rewrite Hf. exact B'.
Qed.

Lemma rebuild_from_listing_witness :
  exists forest forest',
    buildTree JsDate.getTime Samples.youngest_first = Some forest /\
    parents_first (flattenTree forest) = true /\
    buildTree JsDate.getTime (flattenTree forest) = Some forest' /\
    List.map erase_depth forest' = List.map erase_depth forest /\
    forallb (depth_is_distance 0) forest' = true /\
    flattenTree forest' = flattenTree forest /\
    buildTree JsDate.getTime (flattenTree forest') = Some forest'.
Proof.
  apply (rebuild_from_listing JsDate.getTime Samples.youngest_first).
  vm_compute; reflexivity.
Defined.

(** X24: on every collection with unique ids [buildTree] returns.  The
    forest holds exactly the comments whose chain of parents ends, each
    once; a comment on a parent cycle, or below one, is in no tree, so
    that the forest has fewer nodes than the collection has comments. *)
Theorem buildTree_drops_cycles (getTime : string -> option Z) (C : list Comment) :
  unique_ids C = true ->
  exists forest,
    buildTree getTime C = Some forest /\
    Permutation (flattenTree forest) (List.filter (grounded C) C) /\
    countNodes forest = length (List.filter (grounded C) C) /\
    forall cyc x,
      parent_cycle C cyc = true -> In x cyc ->
      ~ In x (flattenTree forest) /\ (countNodes forest < length C)%nat.
Proof.
  intros Hu.
  assert (Hnd : List.NoDup (List.map id C)).
  { apply bool_decide_eq_true in Hu.
    induction Hu; constructor; [|assumption]. now rewrite <- list_elem_of_In. }
  pose proof (forest_grounded getTime C Hnd) as Hperm.
  eexists. split; [now apply buildTree_unique|]. split; [exact Hperm|].
  assert (Hcount : countNodes (List.map (tree getTime C (length C))
                                 (roots_of getTime C))
                   = length (List.filter (grounded C) C)).
  { rewrite countNodes_flattenTree. now apply Permutation_length. }
  split; [exact Hcount|].
  intros cyc x Hcyc Hx.
  pose proof (parent_cycle_not_grounded C cyc x Hcyc Hx) as Hg.
  destruct (parent_cycle_spec C cyc x Hcyc Hx) as (HxC & _).
  split.
  - intros Hin. apply (Permutation_in _ Hperm), filter_In in Hin as [_ Hin].
    congruence.
  - rewrite Hcount. now apply (filter_length_lt (grounded C) C x).
Qed.

Lemma buildTree_drops_cycles_witness :
  exists forest,
    buildTree JsDate.getTime Samples.looped = Some forest /\
    Permutation (flattenTree forest)
      (List.filter (grounded Samples.looped) Samples.looped) /\
    countNodes forest = 1%nat /\
    forall x, In x Samples.loop ->
      ~ In x (flattenTree forest) /\ (countNodes forest < length Samples.looped)%nat.
Proof.
  destruct (buildTree_drops_cycles JsDate.getTime Samples.looped)
    as (forest & B & P & N & H).
  - vm_compute; reflexivity.
  - exists forest. split; [exact B|]. split; [exact P|]. split; [exact N|].
    intros x Hx. apply (H Samples.loop x); [vm_compute; reflexivity|exact Hx].
Defined.

(** ** Where a reply appears *)

(** X25: a reply to a comment [p] of a well-formed collection, under
    a fresh temporary id, stands after the replies that [p] already has
    when none of them is sorted behind it, that is, when none has a
    readable timestamp later than the one of the reply. *)
Theorem reply_is_last_child (getTime : string -> option Z) (env : Env)
    (reply_content reply_author : string) (st : DiscussionThread.State)
    (p : Comment) :
  let tmp :=
    DiscussionThread.optimisticComment env (id p) reply_content reply_author in
  let C := DiscussionThread.comments st in
  well_formed C = true ->
  In p C ->
  (forall c, In c C -> id c <> id tmp /\ parentId c <> Some (id tmp)) ->
  (forall c, In c C -> parentId c = Some (id p) -> sorts_before getTime tmp c = false) ->
  exists forest forest' n n',
    buildTree getTime C = Some forest /\
    buildTree getTime
      (DiscussionThread.comments
         (DiscussionThread.handleReply env (id p) reply_content reply_author st).1)
    = Some forest' /\
    In n (flat_map subnodes forest) /\ node_comment n = p /\
    In n' (flat_map subnodes forest') /\ node_comment n' = p /\
    List.map node_comment (children n')
    = List.map node_comment (children n) ++ [tmp].
Proof.
  intros tmp C Hwf Hp Hfresh Hlast.
  destruct (snoc_last_child getTime C p tmp Hwf Hp eq_refl Hfresh Hlast)
    as (n & n' & H).
  do 2 eexists. exists n, n'. exact H.
Qed.

Lemma reply_is_last_child_witness :
  let p :=
    mkComment "2" (Some "1")
      "Great point! I have a follow-up question about the implementation details..."
      "Bob" "2024-01-10T10:05:00Z" None in
  let tmp := DiscussionThread.optimisticComment Samples.reply_env "2" "Agreed." "Judy" in
  let st := DiscussionThread.mkState Samples.orphaned [] [] in
  exists forest forest' n n',
    buildTree JsDate.getTime Samples.orphaned = Some forest /\
    buildTree JsDate.getTime
      (DiscussionThread.comments
         (DiscussionThread.handleReply Samples.reply_env "2" "Agreed." "Judy" st).1)
    = Some forest' /\
    In n (flat_map subnodes forest) /\ node_comment n = p /\
    In n' (flat_map subnodes forest') /\ node_comment n' = p /\
    List.map node_comment (children n')
    = List.map node_comment (children n) ++ [tmp].
Proof.
  apply (reply_is_last_child JsDate.getTime Samples.reply_env "Agreed." "Judy"
           (DiscussionThread.mkState Samples.orphaned [] [])
           (mkComment "2" (Some "1")
              "Great point! I have a follow-up question about the implementation details..."
              "Bob" "2024-01-10T10:05:00Z" None)).
  - vm_compute; reflexivity.
  - simpl. tauto.
  - intros c Hc. simpl in Hc.
    repeat (destruct Hc as [<-|Hc]; [split; discriminate|]). destruct Hc.
  - intros c Hc. simpl in Hc.
    repeat (destruct Hc as [<-|Hc]; [intros _; vm_compute; reflexivity|]). destruct Hc.
Defined.

(** X26: when the store confirms a reply to [p] before anything else
    changes, the store's comment takes the place of the optimistic one:
    it stands after the replies that [p] had, provided its id is fresh
    and none of those replies is sorted behind it. *)
Theorem confirmed_reply_stays_last (getTime : string -> option Z)
    (env store_env : Env) (reply_content reply_author : string)
    (st : DiscussionThread.State) (store : CommentService.Storage) (p : Comment) :
  let tmp :=
    DiscussionThread.optimisticComment env (id p) reply_content reply_author in
  let server :=
    (CommentService.addComment store_env (Some (id p)) reply_content reply_author
       None store).1 in
  let C := DiscussionThread.comments st in
  well_formed C = true ->
  In p C ->
  (forall c, In c C -> id c <> id tmp) ->
  (forall c, In c C -> id c <> id server /\ parentId c <> Some (id server)) ->
  (forall c, In c C -> parentId c = Some (id p) ->
     sorts_before getTime server c = false) ->
  let '(st1, settle) :=
    DiscussionThread.handleReply env (id p) reply_content reply_author st in
  exists forest forest' n n',
    buildTree getTime C = Some forest /\
    buildTree getTime (DiscussionThread.comments (settle (Some server) st1))
    = Some forest' /\
    In n (flat_map subnodes forest) /\ node_comment n = p /\
    In n' (flat_map subnodes forest') /\ node_comment n' = p /\
    List.map node_comment (children n')
    = List.map node_comment (children n) ++ [server].
Proof.
  intros tmp server C Hwf Hp Htmp Hfresh Hlast.
  cbn [DiscussionThread.handleReply]. fold tmp.
  cbn [DiscussionThread.comments DiscussionThread.issue DiscussionThread.setComments].
  fold C. rewrite map_app. cbn [List.map].
  rewrite bool_decide_eq_true_2 by reflexivity.
  rewrite (map_replace_fresh _ _ C Htmp).
  assert (Ep : parentId server = Some (id p))
    by (unfold server; apply server_parentId).
  destruct (snoc_last_child getTime C p server Hwf Hp Ep Hfresh Hlast)
    as (n & n' & H).
  do 2 eexists. exists n, n'. exact H.
Qed.

Lemma confirmed_reply_stays_last_witness :
  let p :=
    mkComment "2" (Some "1")
      "Great point! I have a follow-up question about the implementation details..."
      "Bob" "2024-01-10T10:05:00Z" None in
  let server :=
    (CommentService.addComment Samples.store_env (Some "2") "Agreed." "Judy" None
       (Some Samples.orphaned)).1 in
  let st := DiscussionThread.mkState Samples.orphaned [] [] in
  let '(st1, settle) :=
    DiscussionThread.handleReply Samples.reply_env "2" "Agreed." "Judy" st in
  exists forest forest' n n',
    buildTree JsDate.getTime Samples.orphaned = Some forest /\
    buildTree JsDate.getTime (DiscussionThread.comments (settle (Some server) st1))
    = Some forest' /\
    In n (flat_map subnodes forest) /\ node_comment n = p /\
    In n' (flat_map subnodes forest') /\ node_comment n' = p /\
    List.map node_comment (children n')
    = List.map node_comment (children n) ++ [server].
Proof.
  apply (confirmed_reply_stays_last JsDate.getTime Samples.reply_env Samples.store_env
           "Agreed." "Judy" (DiscussionThread.mkState Samples.orphaned [] [])
           (Some Samples.orphaned)
           (mkComment "2" (Some "1")
              "Great point! I have a follow-up question about the implementation details..."
              "Bob" "2024-01-10T10:05:00Z" None)).
  - vm_compute; reflexivity.
  - simpl. tauto.
  - intros c Hc. simpl in Hc.
    repeat (destruct Hc as [<-|Hc]; [discriminate|]). destruct Hc.
  - intros c Hc. simpl in Hc.
    repeat (destruct Hc as [<-|Hc]; [split; discriminate|]). destruct Hc.
  - intros c Hc. simpl in Hc.
    repeat (destruct Hc as [<-|Hc]; [intros _; vm_compute; reflexivity|]). destruct Hc.
Defined.

(** ** Unreadable timestamps *)

(** X27: when no timestamp of a well-formed collection can be read,
    every comparison of the sort is [NaN] and nothing is moved: the roots
    and the children of every node stand in the order of the
    collection. *)
Theorem buildTree_unreadable_keeps_order (getTime : string -> option Z)
    (C : list Comment) :
  well_formed C = true ->
  (forall c, In c C -> getTime (createdAt c) = None) ->
  exists forest,
    buildTree getTime C = Some forest /\
    List.map node_comment forest = List.filter (is_root C) C /\
    forall n, In n (flat_map subnodes forest) ->
      List.map node_comment (children n)
      = List.filter (parentIs (id (node_comment n))) C.
Proof.
  intros Hwf Hnone. apply well_formed_unfold in Hwf as [Hnd Hac].
  assert (Hsort : forall P, js_sort (by_createdAt getTime) (List.filter P C)
                            = List.filter P C).
  { intros P. apply js_sort_unordered. intros a b Ha Hb.
    apply filter_In in Ha as [Ha _].
    unfold cmp_neg, by_createdAt. now rewrite (Hnone a Ha). }
  eexists. split; [now apply buildTree_spec|].
  rewrite tree_comments. split; [apply Hsort|].
  intros n Hn. apply (forest_subnodes getTime C Hnd Hac) in Hn as [_ ->].
  apply Hsort.
Qed.

Lemma buildTree_unreadable_keeps_order_witness :
  exists forest,
    buildTree (fun _ => None) Samples.same_instant = Some forest /\
    List.map node_comment forest
    = List.filter (is_root Samples.same_instant) Samples.same_instant /\
    forall n, In n (flat_map subnodes forest) ->
      List.map node_comment (children n)
      = List.filter (parentIs (id (node_comment n))) Samples.same_instant.
Proof.
  apply (buildTree_unreadable_keeps_order (fun _ => None) Samples.same_instant).
  - vm_compute; reflexivity.
  - reflexivity.
Defined.

(** ** The store and its seed *)

(** X28: the store seeds the sample data whenever nothing is stored: at
    a first add or delete, which then act on the seeded data, and again
    after [clearAll].  A second read returns what the first returned and
    leaves the storage as it is, and an add appends the new comment,
    with the caller's fields, at the end of what a read returned. *)
Theorem store_round_trips (env : Env) (comment_parentId : option string)
    (comment_content comment_author : string) (comment_optimistic : option bool)
    (target : string) (s : CommentService.Storage) :
  let stored := (CommentService.getComments s).1 in
  let '(newComment, s') :=
    CommentService.addComment env comment_parentId comment_content comment_author
      comment_optimistic s in
  CommentService.getComments (CommentService.getComments s).2
  = (stored, Some stored) /\
  CommentService.getComments (CommentService.clearAll s)
  = (CommentService.getInitialData, Some CommentService.getInitialData) /\
  CommentService.getComments s' = (stored ++ [newComment], s') /\
  (parentId newComment, content newComment, author newComment, optimistic newComment)
  = (comment_parentId, comment_content, comment_author, comment_optimistic) /\
  CommentService.deleteComment target s
  = CommentService.deleteComment target (Some stored).
Proof.
  destruct s as [data|]; cbn; repeat split; reflexivity.
Qed.
